(** * Board layout utilities: packing, hint rewriting and the layout engine contract

    Shallow embedding of [src/internal/utils/layout.ts] (the packing function
    [interpretItems], its inverse [transformItems] and
    [createPlaceholdersLayout]) together with the contract of the layout
    engine exercised by the engine tests.

    Numbers are modelled as unbounded integers; the one non-integer value the
    packing code can produce by itself, [NaN] (from reading [columnHeights]
    outside the array), is kept as a separate constructor. *)

From stdpp Require Import gmap strings list fin_maps pretty sorting.
From Stdlib Require Import ZArith Lia Ascii.

Open Scope Z_scope.

(** ** JavaScript numbers restricted to the integers and NaN *)

Inductive number := Num (z : Z) | NaN.

#[global] Instance number_eq_dec : EqDecision number.
Proof. solve_decision. Defined.

#[global] Instance number_countable : Countable number.
Proof.
  refine (inj_countable'
            (λ n, match n with Num z => Some z | NaN => None end)
            (λ o, match o with Some z => Num z | None => NaN end) _).
  by intros [].
Defined.

(** [a + b] *)
Definition number_add (a : number) (b : Z) : number :=
  match a with Num z => Num (z + b) | NaN => NaN end.

(** [a <= b]: false as soon as one side is NaN *)
Definition number_le (a b : number) : bool :=
  match a, b with Num x, Num y => bool_decide (x ≤ y) | _, _ => false end.

(** [a > b] *)
Definition number_gt (a b : number) : bool :=
  match a, b with Num x, Num y => bool_decide (y < x) | _, _ => false end.

(** [a !== b]: NaN differs from everything, itself included *)
Definition number_neq (a b : number) : bool :=
  match a, b with Num x, Num y => bool_decide (x ≠ y) | _, _ => true end.

(** [Math.max(a, arr[i])] where the array read may be [undefined] *)
Definition math_max (a : number) (b : option number) : number :=
  match a, b with
  | Num x, Some (Num y) => Num (x `max` y)
  | _, _ => NaN
  end.

(** ** Errors and the result monad *)

Inductive Error :=
| RangeError          (* Array(columns) with an invalid length *)
| TypeError           (* property read on undefined *)
| InvariantViolation. (* "Invariant violation: no matching source item found." *)

Inductive result (A : Type) := Ok (a : A) | Throw (e : Error).
Arguments Ok {A} a.
Arguments Throw {A} e.

#[global] Instance result_ret : MRet result := λ A a, Ok a.
#[global] Instance result_bind : MBind result := λ A B k r,
  match r with Ok a => k a | Throw e => Throw e end.

(** ** Data model *)

(** [BoardItemLayoutSetting]: an object keyed by column count. *)
Abbreviation BoardItemLayoutSetting := (gmap number Z).

(** Hint objects are shared by reference between the source items and the
    copies made by [transformItems]; they live in a store. *)
Abbreviation loc := positive.
Abbreviation Store := (gmap loc BoardItemLayoutSetting).

Record ItemDefinition := {
  minRowSpan : option Z;
  minColumnSpan : option BoardItemLayoutSetting;
  defaultRowSpan : option Z;
  defaultColumnSpan : option BoardItemLayoutSetting;
}.

(** [BoardItemDefinition]; the opaque [data] payload plays no role in layout. *)
Record Item := {
  id : string;
  definition : option ItemDefinition;
  columnOffset : option loc;
  columnSpan : option loc;
  rowSpan : option loc;
}.

Record GridLayoutItem := {
  item_id : string;
  x : Z;
  y : number;
  width : Z;
  height : Z;
}.

Record GridLayout := {
  items : list GridLayoutItem;
  columns : Z;
  rows : number;
}.

(** The constants module is not part of the sources at hand. *)
Class Constants := {
  MIN_COL_SPAN : Z;
  MIN_ROW_SPAN : Z;
}.

(** ** Sorting *)

(** [Array.prototype.sort(cmp)], as a stable insertion sort: an element moves
    behind another one only when the comparator returns a positive number.
    When the comparator orders the elements strictly this is the result of
    every sort, see [sort_strict_perm]. When it contradicts itself on a pair,
    as [itemComparator] does for two entries on one cell or for a row that is
    no number, the language leaves the result to the engine; the properties
    that depend on the sorted order are therefore stated for layouts that
    have a strict reading order. *)
Section Sort.
Context {A : Type} (cmp : A → A → Z).

Fixpoint sort_insert (a : A) (l : list A) : list A :=
  match l with
  | [] => [a]
  | b :: l' => if bool_decide (0 < cmp a b) then b :: sort_insert a l' else a :: l
  end.

Definition sort (l : list A) : list A := foldr sort_insert [] l.

(** The comparator does not ask for [a] to go behind [b]. *)
Definition inOrder (a b : A) : Prop := ¬ 0 < cmp a b.
End Sort.

(** Row first, column second; never 0. *)
Definition itemComparator (a b : GridLayoutItem) : Z :=
  if number_neq (y a) (y b) then
    if number_gt (y a) (y b) then 1 else -1
  else
    if bool_decide (x b < x a) then 1 else -1.

(** ** interpretItems *)

Section Packing.
Context `{Constants}.

(** [setting?.[columns]] through the store *)
Definition readSetting (σ : Store) (setting : option loc) (layout : number) : option Z :=
  l ← setting; m ← σ !! l; m !! layout.

(** [for (let i = columns; i >= 0; i--) if (columnSpan[i] !== undefined)
    return columnSpan[i]]: the entry of the nearest key from [i] downwards. *)
Fixpoint scanKeysDown (m : BoardItemLayoutSetting) (i : nat) : option Z :=
  match m !! Num (Z.of_nat i) with
  | Some v => Some v
  | None => match i with O => None | S i' => scanKeysDown m i' end
  end.

(** A missing setting object and a setting object without an entry at or
    below [columns] both give [MIN_COL_SPAN]. *)
Definition getColumnSpanForColumns
    (columnSpan : option BoardItemLayoutSetting) (columns : Z) : Z :=
  match columnSpan with
  | None => MIN_COL_SPAN
  | Some m =>
      if bool_decide (columns < 0) then MIN_COL_SPAN
      else default MIN_COL_SPAN (scanKeysDown m (Z.to_nat columns))
  end.

Definition getItemMinColumnSpan (item : Item) (columns : Z) : Z :=
  MIN_COL_SPAN `max`
    getColumnSpanForColumns (d ← definition item; minColumnSpan d) columns.

Definition getItemDefaultColumnSpan (item : Item) (columns : Z) : Z :=
  columns `min`
    (getItemMinColumnSpan item columns `max`
       getColumnSpanForColumns (d ← definition item; defaultColumnSpan d) columns).

(** [item.definition?.minRowSpan ?? 0] *)
Definition getItemMinRowSpan (item : Item) : Z :=
  MIN_ROW_SPAN `max` default 0 (d ← definition item; minRowSpan d).

Definition getItemDefaultRowSpan (item : Item) : Z :=
  getItemMinRowSpan item `max` default 0 (d ← definition item; defaultRowSpan d).

Section Closure.
(** The variables captured by the inner functions of [interpretItems]. *)
Variable σ : Store.
Variable columns : Z.

Definition getColumnSpan (item : Item) : Z :=
  let minColumnSpan := getItemMinColumnSpan item columns in
  let columnSpan :=
    default (getItemDefaultColumnSpan item columns)
            (readSetting σ (columnSpan item) (Num columns)) in
  minColumnSpan `max` columnSpan.

Definition getRowSpan (item : Item) : Z :=
  let minRowSpan := getItemMinRowSpan item in
  let rowSpan :=
    default (getItemDefaultRowSpan item)
            (readSetting σ (rowSpan item) (Num columns)) in
  minRowSpan `max` rowSpan.

(** [col] runs over [columnOffset, columnOffset + columnSpan). *)
Fixpoint getRowOffset_loop (columnHeights : gmap Z number)
    (col : Z) (n : nat) (rowOffset : number) : number :=
  match n with
  | O => rowOffset
  | S n' =>
      getRowOffset_loop columnHeights (col + 1) n'
        (math_max rowOffset (columnHeights !! col))
  end.

(** The row an item lands on: the highest of the columns it spans. Reading
    a column the array does not have makes the result [NaN]. *)
Definition getRowOffset (columnHeights : gmap Z number)
    (columnOffset columnSpan : Z) : number :=
  getRowOffset_loop columnHeights columnOffset (Z.to_nat columnSpan) (Num 0).

(** The test shared by both scans of [findOptimalColumnOffset]. *)
Definition fits (columnHeights : gmap Z number)
    (columnSpan rowSpan colOffset : Z) : bool :=
  number_le (number_add (getRowOffset columnHeights colOffset columnSpan) rowSpan)
            (getRowOffset columnHeights 0 columns).

(** [for (c = colOffset; c + columnSpan <= columns; c++) if (test c) return c] *)
Fixpoint scan_loop (test : Z → bool) (colOffset : Z) (n : nat) : option Z :=
  match n with
  | O => None
  | S n' => if test colOffset then Some colOffset
            else scan_loop test (colOffset + 1) n'
  end.

(** The loop visits the offsets [from, from + 1, ...] up to
    [columns - columnSpan]. *)
Definition scan (test : Z → bool) (from columnSpan : Z) : option Z :=
  scan_loop test from (Z.to_nat (columns - columnSpan - from + 1)).

Definition findOptimalColumnOffset (columnHeights : gmap Z number)
    (currentColumnOffset columnSpan rowSpan : Z) : Z :=
  match scan (fits columnHeights columnSpan rowSpan) currentColumnOffset columnSpan with
  | Some colOffset => colOffset
  | None =>
      match scan (fits columnHeights columnSpan rowSpan) 0 columnSpan with
      | Some colOffset => colOffset
      | None =>
          if bool_decide (currentColumnOffset + columnSpan ≤ columns)
          then currentColumnOffset else 0
      end
  end.

Definition getColumnOffset (columnHeights : gmap Z number)
    (item : Item) (currentOffset : Z) : Z :=
  let columnSpan := getColumnSpan item in
  let rowSpan := getRowSpan item in
  default (findOptimalColumnOffset columnHeights currentOffset columnSpan rowSpan)
          (readSetting σ (columnOffset item) (Num columns)).

(** [columnHeights[col] = v] for [col] in [from, from + n) *)
Fixpoint fill_loop (columnHeights : gmap Z number)
    (col : Z) (n : nat) (v : number) : gmap Z number :=
  match n with
  | O => columnHeights
  | S n' => fill_loop (<[col := v]> columnHeights) (col + 1) n' v
  end.

(** Loop state: the items pushed so far, the column heights and the
    running [columnOffset]. *)
Record PackState := {
  layoutItems : list GridLayoutItem;
  columnHeights : gmap Z number;
  cursor : Z;
}.

(** [Array(columns).fill(0)], no items, cursor 0. *)
Definition initialState : PackState :=
  {| layoutItems := [];
     columnHeights := fill_loop ∅ 0 (Z.to_nat columns) (Num 0);
     cursor := 0 |}.

(** One iteration of the main loop. *)
Definition placeItem (st : PackState) (item : Item) : PackState :=
  let columnSpan := getColumnSpan item in
  let rowSpan := getRowSpan item in
  let columnOffset := getColumnOffset (columnHeights st) item (cursor st) in
  let rowOffset := getRowOffset (columnHeights st) columnOffset columnSpan in
  {| layoutItems :=
       layoutItems st ++
         [{| item_id := id item; width := columnSpan; height := rowSpan;
             x := columnOffset; y := rowOffset |}];
     columnHeights :=
       fill_loop (columnHeights st) columnOffset (Z.to_nat columnSpan)
                 (number_add rowOffset rowSpan);
     cursor := columnOffset + columnSpan |}.

(** The main loop over the items. *)
Definition packItems (items : list Item) : PackState :=
  foldl placeItem initialState items.
End Closure.

(** [Array(columns)] throws a RangeError for a negative length and for a
    length above 2^32 - 1, the largest an array can have. *)
Definition interpretItems (σ : Store) (items : list Item) (columns : Z)
    : result GridLayout :=
  if bool_decide (columns < 0 ∨ 4294967296 ≤ columns) then Throw RangeError
  else
    let st := packItems σ columns items in
    Ok {| items := sort itemComparator (layoutItems st);
          columns := columns;
          rows := getRowOffset (columnHeights st) 0 columns |}.
End Packing.

(** ** transformItems *)

(** The second argument of [writeItemSetting]. *)
Inductive SettingName := ColumnOffsetName | ColumnSpanName | RowSpanName.

(** [item[name]] *)
Definition getSetting (name : SettingName) (item : Item) : option loc :=
  match name with
  | ColumnOffsetName => columnOffset item
  | ColumnSpanName => columnSpan item
  | RowSpanName => rowSpan item
  end.

(** [item[name] = v] on the copy of the item *)
Definition setSetting (name : SettingName) (v : option loc) (item : Item) : Item :=
  match name with
  | ColumnOffsetName =>
      {| id := id item; definition := definition item;
         columnOffset := v; columnSpan := columnSpan item; rowSpan := rowSpan item |}
  | ColumnSpanName =>
      {| id := id item; definition := definition item;
         columnOffset := columnOffset item; columnSpan := v; rowSpan := rowSpan item |}
  | RowSpanName =>
      {| id := id item; definition := definition item;
         columnOffset := columnOffset item; columnSpan := columnSpan item; rowSpan := v |}
  end.

(** [{}]: a new object, at an address the store does not use yet *)
Definition allocSetting (σ : Store) : Store * loc :=
  let l := fresh (dom σ) in (<[l := ∅]> σ, l).

(** [item[name]![layout] = value], after creating [item[name]] when it is
    missing. The write goes to the object the item points to, which is the
    source item's own object whenever the copy inherited it. *)
Definition writeItemSetting (σ : Store) (item : Item) (name : SettingName)
    (layout : number) (value : Z) : Store * Item :=
  let '(σ1, item1, l) :=
    match getSetting name item with
    | Some l => (σ, item, l)
    | None => let '(σ', l) := allocSetting σ in (σ', setSetting name (Some l) item, l)
    end in
  (alter (<[layout := value]>) l σ1, item1).

(** [new Map(sourceItems.map(item => [item.id, item]))]: the last item with a
    given id wins *)
Definition itemById (sourceItems : list Item) : gmap string Item :=
  foldl (λ m item, <[id item := item]> m) ∅ sourceItems.

(** Throws when no source item has the id. *)
Definition getItem (sourceItems : list Item) (itemId : string) : result Item :=
  match itemById sourceItems !! itemId with
  | Some item => Ok item
  | None => Throw InvariantViolation
  end.

(** [sortedLayout.findIndex(({ id }, index) => sourceItems[index].id !== id)];
    reading [.id] of a missing source item throws. *)
Fixpoint findIndex_loop (sourceItems : list Item) (sortedLayout : list GridLayoutItem)
    (index : nat) : result (option nat) :=
  match sortedLayout with
  | [] => Ok None
  | e :: rest =>
      match sourceItems !! index with
      | None => Throw TypeError
      | Some s =>
          if bool_decide (id s ≠ item_id e) then Ok (Some index)
          else findIndex_loop sourceItems rest (S index)
      end
  end.

(** [changeFromIndex !== -1 ? changeFromIndex : sortedLayout.length - 1] *)
Definition changeFromIndex (sourceItems : list Item) (sortedLayout : list GridLayoutItem)
    : result Z :=
  found ← findIndex_loop sourceItems sortedLayout 0;
  mret (match found with
        | Some i => Z.of_nat i
        | None => Z.of_nat (length sortedLayout) - 1
        end).

(** The body of the main loop for one entry of the sorted layout. *)
Definition transformItem (sourceItems : list Item) (gridLayout : GridLayout)
    (changeFrom : Z) (σ : Store) (index : nat) (e : GridLayoutItem)
    : result (Store * Item) :=
  item ← getItem sourceItems (item_id e);
  let item :=
    if bool_decide (changeFrom ≤ Z.of_nat index)
    then setSetting ColumnOffsetName None item else item in
  let '(σ, item) := writeItemSetting σ item ColumnOffsetName (Num (columns gridLayout)) (x e) in
  let '(σ, item) := writeItemSetting σ item ColumnSpanName (Num (columns gridLayout)) (width e) in
  let '(σ, item) := writeItemSetting σ item RowSpanName (rows gridLayout) (height e) in
  mret (σ, item).

(** The main loop, threading the store through the iterations. *)
Fixpoint transform_loop (sourceItems : list Item) (gridLayout : GridLayout)
    (changeFrom : Z) (σ : Store) (index : nat) (sortedLayout : list GridLayoutItem)
    : result (Store * list Item) :=
  match sortedLayout with
  | [] => Ok (σ, [])
  | e :: rest =>
      '(σ1, item) ← transformItem sourceItems gridLayout changeFrom σ index e;
      '(σ2, items) ← transform_loop sourceItems gridLayout changeFrom σ1 (S index) rest;
      mret (σ2, item :: items)
  end.

(** Returns the store after the call together with the new items. *)
Definition transformItems (σ : Store) (sourceItems : list Item) (gridLayout : GridLayout)
    : result (Store * list Item) :=
  let sortedLayout := sort itemComparator (items gridLayout) in
  changeFrom ← changeFromIndex sourceItems sortedLayout;
  transform_loop sourceItems gridLayout changeFrom σ 0 sortedLayout.

(** ** createPlaceholdersLayout *)

(** [`awsui-placeholder-${row}-${col}`] *)
Definition placeholderId (row col : Z) : string :=
  "awsui-placeholder-" +:+ pretty row +:+ "-" +:+ pretty col.

(** The two nested loops push one item per cell, row by row. *)
Definition createPlaceholdersLayout (rows columns : Z) : GridLayout :=
  {| items :=
       row ← seqZ 0 rows; col ← seqZ 0 columns;
       [{| item_id := placeholderId row col; x := col; y := Num row;
           width := 1; height := 1 |}];
     columns := columns;
     rows := Num rows |}.

(** ** The Grid component: vertical geometry

    [getHeight] and [getRowOffset] of the Grid component turn row spans and
    rows into pixels. Their horizontal counterparts divide the measured
    container width by the column count and are not modelled. *)

Module GridComponent.

Definition GRID_GAP : Z := 16.
Definition ROWSPAN_HEIGHT : Z := 260.

(** [rowspan * ROWSPAN_HEIGHT + (rowspan - 1) * GRID_GAP] *)
Definition getHeight (rowspan : Z) : Z :=
  rowspan * ROWSPAN_HEIGHT + (rowspan - 1) * GRID_GAP.

(** [getHeight(y) + GRID_GAP] *)
Definition getRowOffset (y : Z) : Z := getHeight y + GRID_GAP.

End GridComponent.

(** ** The item container: transition state

    The part of the ItemContainer component that keeps the transition of a
    dragged or resized item: the handlers subscribed to the drag-and-drop
    events, the pointer-down handlers of the two handles, and the classes and
    inline style derived from the state. Pixel values are integers here. *)

Module ItemContainer.

(** The values [draggableApi.start] is called with in this component. *)
Inductive Operation := Reorder | Resize | Insert.
Inductive InteractionType := Pointer | Keyboard.

Record Coordinates := { cx : Z; cy : Z }.
Record Size := { size_width : Z; size_height : Z }.
Record Rect := { left : Z; right : Z; top : Z; bottom : Z }.

Record Transition := {
  itemId : string;
  operation : Operation;
  interactionType : InteractionType;
  sizeTransform : option Size;
  positionTransform : option Coordinates;
}.

(** The drop target is known here by its [scale] method alone. *)
Record DragAndDropData := {
  dnd_operation : Operation;
  dnd_interactionType : InteractionType;
  draggableItem : Item;
  collisionRect : Rect;
  coordinates : Coordinates;
  dropTarget : option (Size → Size);
}.

(** [pointerOffsetRef], [isBorrowed] and [transition] *)
Record State := {
  pointerOffset : Coordinates;
  isBorrowed : bool;
  transition : option Transition;
}.

Definition initial : State :=
  {| pointerOffset := {| cx := 0; cy := 0 |}; isBorrowed := false; transition := None |}.

Section Component.
(** The props [item], [itemSize] and [itemMaxSize], and [getMinItemSize] of
    the layout utilities, which the sources at hand do not contain. *)
Variable item : Item.
Variable itemSize itemMaxSize : Size.
Variable getMinItemSize : Item → Size.

Definition setTransition (st : State) (t : Transition) : State :=
  {| pointerOffset := pointerOffset st; isBorrowed := isBorrowed st;
     transition := Some t |}.

Definition updateTransition (st : State) (d : DragAndDropData) : State :=
  if bool_decide (id item = id (draggableItem d)) then
    let width := right (collisionRect d) - left (collisionRect d) in
    let height := bottom (collisionRect d) - top (collisionRect d) in
    let offset := pointerOffset st in
    match dnd_operation d, dropTarget d with
    | Resize, Some scale =>
        let min := scale (getMinItemSize (draggableItem d)) in
        let max := scale itemMaxSize in
        setTransition st
          {| operation := dnd_operation d;
             interactionType := dnd_interactionType d;
             itemId := id (draggableItem d);
             sizeTransform :=
               Some {| size_width :=
                         size_width min `max`
                           (size_width max `min` (width - cx offset));
                       size_height := size_height min `max` (height - cy offset) |};
             positionTransform := None |}
    | Resize, None => st
    | _, target =>
        setTransition st
          {| operation := dnd_operation d;
             interactionType := dnd_interactionType d;
             itemId := id (draggableItem d);
             sizeTransform :=
               Some (match target with
                     | Some scale => scale itemSize
                     | None => {| size_width := width; size_height := height |}
                     end);
             positionTransform :=
               Some {| cx := cx (coordinates d) - cx offset;
                       cy := cy (coordinates d) - cy offset |} |}
    end
  else st.

(** [setIsBorrowed(false); setTransition(null)] *)
Definition clearState (st : State) : State :=
  {| pointerOffset := pointerOffset st; isBorrowed := false; transition := None |}.

(** What reaches the component: the four drag-and-drop events it subscribes
    to, a pointer landing on the drag or on the resize handle (with the
    pointer position and the bounding rectangle of the item), and a keyboard
    insert that found a droppable. *)
Inductive Event :=
| DragStart (d : DragAndDropData)
| DragUpdate (d : DragAndDropData)
| DragSubmit
| DragDiscard
| DragHandlePointerDown (clientX clientY : Z) (rect : Rect)
| ResizeHandlePointerDown (clientX clientY : Z) (rect : Rect)
| Borrowed.

Definition setPointerOffset (st : State) (offset : Coordinates) : State :=
  {| pointerOffset := offset; isBorrowed := isBorrowed st;
     transition := transition st |}.

Definition step (st : State) (ev : Event) : State :=
  match ev with
  | DragStart d | DragUpdate d => updateTransition st d
  | DragSubmit | DragDiscard => clearState st
  | DragHandlePointerDown clientX clientY rect =>
      setPointerOffset st {| cx := clientX - left rect; cy := clientY - top rect |}
  | ResizeHandlePointerDown clientX clientY rect =>
      setPointerOffset st {| cx := clientX - right rect; cy := clientY - bottom rect |}
  | Borrowed =>
      {| pointerOffset := pointerOffset st; isBorrowed := true;
         transition := transition st |}
  end.

Definition run (evs : list Event) : State := foldl step initial evs.

(** The classes added to the root element. *)
Inductive ClassName := ResizedClass | DraggedClass | BorrowedClass.

Record Style := {
  style_left : option Z;
  style_top : option Z;
  style_width : option Z;
  style_height : option Z;
}.

Definition noStyle : Style :=
  {| style_left := None; style_top := None; style_width := None; style_height := None |}.

(** [itemTransitionClassNames] and [itemTransitionStyle] *)
Definition render (st : State) : list ClassName * Style :=
  match transition st with
  | Some t =>
      match interactionType t with
      | Pointer =>
          ([match operation t with Resize => ResizedClass | _ => DraggedClass end],
           {| style_left := cx <$> positionTransform t;
              style_top := cy <$> positionTransform t;
              style_width := size_width <$> sizeTransform t;
              style_height := size_height <$> sizeTransform t |})
      | Keyboard => (if isBorrowed st then [BorrowedClass] else [], noStyle)
      end
  | None => (if isBorrowed st then [BorrowedClass] else [], noStyle)
  end.

(** [onBlur]: whether the transition is discarded when a handle loses focus *)
Definition onBlur (st : State) : bool :=
  match transition st with
  | Some t =>
      match interactionType t with
      | Keyboard => negb (isBorrowed st)
      | Pointer => false
      end
  | None => false
  end.
End Component.

End ItemContainer.

(** ** The layout engine contract

    The engine, the grid model and the path normaliser are exercised by the
    engine tests, but their implementation is not among the sources. Every
    definition of this module is modelled from the specification and checked
    against those tests. *)

Module Engine.

(** Modelled from the spec: the Position of the data model, an integer
    (column, row) pair; the geometry primitives' source is missing. *)
Record Position := { px : Z; py : Z }.

#[global] Instance Position_eq_dec : EqDecision Position.
Proof. solve_decision. Defined.

(** Modelled from the spec: the Rectangle of the data model (item identity,
    top-left position, width, height); the grid model's source is missing. *)
Record Rectangle := {
  rect_id : string;
  rect_x : Z;
  rect_y : Z;
  rect_width : Z;
  rect_height : Z;
}.

(** Modelled from the spec: the top-left position of a rectangle; the grid
    model's source is missing. *)
Definition position (r : Rectangle) : Position :=
  {| px := rect_x r; py := rect_y r |}.

(** Modelled from the spec: the Grid of the data model, rectangles plus the
    column count; the grid model's source is missing. *)
Record Grid := {
  rectangles : list Rectangle;
  grid_columns : Z;
}.

(** Modelled from the spec: the three causes of InvalidGrid (section 7); the
    grid model's source is missing. *)
Inductive InvalidGridCause := OutsideBoundaries | Overlap | InvalidGridSize.

(** Modelled from the spec: the error taxonomy of section 7; the engine's
    source is missing. *)
Inductive EngineError :=
| InvalidGrid (cause : InvalidGridCause)
| ItemNotFound (itemId : string)
| OutOfBounds
| InvalidSize
| InvalidResize.

(** Modelled from the spec: the boundary check of the missing grid model,
    "never negative, never exceeding columns". *)
Definition outside (columns : Z) (r : Rectangle) : bool :=
  bool_decide (rect_x r < 0 ∨ rect_y r < 0 ∨ columns < rect_x r + rect_width r).

(** Modelled from the spec: the overlap test of the missing grid model, two
    rectangles overlap when they share a cell. *)
Definition share_cell (a b : Rectangle) : bool :=
  bool_decide
    (rect_x a `max` rect_x b < (rect_x a + rect_width a) `min` (rect_x b + rect_width b)
     ∧ rect_y a `max` rect_y b < (rect_y a + rect_height a) `min` (rect_y b + rect_height b)).

(** Modelled from the spec: the overlap check of the missing grid model over
    all pairs of rectangles. *)
Fixpoint overlapping (rs : list Rectangle) : bool :=
  match rs with
  | [] => false
  | r :: rest => existsb (share_cell r) rest || overlapping rest
  end.

(** Modelled from the spec: the size check of the missing grid model, width
    and height are positive. *)
Definition non_positive (r : Rectangle) : bool :=
  bool_decide (rect_width r < 1 ∨ rect_height r < 1).

(** Modelled from the spec: [construct(rectangles, columns)] of the grid
    model, whose source is missing. The three causes are checked in the
    stated priority order and nothing is built unless all checks pass. *)
Definition construct (rs : list Rectangle) (columns : Z) : EngineError + Grid :=
  if existsb (outside columns) rs then inl (InvalidGrid OutsideBoundaries)
  else if overlapping rs then inl (InvalidGrid Overlap)
  else if existsb non_positive rs then inl (InvalidGrid InvalidGridSize)
  else inr {| rectangles := rs; grid_columns := columns |}.

(** Modelled from the spec: [rectOf(itemId)] of the missing grid model; no
    result stands for ItemNotFound. *)
Definition rectOf (g : Grid) (itemId : string) : option Rectangle :=
  list_find (λ r, rect_id r = itemId) (rectangles g) ≫= λ p, Some p.2.

(** *** Path normaliser *)

(** Modelled from the spec: the index of a position in the accepted prefix
    of the missing path normaliser. *)
Definition indexOf (p : Position) (path : list Position) : option nat :=
  fst <$> list_find (λ q, q = p) path.

(** Modelled from the spec: one waypoint of the path normaliser, whose
    source is missing. A return to the start empties the accepted prefix; a
    revisit of an accepted position cuts the prefix back to it (which also
    collapses consecutive duplicates); anything else is appended. *)
Definition accept (start : Position) (accepted : list Position) (p : Position)
    : list Position :=
  if bool_decide (p = start) then []
  else match indexOf p accepted with
       | Some i => take (S i) accepted
       | None => accepted ++ [p]
       end.

(** Modelled from the spec: the loop-free waypoints of a path, for the
    missing path normaliser. *)
Definition spliceLoops (start : Position) (path : list Position) : list Position :=
  foldl (accept start) [] path.

(** Modelled from the spec: the integers strictly after [a] up to [b],
    walking towards [b], for the gap filling of the missing path normaliser. *)
Definition towards (a b : Z) : list Z :=
  if bool_decide (a ≤ b) then seqZ (a + 1) (b - a)
  else reverse (seqZ b (a - b)).

(** Modelled from the spec: gap filling of the path normaliser, whose source
    is missing; the L-shaped route goes along the row first, as in the
    missing-steps test. *)
Definition fillGap (from to : Position) : list Position :=
  ((λ c, {| px := c; py := py from |}) <$> towards (px from) (px to))
  ++ ((λ r, {| px := px to; py := r |}) <$> towards (py from) (py to)).

(** Modelled from the spec: gap filling along a whole path, for the missing
    path normaliser. *)
Fixpoint fillGaps (from : Position) (path : list Position) : list Position :=
  match path with
  | [] => []
  | p :: rest => fillGap from p ++ fillGaps p rest
  end.

(** Modelled from the spec: the path normaliser (section 4.3), whose source
    is missing. *)
Definition normalizePath (start : Position) (path : list Position) : list Position :=
  fillGaps start (spliceLoops start path).

(** *** Operations *)

(** Modelled from the spec: the two kinds of LayoutShift entries; the
    engine's source is missing. *)
Inductive OperationType := MOVE | RESIZE.

(** Modelled from the spec: one entry of a LayoutShift; the engine's source
    is missing. *)
Record Operation := {
  op_type : OperationType;
  op_itemId : string;
  op_x : Z;
  op_y : Z;
  op_width : Z;
  op_height : Z;
}.

(** Modelled from the spec: the engine, whose source is missing: the
    committed snapshot and the shift of the latest call. *)
Record LayoutEngine := {
  snapshot : Grid;
  layoutShift : list Operation;
}.

(** Modelled from the spec: engine construction [new(grid)], whose source is
    missing. *)
Definition new (rs : list Rectangle) (columns : Z) : EngineError + LayoutEngine :=
  match construct rs columns with
  | inl e => inl e
  | inr g => inr {| snapshot := g; layoutShift := [] |}
  end.

(** Modelled from the spec: the argument of [move] and [resize], as the
    engine tests pass it; the engine's source is missing. *)
Record Command := { itemId : string; path : list Position }.

Section Operations.
(** The displacement algorithm is described only in outline; one unit step
    of it is a parameter. It receives the grid and shift built so far, the
    item and the step's target, and returns [None] when the step is
    rejected. *)
Variable moveStep resizeStep :
  Grid → list Operation → string → Position → option (Grid * list Operation).

(** Modelled from the spec: the replay of the normalised steps by the
    missing engine. Steps are taken one at a time; a rejected step drops
    itself and every later step, keeping the effects of the earlier ones. *)
Fixpoint replay
    (step : Grid → list Operation → string → Position → option (Grid * list Operation))
    (g : Grid) (shift : list Operation) (itemId : string) (steps : list Position)
    : Grid * list Operation :=
  match steps with
  | [] => (g, shift)
  | p :: rest =>
      match step g shift itemId p with
      | None => (g, shift)
      | Some (g', shift') => replay step g' shift' itemId rest
      end
  end.

(** Modelled from the spec: the bounds check of [move] in the missing
    engine, applied to the target of a step. *)
Definition moveOutside (g : Grid) (r : Rectangle) (p : Position) : bool :=
  bool_decide (px p < 0 ∨ py p < 0 ∨ grid_columns g < px p + rect_width r).

(** Modelled from the spec: [move(itemId, path)] (section 4.4), whose
    source is missing. *)
Definition move (cmd : Command) (e : LayoutEngine) : EngineError + LayoutEngine :=
  match rectOf (snapshot e) (itemId cmd) with
  | None => inl (ItemNotFound (itemId cmd))
  | Some r =>
      let steps := normalizePath (position r) (path cmd) in
      if existsb (moveOutside (snapshot e) r) steps then inl OutOfBounds
      else
        let '(g, shift) := replay moveStep (snapshot e) [] (itemId cmd) steps in
        inr {| snapshot := g; layoutShift := shift |}
  end.

(** Modelled from the spec: the start of a resize path in the missing
    engine; as in the resize tests, the path follows the bottom-right corner
    of the item. *)
Definition corner (r : Rectangle) : Position :=
  {| px := rect_x r + rect_width r; py := rect_y r + rect_height r |}.

(** Modelled from the spec: the step leaves the item without width or
    without height; the engine's source is missing. *)
Definition resizeToZero (r : Rectangle) (p : Position) : bool :=
  bool_decide (px p - rect_x r < 1 ∨ py p - rect_y r < 1).

(** Modelled from the spec: the bounds check of [resize] in the missing
    engine. *)
Definition resizeOutside (g : Grid) (p : Position) : bool :=
  bool_decide (grid_columns g < px p).

(** Modelled from the spec: [resize(itemId, path)] (section 4.4), whose
    source is missing. Shrinking to zero is reported whenever it occurs
    (section 8 states it without condition), so it is checked before the
    bounds. *)
Definition resize (cmd : Command) (e : LayoutEngine) : EngineError + LayoutEngine :=
  match rectOf (snapshot e) (itemId cmd) with
  | None => inl (ItemNotFound (itemId cmd))
  | Some r =>
      let steps := normalizePath (corner r) (path cmd) in
      if existsb (resizeToZero r) steps then inl InvalidResize
      else if existsb (resizeOutside (snapshot e)) steps then inl OutOfBounds
      else
        let '(g, shift) := replay resizeStep (snapshot e) [] (itemId cmd) steps in
        inr {| snapshot := g; layoutShift := shift |}
  end.

(** Modelled from the spec: error handling of an engine call (section 7),
    whose source is missing: a rejected operation reports its error and
    leaves the engine as it was. *)
Definition call (op : LayoutEngine → EngineError + LayoutEngine) (e : LayoutEngine)
    : LayoutEngine * option EngineError :=
  match op e with
  | inl err => (e, Some err)
  | inr e' => (e', None)
  end.
End Operations.

(** *** Invariants of the grid, stated on cells *)

(** The cell belongs to the rectangle. *)
Definition covers_cell (r : Rectangle) (c : Position) : Prop :=
  rect_x r ≤ px c < rect_x r + rect_width r
  ∧ rect_y r ≤ py c < rect_y r + rect_height r.

(** The rectangle starts at a negative coordinate or passes the last column. *)
Definition is_outside (columns : Z) (r : Rectangle) : Prop :=
  rect_x r < 0 ∨ rect_y r < 0 ∨ columns < rect_x r + rect_width r.

(** Two different entries of the list have a cell in common. *)
Definition some_overlap (rs : list Rectangle) : Prop :=
  ∃ i j a b c, (i < j)%nat ∧ rs !! i = Some a ∧ rs !! j = Some b
               ∧ covers_cell a c ∧ covers_cell b c.

(** The rectangle has no width or no height. *)
Definition is_non_positive (r : Rectangle) : Prop :=
  rect_width r < 1 ∨ rect_height r < 1.

End Engine.

(** ** Vocabulary of the statements *)

(** The item carries no explicit columnSpan, columnOffset or rowSpan hints. *)
Definition hintFree (item : Item) : Prop :=
  columnOffset item = None ∧ columnSpan item = None ∧ rowSpan item = None.

(** The cell in column [col] and row [row] belongs to the layout item. *)
Definition covers (col row : Z) (it : GridLayoutItem) : Prop :=
  match y it with
  | Num top => x it ≤ col < x it + width it ∧ top ≤ row < top + height it
  | NaN => False
  end.

#[global] Instance covers_dec col row it : Decision (covers col row it).
Proof. unfold covers. destruct (y it); apply _. Defined.

(** [y + height] *)
Definition bottom (it : GridLayoutItem) : number := number_add (y it) (height it).

(** The largest [y + height] of a layout, 0 for the empty one. *)
Definition maxBottom (l : list GridLayoutItem) : number :=
  foldr (λ it acc, math_max acc (Some (bottom it))) (Num 0) l.

(** The rectangle of an item is a proper rectangle inside the [columns]. *)
Definition withinColumns (columns : Z) (it : GridLayoutItem) : Prop :=
  ∃ top, y it = Num top ∧ 0 ≤ top ∧ 0 ≤ x it ∧ x it + width it ≤ columns
         ∧ 0 < width it ∧ 0 < height it.

(** No two entries of the layout have a cell in common. *)
Definition noSharedCell (l : list GridLayoutItem) : Prop :=
  ∀ i j a b col row, i ≠ j → l !! i = Some a → l !! j = Some b →
    ¬ (covers col row a ∧ covers col row b).

(** The content of the hint object an item refers to; no object, no entries. *)
Definition settingOf (σ : Store) (setting : option loc) : BoardItemLayoutSetting :=
  default ∅ (setting ≫= (σ !!.)).

(** All hint objects of an item. *)
Definition hintLocs (item : Item) : list loc :=
  option_list (columnOffset item) ++ option_list (columnSpan item)
  ++ option_list (rowSpan item).

(** Every hint object the items refer to is in the store. *)
Definition allocated (σ : Store) (sourceItems : list Item) : Prop :=
  ∀ item l, item ∈ sourceItems → l ∈ hintLocs item → l ∈ dom σ.

(** No hint object is referred to twice, be it by two items or by two
    properties of one item. *)
Definition unshared (sourceItems : list Item) : Prop :=
  NoDup (sourceItems ≫= hintLocs).

Section OffsetSearch.
Context (columns : Z) (columnHeights : gmap Z number) (columnSpan rowSpan : Z).

(** The offset is admissible: the item stays left of the right edge and its
    lower edge does not pass the tallest column. *)
Definition fitsAt (c : Z) : Prop :=
  c + columnSpan ≤ columns ∧ fits columns columnHeights columnSpan rowSpan c = true.

Definition leftmostFrom (from c : Z) : Prop :=
  from ≤ c ∧ fitsAt c ∧ ∀ c', from ≤ c' < c → ¬ fitsAt c'.

(** What [findOptimalColumnOffset] chooses for the cursor [from]. *)
Definition chosenOffset (from c : Z) : Prop :=
  leftmostFrom from c
  ∨ ((∀ c', from ≤ c' → ¬ fitsAt c') ∧ leftmostFrom 0 c)
  ∨ ((∀ c', from ≤ c' → ¬ fitsAt c') ∧ (∀ c', 0 ≤ c' → ¬ fitsAt c')
     ∧ c = if bool_decide (from + columnSpan ≤ columns) then from else 0).

(** The test as the specification words it: the resulting row alone is
    compared with the tallest column. *)
Definition fitsAsWorded (colOffset : Z) : bool :=
  number_le (getRowOffset columnHeights colOffset columnSpan)
            (getRowOffset columnHeights 0 columns).

(** The offset search as the specification words it. *)
Definition offsetAsWorded (currentColumnOffset : Z) : Z :=
  match scan columns fitsAsWorded currentColumnOffset columnSpan with
  | Some colOffset => colOffset
  | None =>
      match scan columns fitsAsWorded 0 columnSpan with
      | Some colOffset => colOffset
      | None =>
          if bool_decide (currentColumnOffset + columnSpan ≤ columns)
          then currentColumnOffset else 0
      end
  end.
End OffsetSearch.

(** *** The invariant of the packing loop *)

(** Every column of the board has a height, and it is a non-negative integer. *)
Definition heightsOk (ncols : Z) (hs : gmap Z number) : Prop :=
  ∀ c, 0 ≤ c < ncols → ∃ h, hs !! c = Some (Num h) ∧ 0 ≤ h.

(** The columns an item spans are at least as high as its lower edge. *)
Definition below (hs : gmap Z number) (it : GridLayoutItem) : Prop :=
  ∀ c, x it ≤ c < x it + width it →
    ∃ top h, y it = Num top ∧ hs !! c = Some (Num h) ∧ top + height it ≤ h.

Record packInvariant (ncols : Z) (st : PackState) : Prop := {
  inv_heights : heightsOk ncols (columnHeights st);
  inv_cursor : 0 ≤ cursor st;
  inv_within : Forall (withinColumns ncols) (layoutItems st);
  inv_below : Forall (below (columnHeights st)) (layoutItems st);
  inv_disjoint : noSharedCell (layoutItems st);
  inv_reached : ∀ c h, 0 ≤ c < ncols → columnHeights st !! c = Some (Num h) →
                  h = 0 ∨ ∃ it, it ∈ layoutItems st ∧ bottom it = Num h;
}.

(** The index from which [transformItems] drops the stored offsets: the first
    index at which the sorted layout and the source items disagree on the id,
    and the last index of the layout when they agree throughout. *)
Definition isChangeIndex (sourceItems : list Item) (sortedLayout : list GridLayoutItem)
    (changeFrom : Z) : Prop :=
  (∃ i s e, changeFrom = Z.of_nat i
            ∧ sourceItems !! i = Some s ∧ sortedLayout !! i = Some e
            ∧ id s ≠ item_id e
            ∧ ∀ j s' e', (j < i)%nat → sourceItems !! j = Some s' →
                sortedLayout !! j = Some e' → id s' = item_id e')
  ∨ ((∀ j s' e', sourceItems !! j = Some s' → sortedLayout !! j = Some e' →
        id s' = item_id e')
     ∧ changeFrom = Z.of_nat (length sortedLayout) - 1).

(** The hints of the returned items as the caller reads them after the call,
    one setting object per returned item. *)
Definition hintsAfter (name : SettingName) (σ : Store) (sourceItems : list Item)
    (gridLayout : GridLayout) : option (list BoardItemLayoutSetting) :=
  match transformItems σ sourceItems gridLayout with
  | Ok (σ', out) => Some ((λ o, settingOf σ' (getSetting name o)) <$> out)
  | Throw _ => None
  end.

(** Where the hint object of a returned item comes from: it is the source
    item's own object, or one that did not exist before. *)
Definition origin (τ : Store) (old : option loc) (l : loc) : Prop :=
  match old with Some l0 => l = l0 | None => l ∉ dom τ end.

(** *** Further vocabulary *)

(** The hints of an item keep it inside the board: its column span fits, and
    an explicit column offset leaves room for the span. *)
Definition hintsWithin `{Constants} (σ : Store) (ncols : Z) (item : Item) : Prop :=
  getColumnSpan σ ncols item ≤ ncols
  ∧ ∀ h, readSetting σ (columnOffset item) (Num ncols) = Some h →
      0 ≤ h ∧ h + getColumnSpan σ ncols item ≤ ncols.

(** [a] comes strictly before [b] in reading order: on a higher row, or on
    the same row further left. *)
Definition rowMajorBefore (a b : GridLayoutItem) : Prop :=
  match y a, y b with
  | Num ya, Num yb => ya < yb ∨ (ya = yb ∧ x a < x b)
  | _, _ => False
  end.

(** [a] comes before [b] in reading order, or at the same cell. *)
Definition rowMajorLe (a b : GridLayoutItem) : Prop :=
  match y a, y b with
  | Num ya, Num yb => ya < yb ∨ (ya = yb ∧ x a ≤ x b)
  | _, _ => False
  end.

#[global] Instance rowMajorBefore_dec a b : Decision (rowMajorBefore a b).
Proof. unfold rowMajorBefore. destruct (y a), (y b); apply _. Defined.

(** [sorted] is the layout [l] in strict reading order. There is at most one
    such arrangement, and every sort returns it, see [sort_readingOrder]. *)
Definition readingOrder (l sorted : list GridLayoutItem) : Prop :=
  sorted ≡ₚ l ∧ StronglySorted rowMajorBefore sorted.

(** The string has no minus sign. *)
Fixpoint dashFree (s : string) : Prop :=
  match s with
  | EmptyString => True
  | String a s' => a ≠ "-"%char ∧ dashFree s'
  end.

(** The transition an item container holds, if any, is about its own item,
    has a size, and has a position exactly when it is no resize. *)
Definition ownTransition (item : Item) (st : ItemContainer.State) : Prop :=
  ∀ t, ItemContainer.transition st = Some t →
       ItemContainer.itemId t = id item
       ∧ is_Some (ItemContainer.sizeTransform t)
       ∧ (ItemContainer.operation t = ItemContainer.Resize
          ↔ ItemContainer.positionTransform t = None).

(** ** Sample data *)

(** The constants used in the examples: items are at least one column wide
    and two rows high. *)
Definition exampleConstants : Constants := {| MIN_COL_SPAN := 1; MIN_ROW_SPAN := 2 |}.

(** An item without hints whose definition asks for the given default spans. *)
Definition plainItem (name : string) (colSpan rowSpan : Z) : Item :=
  {| id := name;
     definition := Some {| minRowSpan := None; minColumnSpan := None;
                           defaultRowSpan := Some rowSpan;
                           defaultColumnSpan := Some {[ Num 0 := colSpan ]} |};
     columnOffset := None; columnSpan := None; rowSpan := None |}.

(** An item with no definition and the given hint objects. *)
Definition hintedItem (name : string) (offset span rspan : option loc) : Item :=
  {| id := name; definition := None;
     columnOffset := offset; columnSpan := span; rowSpan := rspan |}.

Definition cell (name : string) (col row w h : Z) : GridLayoutItem :=
  {| item_id := name; x := col; y := Num row; width := w; height := h |}.

(** A store with one hint object for each of the slots 1 to 4. *)
Definition sampleStore : Store :=
  {[ 1%positive := {[ Num 3 := 5 ]};
     2%positive := {[ Num 2 := 7 ]};
     3%positive := {[ Num 2 := 9 ]};
     4%positive := {[ Num 2 := 1 ]} ]}.

(** The 2 x 2 grid covered by the single item A of the resize tests. *)
Definition gridA : Engine.Grid :=
  {| Engine.rectangles :=
       [{| Engine.rect_id := "A"; Engine.rect_x := 0; Engine.rect_y := 0;
           Engine.rect_width := 2; Engine.rect_height := 2 |}];
     Engine.grid_columns := 2 |}.

Definition engineA : Engine.LayoutEngine :=
  {| Engine.snapshot := gridA; Engine.layoutShift := [] |}.

(** A unit step that rejects everything. *)
Definition rejectStep (g : Engine.Grid) (shift : list Engine.Operation)
    (itemId : string) (p : Engine.Position)
    : option (Engine.Grid * list Engine.Operation) := None.

(** Three items for a 3-column board: a tall one, a wide one, a small one. *)
Definition tallWideSmall : list Item :=
  [plainItem "a" 1 4; plainItem "b" 2 2; plainItem "c" 1 2].

(** A hint-free item whose definition asks for at least five columns. *)
Definition wideItem : Item :=
  {| id := "w";
     definition := Some {| minRowSpan := None;
                           minColumnSpan := Some {[ Num 1 := 5 ]};
                           defaultRowSpan := None; defaultColumnSpan := None |};
     columnOffset := None; columnSpan := None; rowSpan := None |}.

(** The entry [wideItem] gets on a 3-column board. *)
Definition wideCell : GridLayoutItem :=
  {| item_id := "w"; x := 0; y := NaN; width := 5; height := 2 |}.

(** Two items with stored offsets for the 2-column board, and a 3-column
    grid that shows them side by side in their own order. *)
Definition twoPinned : list Item :=
  [hintedItem "a" (Some 2%positive) None None;
   hintedItem "b" (Some 3%positive) None None].

Definition twoAcross : GridLayout :=
  {| items := [cell "a" 0 0 1 2; cell "b" 1 0 1 2]; columns := 3; rows := Num 2 |}.

(** As [twoPinned], but the first item uses one object both as its
    columnOffset and as its rowSpan. *)
Definition sharedOffsetObject : list Item :=
  [hintedItem "a" (Some 2%positive) None (Some 2%positive);
   hintedItem "b" (Some 3%positive) None None].

(** Two items whose columnSpan is one and the same object, and a grid that
    gives them different widths. *)
Definition sharedSpanObject : list Item :=
  [hintedItem "a" None (Some 1%positive) None;
   hintedItem "b" None (Some 1%positive) None].

Definition twoWidths : GridLayout :=
  {| items := [cell "a" 0 0 1 2; cell "b" 1 0 2 2]; columns := 3; rows := Num 2 |}.

(** One item with a stored offset and a stored rowSpan for the 2-column
    board, alone on a 3-column grid of two rows. *)
Definition onePinned : list Item :=
  [hintedItem "a" (Some 2%positive) None (Some 4%positive)].

Definition oneCell : GridLayout :=
  {| items := [cell "a" 0 0 1 2]; columns := 3; rows := Num 2 |}.

(** The grids of the engine's constructor tests. *)
Definition rect (name : string) (col row w h : Z) : Engine.Rectangle :=
  {| Engine.rect_id := name; Engine.rect_x := col; Engine.rect_y := row;
     Engine.rect_width := w; Engine.rect_height := h |}.

Definition testRectangles : list Engine.Rectangle :=
  [rect "A" 0 0 1 1; rect "B" 1 0 1 1; rect "C" 2 0 1 1;
   rect "D" 0 1 1 1; rect "F" 2 1 1 1;
   rect "G" 0 2 1 1; rect "E" 1 2 2 1].

Definition at_ (col row : Z) : Engine.Position :=
  {| Engine.px := col; Engine.py := row |}.

(** A store with an offset for the 3-column board, and two items of which
    the second is pinned to column 2 by it. *)
Definition pinStore : Store := {[ 1%positive := {[ Num 3 := 2 ]} ]}.

Definition tallAndPinned : list Item :=
  [plainItem "a" 1 4; hintedItem "p" (Some 1%positive) None None].

(** A grid that shows the item of [onePinned] in column 1 of three. *)
Definition moved : GridLayout :=
  {| items := [cell "a" 1 0 2 2]; columns := 3; rows := Num 2 |}.

(** A resize of [plainItem "a" 1 1] whose collision rectangle is 300 by 200
    pixels, over a drop target of cells 100 by 50 pixels. *)
Definition cellScale (sz : ItemContainer.Size) : ItemContainer.Size :=
  {| ItemContainer.size_width := 100 * ItemContainer.size_width sz;
     ItemContainer.size_height := 50 * ItemContainer.size_height sz |}.

Definition resizeOfA : ItemContainer.DragAndDropData :=
  {| ItemContainer.dnd_operation := ItemContainer.Resize;
     ItemContainer.dnd_interactionType := ItemContainer.Pointer;
     ItemContainer.draggableItem := plainItem "a" 1 1;
     ItemContainer.collisionRect :=
       {| ItemContainer.left := 0; ItemContainer.right := 300;
          ItemContainer.top := 0; ItemContainer.bottom := 200 |};
     ItemContainer.coordinates := {| ItemContainer.cx := 300; ItemContainer.cy := 200 |};
     ItemContainer.dropTarget := Some cellScale |}.

Definition unitSize : ItemContainer.Size :=
  {| ItemContainer.size_width := 1; ItemContainer.size_height := 1 |}.

Definition twoByTwo : ItemContainer.Size :=
  {| ItemContainer.size_width := 2; ItemContainer.size_height := 2 |}.

(** The pointer lands on the resize handle of the item, ten pixels left of
    and five above its lower right corner, and the resize starts. *)
Definition resizeByPointer : list ItemContainer.Event :=
  [ItemContainer.ResizeHandlePointerDown 290 195
     {| ItemContainer.left := 0; ItemContainer.right := 300;
        ItemContainer.top := 0; ItemContainer.bottom := 200 |};
   ItemContainer.DragStart resizeOfA].

(** * Properties *)

(** ** Generic list facts *)

Lemma bind_single {A B : Type} (f : A → list B) (k : A) (l : list A) :
  NoDup l → k ∈ l → (∀ i, i ∈ l → i ≠ k → f i = []) → l ≫= f = f k.
Proof.
  induction l as [|a l IH]; intros Hnd Hin Hother.
  - by apply elem_of_nil in Hin.
  - apply NoDup_cons in Hnd as [Hnotin Hnd]. rewrite bind_cons.
    apply elem_of_cons in Hin as [->|Hin].
    + assert (l ≫= f = []) as ->; [|by rewrite app_nil_r].
      clear IH Hnd. induction l as [|b l IHl]; [done|].
      rewrite bind_cons, (Hother b), IHl; [done| | | |].
      * intros Ha. apply Hnotin; by right.
      * intros i Hi. apply Hother. apply elem_of_cons in Hi as [->|Hi];
          [by left|right; by right].
      * right; by left.
      * intros ->. apply Hnotin; by left.
    + rewrite (Hother a); [|by left|by intros ->].
      apply IH; [done|done|]. intros i Hi. apply Hother. by right.
Qed.

Lemma filter_bind {A B : Type} (P : B → Prop) `{!∀ b, Decision (P b)}
    (f : A → list B) (l : list A) :
  filter P (l ≫= f) = l ≫= (λ a, filter P (f a)).
Proof.
  induction l as [|a l IH]; [done|].
  by rewrite !bind_cons, filter_app, IH.
Qed.

Lemma length_bind_const {A B : Type} (f : A → list B) (n : nat) (l : list A) :
  (∀ a, a ∈ l → length (f a) = n) → length (l ≫= f) = (length l * n)%nat.
Proof.
  induction l as [|a l IH]; intros Hlen; [done|].
  rewrite bind_cons, length_app, Hlen, IH; [simpl; lia| |by left].
  intros b Hb. apply Hlen. by right.
Qed.

(** ** createPlaceholdersLayout *)

Lemma placeholders_filter (rows columns col row : Z) :
  0 ≤ col < columns → 0 ≤ row < rows →
  filter (covers col row) (items (createPlaceholdersLayout rows columns))
  = [cell (placeholderId row col) col row 1 1].
Proof.
  intros Hcol Hrow. unfold createPlaceholdersLayout; simpl.
  rewrite filter_bind.
  rewrite (bind_single _ row).
  - rewrite filter_bind. rewrite (bind_single _ col).
    + rewrite filter_cons_True; [done|]. unfold covers; simpl. lia.
    + apply NoDup_seqZ.
    + apply elem_of_seqZ. lia.
    + intros c _ Hne. rewrite filter_cons_False; [done|].
      unfold covers; simpl. lia.
  - apply NoDup_seqZ.
  - apply elem_of_seqZ. lia.
  - intros r _ Hne. rewrite filter_bind.
    induction (seqZ 0 columns) as [|c l IH]; [done|].
    rewrite bind_cons, IH, app_nil_r. rewrite filter_cons_False; [done|].
    unfold covers; simpl. lia.
Qed.

(** C10: for non-negative [rows] and [columns], createPlaceholdersLayout
    returns [rows * columns] items, each of width 1 and height 1; every cell
    [(col, row)] with [0 <= col < columns] and [0 <= row < rows] is covered by
    exactly one item; the [columns] and [rows] fields are the arguments. *)
Theorem createPlaceholdersLayout_spec (nrows ncols : Z) :
  0 ≤ nrows → 0 ≤ ncols →
  let layout := createPlaceholdersLayout nrows ncols in
  Z.of_nat (length (items layout)) = nrows * ncols
  ∧ Forall (λ it, width it = 1 ∧ height it = 1) (items layout)
  ∧ (∀ col row, 0 ≤ col < ncols → 0 ≤ row < nrows →
       length (filter (covers col row) (items layout)) = 1%nat)
  ∧ columns layout = ncols
  ∧ rows layout = Num nrows.
Proof.
  intros Hrows Hcols layout. repeat split.
  - unfold layout, createPlaceholdersLayout; simpl.
    rewrite (length_bind_const _ (Z.to_nat ncols)).
    + rewrite length_seqZ. nia.
    + intros r _. rewrite (length_bind_const _ 1%nat); [|done].
      rewrite length_seqZ. lia.
  - unfold layout, createPlaceholdersLayout; simpl.
    apply Forall_forall. intros it Hit.
    apply list_elem_of_bind in Hit as (r & Hit & _).
    apply list_elem_of_bind in Hit as (c & Hit & _).
    apply list_elem_of_singleton in Hit as ->. done.
  - intros col row Hcol Hrow. unfold layout.
    by rewrite placeholders_filter.
Qed.

Lemma createPlaceholdersLayout_spec_witness :
  let layout := createPlaceholdersLayout 2 3 in
  Z.of_nat (length (items layout)) = 2 * 3
  ∧ Forall (λ it, width it = 1 ∧ height it = 1) (items layout)
  ∧ (∀ col row, 0 ≤ col < 3 → 0 ≤ row < 2 →
       length (filter (covers col row) (items layout)) = 1%nat)
  ∧ columns layout = 3
  ∧ rows layout = Num 2.
Proof. apply (createPlaceholdersLayout_spec 2 3); lia. Defined.

(** ** The column span *)

Lemma getColumnSpan_unhinted `{Constants} (σ : Store) (ncols : Z) (item : Item) :
  readSetting σ (columnSpan item) (Num ncols) = None →
  getColumnSpan σ ncols item
  = getItemMinColumnSpan item ncols `max`
      (ncols `min`
         getColumnSpanForColumns (d ← definition item; defaultColumnSpan d) ncols).
Proof.
  intros Hnone. unfold getColumnSpan. rewrite Hnone. simpl.
  unfold getItemDefaultColumnSpan. lia.
Qed.

(** C2, as the code has it: the column span is the maximum of the minimum
    span and the hinted-or-default span. Only the default span is clamped to
    the column count: an explicit hint is taken as it is, and without a hint
    the span is [max minSpan (min columns defaultSetting)], which stays within
    the column count whenever the minimum span does. *)
Theorem getColumnSpan_spec `{Constants} (σ : Store) (ncols : Z) (item : Item) :
  let minSpan := getItemMinColumnSpan item ncols in
  let defaultSetting :=
    getColumnSpanForColumns (d ← definition item; defaultColumnSpan d) ncols in
  let hint := readSetting σ (columnSpan item) (Num ncols) in
  getColumnSpan σ ncols item
  = minSpan `max` default (getItemDefaultColumnSpan item ncols) hint
  ∧ (∀ h, hint = Some h → getColumnSpan σ ncols item = minSpan `max` h)
  ∧ (hint = None →
       getColumnSpan σ ncols item = minSpan `max` (ncols `min` defaultSetting)
       ∧ (minSpan ≤ ncols → getColumnSpan σ ncols item ≤ ncols)).
Proof.
  intros minSpan defaultSetting hint. split; [done|]. split.
  - intros h Hh. unfold getColumnSpan. fold hint. by rewrite Hh.
  - intros Hnone. rewrite (getColumnSpan_unhinted σ ncols item Hnone).
    fold minSpan defaultSetting. split; [done|lia].
Qed.

Lemma getColumnSpan_spec_witness :
  getColumnSpan (H := exampleConstants) ∅ 3 (plainItem "a" 7 2) = 3
  ∧ getColumnSpan (H := exampleConstants) sampleStore 3 (hintedItem "a" None (Some 1%positive) None) = 5.
Proof.
  pose proof (getColumnSpan_spec (H := exampleConstants) ∅ 3 (plainItem "a" 7 2))
    as (_ & _ & Hdefault).
  pose proof (getColumnSpan_spec (H := exampleConstants) sampleStore 3
                (hintedItem "a" None (Some 1%positive) None)) as (_ & Hhint & _).
  split.
  - destruct Hdefault as [-> _]; [reflexivity|]. vm_compute. reflexivity.
  - rewrite (Hhint 5); [vm_compute; reflexivity|]. vm_compute. reflexivity.
Defined.

(** C2 as stated fails: an explicit columnSpan hint of 5 on a 3-column board
    gives a span of 5, which interpretItems uses as the item's width. *)
Lemma columnSpan_hint_exceeds_columns :
  ¬ (getColumnSpan (H := exampleConstants) sampleStore 3
       (hintedItem "a" None (Some 1%positive) None) ≤ 3)
  ∧ interpretItems (H := exampleConstants) sampleStore
      [hintedItem "a" None (Some 1%positive) None] 3
    = Ok {| items := [{| item_id := "a"; x := 0; y := NaN; width := 5; height := 2 |}];
            columns := 3; rows := NaN |}.
Proof. split; [vm_compute; intros Hle; by apply Hle|vm_compute; reflexivity]. Qed.

(** ** The layout engine contract *)

Import Engine.

Lemma existsb_elem_of {A : Type} (f : A → bool) (l : list A) :
  existsb f l = true ↔ ∃ a, a ∈ l ∧ f a = true.
Proof.
  rewrite existsb_exists. split; intros (a & Ha & Hf); exists a; split; try done.
  - by apply list_elem_of_In.
  - by apply list_elem_of_In.
Qed.

Lemma share_cell_spec (a b : Rectangle) :
  share_cell a b = true ↔ ∃ c, covers_cell a c ∧ covers_cell b c.
Proof.
  unfold share_cell, covers_cell. rewrite bool_decide_eq_true. split.
  - intros [Hx Hy].
    exists {| px := rect_x a `max` rect_x b; py := rect_y a `max` rect_y b |}.
    simpl. lia.
  - intros ([cx cy] & Ha & Hb). simpl in *. lia.
Qed.

Lemma overlapping_spec (rs : list Rectangle) :
  overlapping rs = true ↔ some_overlap rs.
Proof.
  induction rs as [|r rs IH]; simpl.
  - split; [done|]. by intros (i & j & a & b & c & _ & Hi & _).
  - rewrite orb_true_iff, IH, existsb_elem_of. split.
    + intros [(b & Hb & Hshare)|(i & j & a & b & c & Hij & Hi & Hj & Ha & Hb)].
      * apply share_cell_spec in Hshare as (c & Hr & Hbc).
        apply list_elem_of_lookup in Hb as [j Hj].
        exists 0%nat, (S j), r, b, c. split_and!; try done; lia.
      * exists (S i), (S j), a, b, c. split_and!; try done; lia.
    + intros (i & j & a & b & c & Hij & Hi & Hj & Ha & Hb).
      destruct j as [|j]; [lia|]. simpl in Hj. destruct i as [|i].
      * left. simpl in Hi. injection Hi as ->. exists b. split.
        -- apply list_elem_of_lookup. by exists j.
        -- apply share_cell_spec. by exists c.
      * right. exists i, j, a, b, c. split_and!; try done; lia.
Qed.

Lemma outside_spec (ncols : Z) (rs : list Rectangle) :
  existsb (outside ncols) rs = true ↔ ∃ r, r ∈ rs ∧ is_outside ncols r.
Proof.
  rewrite existsb_elem_of. unfold outside, is_outside.
  split; intros (r & Hr & Hout); exists r; split; try done.
  - by apply bool_decide_eq_true in Hout.
  - by apply bool_decide_eq_true.
Qed.

Lemma non_positive_spec (rs : list Rectangle) :
  existsb non_positive rs = true ↔ ∃ r, r ∈ rs ∧ is_non_positive r.
Proof.
  rewrite existsb_elem_of. unfold non_positive, is_non_positive.
  split; intros (r & Hr & Hout); exists r; split; try done.
  - by apply bool_decide_eq_true in Hout.
  - by apply bool_decide_eq_true.
Qed.

(** The cases of the engine tests, replayed on the model. *)

Example test_invalid_grid :
  new (testRectangles ++ [rect "X" 3 1 1 1]) 3 = inl (InvalidGrid OutsideBoundaries)
  ∧ new (testRectangles ++ [rect "X" 2 1 1 1]) 3 = inl (InvalidGrid Overlap)
  ∧ new (rect "A" 0 0 0 1 :: drop 1 testRectangles) 3
    = inl (InvalidGrid InvalidGridSize).
Proof. vm_compute. split_and!; reflexivity. Qed.

Example test_invalid_resize :
  resize rejectStep {| itemId := "A"; path := [at_ 1 2; at_ 0 2] |} engineA
  = inl InvalidResize
  ∧ resize rejectStep {| itemId := "A"; path := [at_ 2 1; at_ 2 0] |} engineA
    = inl InvalidResize
  ∧ resize rejectStep {| itemId := "A"; path := [at_ 3 2] |} engineA
    = inl OutOfBounds
  ∧ resize rejectStep {| itemId := "X"; path := [at_ 1 1] |} engineA
    = inl (ItemNotFound "X").
Proof. vm_compute. split_and!; reflexivity. Qed.

Example test_normalize_path :
  normalizePath (at_ 0 0) [at_ 1 0; at_ 1 1; at_ 0 1; at_ 0 0] = []
  ∧ normalizePath (at_ 0 0) [at_ 1 0; at_ 1 1; at_ 2 1; at_ 2 0; at_ 1 0] = [at_ 1 0]
  ∧ normalizePath (at_ 1 0) [at_ 1 1; at_ 1 2; at_ 1 1; at_ 1 2; at_ 1 3]
    = [at_ 1 1; at_ 1 2; at_ 1 3]
  ∧ normalizePath (at_ 0 0) [at_ 1 1] = [at_ 1 0; at_ 1 1].
Proof. vm_compute. split_and!; reflexivity. Qed.

(** C6: constructing the engine from rectangles and a column count fails with
    InvalidGrid for exactly three causes, checked in the order boundaries,
    overlap, size, the first violated check being the one reported; it
    succeeds only when no invariant is violated, and then holds exactly the
    given rectangles. *)
Theorem new_spec (rs : list Rectangle) (ncols : Z) :
  let outsideSome := ∃ r, r ∈ rs ∧ is_outside ncols r in
  let sizeSome := ∃ r, r ∈ rs ∧ is_non_positive r in
  (new rs ncols = inl (InvalidGrid OutsideBoundaries) ↔ outsideSome)
  ∧ (new rs ncols = inl (InvalidGrid Overlap) ↔ ¬ outsideSome ∧ some_overlap rs)
  ∧ (new rs ncols = inl (InvalidGrid InvalidGridSize)
     ↔ ¬ outsideSome ∧ ¬ some_overlap rs ∧ sizeSome)
  ∧ (∀ e, new rs ncols = inr e
          ↔ ¬ outsideSome ∧ ¬ some_overlap rs ∧ ¬ sizeSome
            ∧ e = {| snapshot := {| rectangles := rs; grid_columns := ncols |};
                     layoutShift := [] |})
  ∧ (∀ err, new rs ncols = inl err → ∃ cause, err = InvalidGrid cause).
Proof.
  intros outsideSome sizeSome.
  pose proof (outside_spec ncols rs) as Hout.
  pose proof (overlapping_spec rs) as Hov.
  pose proof (non_positive_spec rs) as Hsz.
  fold outsideSome in Hout. fold sizeSome in Hsz.
  unfold new, construct.
  destruct (existsb (outside ncols) rs) eqn:E1;
    [|destruct (overlapping rs) eqn:E2;
      [|destruct (existsb non_positive rs) eqn:E3]].
  all: assert (∀ b P, (b = true ↔ P) → b = false → ¬ P) as Hneg
    by (intros b P Hiff -> HP; by apply Hiff in HP).
  all: repeat split; try (intros e); try split; try done.
  all: try (intros; by eauto).
  all: try (intros; exfalso; intuition congruence).
  all: try (intros; repeat split; intuition eauto; congruence).
  all: intros [= <-]; by eexists.
Qed.

Lemma new_spec_witness :
  new (testRectangles ++ [rect "X" 3 1 1 1]) 3 = inl (InvalidGrid OutsideBoundaries).
Proof.
  apply (new_spec (testRectangles ++ [rect "X" 3 1 1 1]) 3).
  exists (rect "X" 3 1 1 1). split.
  - apply elem_of_app. right. by left.
  - right. right. simpl. lia.
Defined.



Lemma spliceLoops_back_to_start (start : Position) (waypoints : list Position) :
  last waypoints = Some start → spliceLoops start waypoints = [].
Proof.
  intros Hlast. destruct (last_Some waypoints start) as [[front ->] _]; [done|].
  unfold spliceLoops. rewrite foldl_app. simpl. unfold accept.
  by rewrite bool_decide_eq_true_2.
Qed.

(** C8: a move whose path ends on the position the item starts from is a
    no-op: the layout shift has no entries and the grid is unchanged. *)
Theorem move_back_to_start_noop
    (moveStep : Grid → list Operation → string → Position
                → option (Grid * list Operation))
    (e : LayoutEngine) (cmd : Command) (r : Rectangle) :
  rectOf (snapshot e) (itemId cmd) = Some r →
  last (path cmd) = Some (position r) →
  call (move moveStep cmd) e
  = ({| snapshot := snapshot e; layoutShift := [] |}, None).
Proof.
  intros Hr Hlast. unfold call, move. rewrite Hr.
  unfold normalizePath. by rewrite spliceLoops_back_to_start.
Qed.

Lemma move_back_to_start_noop_witness :
  call (move rejectStep
          {| itemId := "A";
             path := [{| px := 1; py := 0 |}; {| px := 1; py := 1 |};
                      {| px := 0; py := 1 |}; {| px := 0; py := 0 |}] |})
       engineA
  = ({| snapshot := gridA; layoutShift := [] |}, None).
Proof.
  apply (move_back_to_start_noop rejectStep engineA _ (Build_Rectangle "A" 0 0 2 2)).
  - vm_compute. reflexivity.
  - reflexivity.
Defined.


(** ** The packing loop *)

Lemma scan_loop_Some (test : Z → bool) (from : Z) (n : nat) (c : Z) :
  scan_loop test from n = Some c →
  from ≤ c < from + Z.of_nat n ∧ test c = true
  ∧ ∀ c', from ≤ c' < c → test c' = false.
Proof.
  revert from. induction n as [|n IH]; intros from Hscan; [done|].
  simpl in Hscan. destruct (test from) eqn:Htest.
  - injection Hscan as <-. split_and!; [lia|lia|done|lia].
  - apply IH in Hscan as (Hrange & Hc & Hbefore). split_and!; [lia|lia|done|].
    intros c' Hc'. destruct (decide (c' = from)) as [->|]; [done|].
    apply Hbefore. lia.
Qed.

Lemma scan_loop_None (test : Z → bool) (from : Z) (n : nat) :
  scan_loop test from n = None →
  ∀ c', from ≤ c' < from + Z.of_nat n → test c' = false.
Proof.
  revert from. induction n as [|n IH]; intros from Hscan c' Hc'; [lia|].
  simpl in Hscan. destruct (test from) eqn:Htest; [done|].
  destruct (decide (c' = from)) as [->|]; [done|].
  apply (IH (from + 1)); [done|lia].
Qed.

Lemma scan_Some (ncols : Z) (test : Z → bool) (from span c : Z) :
  scan ncols test from span = Some c →
  from ≤ c ∧ c + span ≤ ncols ∧ test c = true
  ∧ ∀ c', from ≤ c' < c → test c' = false.
Proof.
  unfold scan. intros (Hrange & Hc & Hbefore)%scan_loop_Some.
  split_and!; [lia|lia|done|done].
Qed.

Lemma scan_None (ncols : Z) (test : Z → bool) (from span : Z) :
  scan ncols test from span = None →
  ∀ c', from ≤ c' → c' + span ≤ ncols → test c' = false.
Proof.
  unfold scan. intros Hscan c' Hfrom Hfit.
  apply (scan_loop_None _ _ _ Hscan). lia.
Qed.

Lemma findOptimalColumnOffset_chosen (ncols : Z) (hs : gmap Z number)
    (from span rspan : Z) :
  chosenOffset ncols hs span rspan from
    (findOptimalColumnOffset ncols hs from span rspan).
Proof.
  unfold findOptimalColumnOffset, chosenOffset, leftmostFrom, fitsAt.
  destruct (scan ncols _ from span) as [c|] eqn:Hfirst.
  - left. apply scan_Some in Hfirst as (? & ? & ? & Hbefore).
    split_and!; try done. intros c' Hc' [_ Hfits].
    rewrite (Hbefore c' Hc') in Hfits. done.
  - pose proof (scan_None _ _ _ _ Hfirst) as Hnone1.
    assert (∀ c', from ≤ c' →
              ¬ (c' + span ≤ ncols ∧ fits ncols hs span rspan c' = true)) as Hno1.
    { intros c' Hc' [Hle Hfits]. rewrite (Hnone1 c' Hc' Hle) in Hfits. done. }
    destruct (scan ncols _ 0 span) as [c|] eqn:Hsecond.
    + right; left. apply scan_Some in Hsecond as (? & ? & ? & Hbefore).
      split_and!; try done. intros c' Hc' [_ Hfits].
      rewrite (Hbefore c' Hc') in Hfits. done.
    + right; right. pose proof (scan_None _ _ _ _ Hsecond) as Hnone2.
      split_and!; try done.
      intros c' Hc' [Hle Hfits]. rewrite (Hnone2 c' Hc' Hle) in Hfits. done.
Qed.

Lemma packItems_snoc `{Constants} (σ : Store) (ncols : Z) (pre : list Item) (item : Item) :
  packItems σ ncols (pre ++ [item]) = placeItem σ ncols (packItems σ ncols pre) item.
Proof. unfold packItems. by rewrite foldl_app. Qed.

Lemma layoutItems_foldl `{Constants} (σ : Store) (ncols : Z) (post : list Item)
    (st : PackState) :
  ∃ more, layoutItems (foldl (placeItem σ ncols) st post) = layoutItems st ++ more.
Proof.
  revert st. induction post as [|item post IH]; intros st; simpl.
  - exists []. by rewrite app_nil_r.
  - destruct (IH (placeItem σ ncols st item)) as [more ->]. simpl.
    eexists. by rewrite <- app_assoc.
Qed.

Lemma sort_insert_perm {A : Type} (cmp : A → A → Z) (a : A) (l : list A) :
  sort_insert cmp a l ≡ₚ a :: l.
Proof.
  induction l as [|b l IH]; simpl; [done|].
  case_bool_decide; [|done]. rewrite IH. apply Permutation_swap.
Qed.

Lemma sort_perm {A : Type} (cmp : A → A → Z) (l : list A) : sort cmp l ≡ₚ l.
Proof.
  induction l as [|a l IH]; simpl; [done|].
  by rewrite sort_insert_perm, IH.
Qed.

(** C1, as the code has it: an item without an explicit column-offset hint
    for the target column count is placed at the leftmost offset, scanning
    rightward from the running cursor, at which the item's lower edge (the
    resulting row plus the item's row span) does not exceed the current
    maximum row height of the whole grid; if there is none up to the right
    edge the scan restarts from column 0; if still none fits, the item goes
    to the cursor position, or to column 0 when that would pass the right
    edge. *)
Theorem interpretItems_offset_choice `{Constants} (σ : Store) (ncols : Z)
    (pre : list Item) (item : Item) :
  readSetting σ (columnOffset item) (Num ncols) = None →
  let st := packItems σ ncols pre in
  ∃ placed,
    layoutItems (packItems σ ncols (pre ++ [item])) = layoutItems st ++ [placed]
    ∧ item_id placed = id item
    ∧ y placed = getRowOffset (columnHeights st) (x placed) (width placed)
    ∧ chosenOffset ncols (columnHeights st)
        (getColumnSpan σ ncols item) (getRowSpan σ ncols item) (cursor st) (x placed)
    ∧ ∀ post g, interpretItems σ (pre ++ item :: post) ncols = Ok g →
                placed ∈ items g.
Proof.
  intros Hnohint st. rewrite packItems_snoc. fold st. unfold placeItem at 1.
  eexists. split; [reflexivity|]. simpl. split_and!; try done.
  - unfold getColumnOffset. rewrite Hnohint. simpl.
    apply findOptimalColumnOffset_chosen.
  - intros post g. unfold interpretItems. case_bool_decide; [done|].
    intros [= <-]. simpl. rewrite sort_perm.
    unfold packItems. rewrite (assoc_L _ pre [item] post : pre ++ item :: post = (pre ++ [item]) ++ post), foldl_app.
    destruct (layoutItems_foldl σ ncols post
                (foldl (placeItem σ ncols) (initialState ncols) (pre ++ [item])))
      as [more ->].
    rewrite foldl_app. simpl. unfold placeItem at 1. simpl.
    rewrite !elem_of_app. left; right. apply list_elem_of_singleton.
    reflexivity.
Qed.

Lemma interpretItems_offset_choice_witness :
  let st := packItems (H := exampleConstants) ∅ 3 (take 2 tallWideSmall) in
  ∃ placed,
    layoutItems (packItems (H := exampleConstants) ∅ 3 (take 2 tallWideSmall ++ [plainItem "c" 1 2]))
    = layoutItems st ++ [placed]
    ∧ item_id placed = "c"
    ∧ y placed = getRowOffset (columnHeights st) (x placed) (width placed)
    ∧ chosenOffset 3 (columnHeights st)
        (getColumnSpan (H := exampleConstants) ∅ 3 (plainItem "c" 1 2))
        (getRowSpan (H := exampleConstants) ∅ 3 (plainItem "c" 1 2)) (cursor st) (x placed)
    ∧ ∀ post g,
        interpretItems (H := exampleConstants) ∅ (take 2 tallWideSmall ++ plainItem "c" 1 2 :: post) 3
        = Ok g → placed ∈ items g.
Proof.
  apply (interpretItems_offset_choice (H := exampleConstants) ∅ 3
           (take 2 tallWideSmall) (plainItem "c" 1 2)).
  reflexivity.
Defined.

(** C1 as stated fails. After the tall and the wide item the columns are 4, 2
    and 2 high and the cursor is at the right edge. Comparing the resulting
    row alone with the tallest column, as the specification words it, would accept
    column 0 on the restarted scan; the code also counts the item's row span
    and places the small item in column 1, on row 2. *)
Lemma offset_search_counts_row_span :
  let st := packItems (H := exampleConstants) ∅ 3 (take 2 tallWideSmall) in
  findOptimalColumnOffset 3 (columnHeights st) (cursor st) 1 2
  ≠ offsetAsWorded 3 (columnHeights st) 1 (cursor st)
  ∧ columnHeights st = {[ 0 := Num 4; 1 := Num 2; 2 := Num 2 ]}
  ∧ cursor st = 3
  ∧ offsetAsWorded 3 (columnHeights st) 1 (cursor st) = 0
  ∧ findOptimalColumnOffset 3 (columnHeights st) (cursor st) 1 2 = 1
  ∧ interpretItems (H := exampleConstants) ∅ tallWideSmall 3
    = Ok {| items := [cell "a" 0 0 1 4; cell "b" 1 0 2 2; cell "c" 1 2 1 2];
            columns := 3; rows := Num 4 |}.
Proof. vm_compute. split_and!; try reflexivity. discriminate. Qed.

(** ** Grid invariants of the packing *)

Lemma fill_loop_lookup (hs : gmap Z number) (col : Z) (n : nat) (v : number) (c : Z) :
  fill_loop hs col n v !! c
  = if bool_decide (col ≤ c < col + Z.of_nat n) then Some v else hs !! c.
Proof.
  revert hs col. induction n as [|n IH]; intros hs col; simpl.
  - rewrite bool_decide_eq_false_2; [done|lia].
  - rewrite IH. destruct (decide (c = col)) as [->|Hne].
    + rewrite lookup_insert_eq.
      rewrite bool_decide_eq_false_2, bool_decide_eq_true_2; [done|lia|lia].
    + rewrite lookup_insert_ne; [|done].
      case_bool_decide; case_bool_decide; try done; lia.
Qed.

Lemma getRowOffset_loop_spec (hs : gmap Z number) (col : Z) (n : nat) (acc : Z) :
  (∀ c, col ≤ c < col + Z.of_nat n → ∃ h, hs !! c = Some (Num h)) →
  ∃ m, getRowOffset_loop hs col n (Num acc) = Num m ∧ acc ≤ m
       ∧ (∀ c h, col ≤ c < col + Z.of_nat n → hs !! c = Some (Num h) → h ≤ m)
       ∧ (m = acc ∨ ∃ c, col ≤ c < col + Z.of_nat n ∧ hs !! c = Some (Num m)).
Proof.
  revert col acc. induction n as [|n IH]; intros col acc Hnum; simpl.
  - exists acc. split_and!; [done|lia| |by left]. intros; lia.
  - destruct (Hnum col) as [h0 Hh0]; [lia|]. rewrite Hh0. simpl.
    destruct (IH (col + 1) (acc `max` h0)) as (m & -> & Hle & Hall & Hmax).
    { intros c Hc. apply Hnum. lia. }
    exists m. split_and!; [done|lia| |].
    + intros c h Hc Hh. destruct (decide (c = col)) as [->|Hne].
      * rewrite Hh0 in Hh. injection Hh as <-. lia.
      * apply (Hall c); [lia|done].
    + destruct Hmax as [->|(c & Hc & Hm)].
      * destruct (Z.max_spec acc h0) as [[_ ->]|[_ ->]].
        -- right. exists col. split; [lia|done].
        -- by left.
      * right. exists c. split; [lia|done].
Qed.

Lemma getRowOffset_spec (ncols : Z) (hs : gmap Z number) (off span : Z) :
  heightsOk ncols hs → 0 ≤ off → off + span ≤ ncols →
  ∃ m, getRowOffset hs off span = Num m ∧ 0 ≤ m
       ∧ (∀ c h, off ≤ c < off + span → hs !! c = Some (Num h) → h ≤ m)
       ∧ (m = 0 ∨ ∃ c, off ≤ c < off + span ∧ hs !! c = Some (Num m)).
Proof.
  intros Hok Hoff Hfit. unfold getRowOffset.
  destruct (getRowOffset_loop_spec hs off (Z.to_nat span) 0)
    as (m & -> & Hle & Hall & Hmax).
  { intros c Hc. destruct (Hok c) as (h & Hh & _); [lia|]. by exists h. }
  exists m. split_and!; [done|done| |].
  - intros c h Hc. apply Hall. lia.
  - destruct Hmax as [->|(c & Hc & Hm)]; [by left|].
    right. exists c. split; [lia|done].
Qed.

Lemma findOptimalColumnOffset_range (ncols : Z) (hs : gmap Z number)
    (from span rspan : Z) :
  0 ≤ from → span ≤ ncols →
  0 ≤ findOptimalColumnOffset ncols hs from span rspan
  ∧ findOptimalColumnOffset ncols hs from span rspan + span ≤ ncols.
Proof.
  intros Hfrom Hspan.
  destruct (findOptimalColumnOffset_chosen ncols hs from span rspan)
    as [(? & [? _] & _)|[(_ & ? & [? _] & _)|(_ & _ & ->)]]; [lia|lia|].
  case_bool_decide; lia.
Qed.

Section PackingInvariant.
Context `{Constants}.
Hypothesis min_col_span_positive : 0 < MIN_COL_SPAN.
Hypothesis min_row_span_positive : 0 < MIN_ROW_SPAN.
Variable σ : Store.
Variable ncols : Z.

Lemma getRowSpan_positive (item : Item) : 0 < getRowSpan σ ncols item.
Proof. unfold getRowSpan, getItemMinRowSpan. lia. Qed.

Lemma getColumnSpan_range (item : Item) :
  columnSpan item = None → getItemMinColumnSpan item ncols ≤ ncols →
  0 < getColumnSpan σ ncols item ≤ ncols.
Proof.
  intros Hnone Hmin. rewrite getColumnSpan_unhinted; [|by rewrite Hnone].
  unfold getItemMinColumnSpan in *. lia.
Qed.

Lemma initialState_invariant : packInvariant ncols (initialState ncols).
Proof.
  split; simpl; try done.
  - intros c Hc. exists 0. rewrite fill_loop_lookup.
    rewrite bool_decide_eq_true_2; [done|lia].
  - intros c h Hc. rewrite fill_loop_lookup.
    rewrite bool_decide_eq_true_2; [|lia]. intros [= <-]. by left.
Qed.

Lemma placeItem_invariant (st : PackState) (item : Item) :
  columnOffset item = None → columnSpan item = None →
  getItemMinColumnSpan item ncols ≤ ncols →
  packInvariant ncols st → packInvariant ncols (placeItem σ ncols st item).
Proof.
  intros Hoff Hspan Hmin [Hheights Hcursor Hwithin Hbelow Hdisjoint Hreached].
  pose proof (getColumnSpan_range item Hspan Hmin) as Hcs.
  pose proof (getRowSpan_positive item) as Hrs.
  unfold placeItem.
  set (cs := getColumnSpan σ ncols item) in *.
  set (rs := getRowSpan σ ncols item) in *.
  assert (getColumnOffset σ ncols (columnHeights st) item (cursor st)
          = findOptimalColumnOffset ncols (columnHeights st) (cursor st) cs rs) as ->.
  { unfold getColumnOffset, readSetting. by rewrite Hoff. }
  set (off := findOptimalColumnOffset ncols (columnHeights st) (cursor st) cs rs).
  destruct (findOptimalColumnOffset_range ncols (columnHeights st) (cursor st) cs rs)
    as [Hoff0 Hofffit]; [done|lia|]. fold off in Hoff0, Hofffit.
  destruct (getRowOffset_spec ncols (columnHeights st) off cs Hheights Hoff0 Hofffit)
    as (m & Hrow & Hm0 & Hmall & _).
  rewrite Hrow. simpl.
  set (placed := {| item_id := id item; x := off; y := Num m;
                    width := cs; height := rs |}).
  assert (∀ c, fill_loop (columnHeights st) off (Z.to_nat cs) (Num (m + rs)) !! c
               = if bool_decide (off ≤ c < off + cs) then Some (Num (m + rs))
                 else columnHeights st !! c) as Hfill.
  { intros c. rewrite fill_loop_lookup.
    repeat case_bool_decide; try done; lia. }
  split; simpl.
  - intros c Hc. rewrite Hfill. case_bool_decide.
    + exists (m + rs). split; [done|lia].
    + by apply Hheights.
  - lia.
  - apply Forall_app. split; [done|]. apply Forall_singleton.
    exists m. simpl. split_and!; try done; lia.
  - apply Forall_app. split.
    + eapply Forall_impl; [exact Hbelow|]. intros it Hit c Hc.
      destruct (Hit c Hc) as (top & h & Htop & Hh & Hle).
      rewrite Hfill. case_bool_decide.
      * exists top, (m + rs). split_and!; [done|done|].
        pose proof (Hmall c h ltac:(lia) Hh). lia.
      * exists top, h. done.
    + apply Forall_singleton. intros c Hc. simpl in Hc.
      exists m, (m + rs). rewrite Hfill.
      rewrite bool_decide_eq_true_2; [|lia]. split_and!; [done|done|simpl; lia].
  - assert (∀ a col row, a ∈ layoutItems st →
              ¬ (covers col row a ∧ covers col row placed)) as Hnew.
    { intros a col row Ha [Hca Hcp].
      apply (proj1 (Forall_forall _ _) Hbelow) in Ha as Hbel.
      unfold covers in Hca, Hcp. simpl in Hcp.
      destruct (y a) as [top|] eqn:Hya; [|done].
      destruct (Hbel col) as (top' & h & Htop & Hh & Hle); [lia|].
      rewrite Hya in Htop. injection Htop as <-.
      pose proof (Hmall col h ltac:(lia) Hh). lia. }
    intros i j a b col row Hij Hi Hj.
    apply lookup_app_Some in Hi as [Hi|[Hilen Hi]];
      apply lookup_app_Some in Hj as [Hj|[Hjlen Hj]].
    + by eapply Hdisjoint.
    + apply list_lookup_singleton_Some in Hj as [_ <-].
      apply Hnew. by eapply list_elem_of_lookup_2.
    + apply list_lookup_singleton_Some in Hi as [_ <-].
      intros [? ?]. eapply Hnew; [by eapply list_elem_of_lookup_2|done].
    + apply list_lookup_singleton_Some in Hi as [Hi0 _].
      apply list_lookup_singleton_Some in Hj as [Hj0 _]. lia.
  - intros c h Hc. rewrite Hfill. case_bool_decide.
    + intros [= <-]. right. exists placed. split; [|done].
      apply elem_of_app. right. by apply list_elem_of_singleton.
    + intros Hh. destruct (Hreached c h Hc Hh) as [->|(it & Hit & Hbot)];
        [by left|]. right. exists it. split; [|done].
      apply elem_of_app. by left.
Qed.

Lemma packItems_invariant (its : list Item) :
  Forall hintFree its →
  Forall (λ item, getItemMinColumnSpan item ncols ≤ ncols) its →
  packInvariant ncols (packItems σ ncols its).
Proof.
  induction its as [|item its IH] using rev_ind; intros Hfree Hmin.
  - apply initialState_invariant.
  - rewrite packItems_snoc.
    apply Forall_app in Hfree as [Hfree (Hoff & Hspan & _)%Forall_singleton].
    apply Forall_app in Hmin as [Hmin Hitem].
    rewrite Forall_singleton in Hitem.
    apply placeItem_invariant; auto.
Qed.
End PackingInvariant.

Lemma noSharedCell_perm (l l' : list GridLayoutItem) :
  l' ≡ₚ l → noSharedCell l → noSharedCell l'.
Proof.
  intros (_ & f & Hinj & Hf)%Permutation_inj Hl i j a b col row Hij Hi Hj.
  rewrite Hf in Hi, Hj. eapply Hl; [|exact Hi|exact Hj].
  intros Heq. by apply Hinj in Heq.
Qed.

Lemma maxBottom_spec (ncols : Z) (l : list GridLayoutItem) :
  Forall (withinColumns ncols) l →
  ∃ m, maxBottom l = Num m ∧ 0 ≤ m
       ∧ (∀ it, it ∈ l → ∃ top, y it = Num top ∧ top + height it ≤ m)
       ∧ (m = 0 ∨ ∃ it, it ∈ l ∧ bottom it = Num m).
Proof.
  induction 1 as [|it l (top & Hy & Htop & _ & _ & _ & Hh) _ (m & Hm & Hm0 & Hall & Hmax)];
    simpl.
  - exists 0. split_and!; [done|done| |by left]. by intros it ?%elem_of_nil.
  - rewrite Hm. unfold bottom at 1. rewrite Hy. simpl.
    exists (m `max` (top + height it)). split_and!; [done|lia| |].
    + intros it' [->|Hin]%elem_of_cons.
      * exists top. split; [done|lia].
      * destruct (Hall it' Hin) as (top' & ? & ?). exists top'. split; [done|lia].
    + destruct (Z.max_spec m (top + height it)) as [[_ ->]|[_ ->]].
      * right. exists it. split; [by left|]. unfold bottom. by rewrite Hy.
      * destruct Hmax as [->|(it' & ? & ?)]; [by left|].
        right. exists it'. split; [by right|done].
Qed.

(** C9, as the code has it: for hint-free items whose minimum column span
    fits the board, and a column count of at least 1, at least the minimum
    column span constant and at most 2^32 - 1, the largest length of an
    array, the grid returned by interpretItems has no two rectangles sharing
    a cell, every rectangle lies within columns [0, N) with positive width
    and height, and [rows] is the maximum of [y + height] over the items
    (0 for the empty list). *)
Theorem interpretItems_grid_invariants `{Constants} (σ : Store)
    (its : list Item) (N : Z) :
  0 < MIN_COL_SPAN → 0 < MIN_ROW_SPAN →
  1 ≤ N → N < 4294967296 → MIN_COL_SPAN ≤ N →
  Forall hintFree its →
  Forall (λ item, getItemMinColumnSpan item N ≤ N) its →
  ∃ g, interpretItems σ its N = Ok g
       ∧ columns g = N
       ∧ noSharedCell (items g)
       ∧ Forall (withinColumns N) (items g)
       ∧ rows g = maxBottom (items g).
Proof.
  intros Hcol Hrow HN Hmax _ Hfree Hmin.
  destruct (packItems_invariant Hcol Hrow σ N its Hfree Hmin)
    as [Hheights _ Hwithin Hbelow Hdisjoint Hreached].
  unfold interpretItems. rewrite bool_decide_eq_false_2; [|lia].
  eexists. split; [reflexivity|]. simpl.
  set (st := packItems σ N its) in *.
  pose proof (sort_perm itemComparator (layoutItems st)) as Hperm.
  assert (Forall (withinColumns N) (sort itemComparator (layoutItems st))) as Hsorted.
  { by rewrite Hperm. }
  split_and!; [done|by eapply noSharedCell_perm|done|].
  destruct (getRowOffset_spec N (columnHeights st) 0 N Hheights)
    as (m & -> & Hm0 & Hmall & Hmmax); [lia|lia|].
  destruct (maxBottom_spec N _ Hsorted) as (m' & -> & Hm'0 & Hall' & Hmax').
  f_equal. apply Z.le_antisymm.
  - destruct Hmmax as [->|(c & Hc & Hhc)]; [done|].
    destruct (Hreached c m) as [->|(it & Hit & Hbot)]; [lia|done|done|].
    rewrite <- Hperm in Hit. destruct (Hall' it Hit) as (top & Hy & Hle).
    unfold bottom in Hbot. rewrite Hy in Hbot. injection Hbot as <-. done.
  - destruct Hmax' as [->|(it & Hit & Hbot)]; [done|].
    rewrite Hperm in Hit.
    apply (proj1 (Forall_forall _ _) Hwithin) in Hit as Hwit.
    apply (proj1 (Forall_forall _ _) Hbelow) in Hit as Hbel.
    destruct Hwit as (top & Hy & ? & ? & ? & ? & ?).
    destruct (Hbel (x it)) as (top' & h & Hy' & Hh & Hle); [lia|].
    rewrite Hy in Hy'. injection Hy' as <-.
    unfold bottom in Hbot. rewrite Hy in Hbot. injection Hbot as <-.
    pose proof (Hmall (x it) h ltac:(lia) Hh). lia.
Qed.

Lemma interpretItems_grid_invariants_witness :
  ∃ g, interpretItems (H := exampleConstants) ∅ tallWideSmall 3 = Ok g
       ∧ columns g = 3
       ∧ noSharedCell (items g)
       ∧ Forall (withinColumns 3) (items g)
       ∧ rows g = maxBottom (items g).
Proof.
  apply (interpretItems_grid_invariants (H := exampleConstants) ∅ tallWideSmall 3).
  - reflexivity.
  - reflexivity.
  - lia.
  - lia.
  - simpl. lia.
  - repeat constructor.
  - repeat constructor; vm_compute; discriminate.
Defined.

(** C9 as stated fails: the minimum column span wins over the clamp of the
    default span, so a hint-free item whose definition asks for at least five
    columns is five wide on a 3-column board, and its row is not a number. *)
Lemma wide_item_leaves_the_columns :
  hintFree wideItem
  ∧ interpretItems (H := exampleConstants) ∅ [wideItem] 3
    = Ok {| items := [{| item_id := "w"; x := 0; y := NaN; width := 5; height := 2 |}];
            columns := 3; rows := NaN |}
  ∧ ¬ Forall (withinColumns 3)
        [{| item_id := "w"; x := 0; y := NaN; width := 5; height := 2 |}].
Proof.
  split_and!; [done|vm_compute; reflexivity|].
  intros (top & Hy & _)%Forall_singleton. discriminate.
Qed.

(** ** Sorting again what is sorted *)

Section SortFacts.
Context {A : Type} (cmp : A → A → Z).
Hypothesis cmp_asym : ∀ a b, 0 < cmp a b → ¬ 0 < cmp b a.

Lemma sort_insert_Sorted (a : A) (l : list A) :
  Sorted (inOrder cmp) l → Sorted (inOrder cmp) (sort_insert cmp a l).
Proof.
  unfold inOrder. induction 1 as [|b l Hsorted IH Hhd]; simpl.
  - by repeat constructor.
  - case_bool_decide as Hab.
    + constructor; [done|]. destruct Hhd as [|c l Hbc]; simpl.
      * constructor. by apply cmp_asym.
      * case_bool_decide; constructor; [done|by apply cmp_asym].
    + by repeat constructor.
Qed.

Lemma sort_Sorted (l : list A) : Sorted (inOrder cmp) (sort cmp l).
Proof.
  induction l as [|a l IH]; simpl; [constructor|].
  by apply sort_insert_Sorted.
Qed.

Lemma sort_Sorted_id (l : list A) : Sorted (inOrder cmp) l → sort cmp l = l.
Proof.
  unfold inOrder. induction 1 as [|a l Hsorted IH Hhd]; simpl; [done|].
  rewrite IH. destruct Hhd as [|b l Hab]; simpl; [done|].
  by rewrite bool_decide_eq_false_2.
Qed.

Lemma sort_idemp (l : list A) : sort cmp (sort cmp l) = sort cmp l.
Proof. apply sort_Sorted_id, sort_Sorted. Qed.
End SortFacts.

Lemma itemComparator_asym (a b : GridLayoutItem) :
  0 < itemComparator a b → ¬ 0 < itemComparator b a.
Proof.
  unfold itemComparator, number_neq, number_gt.
  destruct (y a) as [ya|], (y b) as [yb|]; simpl; try lia.
  repeat case_bool_decide; lia.
Qed.

(** ** The strict reading order *)

Section SortStrict.
Context {A : Type} (cmp : A → A → Z) (R : A → A → Prop).
Hypothesis R_behind : ∀ a b, R b a → 0 < cmp a b.
Hypothesis R_ahead : ∀ a b, R a b → ¬ 0 < cmp a b.

Lemma sort_insert_middle (a : A) (s1 s2 : list A) :
  Forall (λ b, R b a) s1 → Forall (R a) s2 →
  sort_insert cmp a (s1 ++ s2) = s1 ++ a :: s2.
Proof.
  intros H1 H2. induction H1 as [|b s1 Hb _ IH]; simpl.
  - destruct H2 as [|c s2 Hc _]; simpl; [done|].
    rewrite bool_decide_eq_false_2; [done|by apply R_ahead].
  - rewrite bool_decide_eq_true_2 by by apply R_behind. by rewrite IH.
Qed.

(** Every arrangement of a strictly ordered list is sorted back into it: on
    such a list the result does not depend on how the sort proceeds. *)
Lemma sort_strict_perm (p s : list A) :
  StronglySorted R s → p ≡ₚ s → sort cmp p = s.
Proof.
  revert s. induction p as [|a p IH]; intros s Hs Hp.
  - apply Permutation_nil in Hp. by subst.
  - assert (a ∈ s) as (s1 & s2 & ->)%list_elem_of_split.
    { rewrite <- Hp. by left. }
    apply Permutation_cons_app_inv in Hp.
    apply StronglySorted_app in Hs as (Hcross & Hs1 & Hs2).
    apply StronglySorted_cons in Hs2 as [Ha2 Hs2].
    simpl. rewrite (IH (s1 ++ s2)); [| |done].
    + apply sort_insert_middle; [|done].
      apply Forall_forall. intros b Hb. apply Hcross; [done|by left].
    + apply StronglySorted_app_2; [|done|done].
      intros x1 x2 Hx1 Hx2. apply Hcross; [done|by right].
Qed.
End SortStrict.

Lemma inOrder_rowMajorLe (ncols : Z) (a b : GridLayoutItem) :
  withinColumns ncols a → withinColumns ncols b →
  inOrder itemComparator a b → rowMajorLe a b.
Proof.
  intros (ya & Hya & _) (yb & Hyb & _).
  unfold inOrder, itemComparator, rowMajorLe, number_neq, number_gt.
  rewrite Hya, Hyb. repeat case_bool_decide; lia.
Qed.

Lemma rowMajorLe_trans (a b c : GridLayoutItem) :
  rowMajorLe a b → rowMajorLe b c → rowMajorLe a c.
Proof.
  unfold rowMajorLe. destruct (y a), (y b), (y c); try done. lia.
Qed.

Lemma Sorted_rowMajorLe (ncols : Z) (l : list GridLayoutItem) :
  Forall (withinColumns ncols) l → Sorted (inOrder itemComparator) l →
  StronglySorted rowMajorLe l.
Proof.
  intros Hwithin Hsorted. induction Hsorted as [|a l Hsorted IH Hhd]; [constructor|].
  apply Forall_cons in Hwithin as [Ha Hl]. specialize (IH Hl).
  constructor; [done|].
  destruct Hhd as [|b l Hab]; [constructor|].
  apply Forall_cons in Hl as [Hb Hl].
  assert (rowMajorLe a b) as Hle by by eapply inOrder_rowMajorLe.
  constructor; [done|].
  apply StronglySorted_inv in IH as [_ Hall].
  eapply Forall_impl; [exact Hall|]. intros c Hbc. by eapply rowMajorLe_trans.
Qed.

Lemma StronglySorted_lookup {A : Type} (R : A → A → Prop) (l : list A)
    (i j : nat) (a b : A) :
  StronglySorted R l → (i < j)%nat → l !! i = Some a → l !! j = Some b → R a b.
Proof.
  intros Hsorted. revert i j.
  induction Hsorted as [|c l Hsorted IH Hall]; intros i j Hij Hi Hj; [done|].
  destruct j as [|j]; [lia|]. simpl in Hj. destruct i as [|i].
  - simpl in Hi. injection Hi as ->.
    apply (proj1 (Forall_forall _ _) Hall). by eapply list_elem_of_lookup_2.
  - simpl in Hi. apply (IH i j); [lia|done|done].
Qed.

Lemma rowMajorBefore_inOrder (a b : GridLayoutItem) :
  rowMajorBefore a b → inOrder itemComparator a b.
Proof.
  unfold rowMajorBefore, inOrder, itemComparator, number_neq, number_gt.
  destruct (y a), (y b); try done. repeat case_bool_decide; lia.
Qed.

Lemma StronglySorted_NoDup {A : Type} (R : A → A → Prop) (l : list A) :
  (∀ a, ¬ R a a) → StronglySorted R l → NoDup l.
Proof.
  intros Hirr. induction 1 as [|a l Hsorted IH Hall]; constructor; [|done].
  intros Hin. apply (Hirr a). by apply (proj1 (Forall_forall _ _) Hall).
Qed.

Lemma rowMajorBefore_behind (a b : GridLayoutItem) :
  rowMajorBefore b a → 0 < itemComparator a b.
Proof.
  unfold rowMajorBefore, itemComparator, number_neq, number_gt.
  destruct (y a), (y b); try done. repeat case_bool_decide; lia.
Qed.

Lemma sort_readingOrder (l sorted : list GridLayoutItem) :
  readingOrder l sorted → sort itemComparator l = sorted.
Proof.
  intros [Hperm Hsorted]. apply (sort_strict_perm _ rowMajorBefore); [| |done|done].
  - apply rowMajorBefore_behind.
  - apply rowMajorBefore_inOrder.
Qed.

Lemma StronglySorted_of_lookup {A : Type} (R : A → A → Prop) (l : list A) :
  (∀ (i j : nat) a b, (i < j)%nat → l !! i = Some a → l !! j = Some b → R a b) →
  StronglySorted R l.
Proof.
  induction l as [|c l IH]; intros Hall; constructor.
  - apply IH. intros i j a b Hij Hi Hj. apply (Hall (S i) (S j)); [lia|done|done].
  - apply Forall_forall. intros b (j & Hj)%list_elem_of_lookup.
    apply (Hall 0%nat (S j)); [lia|done|done].
Qed.

(** A layout of proper rectangles of which no two share a cell has a strict
    reading order, and sorting yields it. *)
Lemma sort_grid_readingOrder (ncols : Z) (l : list GridLayoutItem) :
  Forall (withinColumns ncols) l → noSharedCell l →
  readingOrder l (sort itemComparator l).
Proof.
  intros Hwithin Hdisjoint.
  pose proof (sort_perm itemComparator l) as Hperm.
  split; [done|].
  assert (Forall (withinColumns ncols) (sort itemComparator l)) as Hsorted.
  { by rewrite Hperm. }
  pose proof (noSharedCell_perm _ _ Hperm Hdisjoint) as Hdisjoint'.
  pose proof (Sorted_rowMajorLe ncols _ Hsorted (sort_Sorted _ itemComparator_asym l))
    as Hstrong.
  apply StronglySorted_of_lookup. intros i j a b Hij Hi Hj.
  pose proof (StronglySorted_lookup _ _ _ _ _ _ Hstrong Hij Hi Hj) as Hle.
  destruct (proj1 (Forall_forall _ _) Hsorted a (list_elem_of_lookup_2 _ _ _ Hi))
    as (ya & Hya & ? & ? & ? & ? & ?).
  destruct (proj1 (Forall_forall _ _) Hsorted b (list_elem_of_lookup_2 _ _ _ Hj))
    as (yb & Hyb & ? & ? & ? & ? & ?).
  unfold rowMajorLe in Hle. unfold rowMajorBefore. rewrite Hya, Hyb in *.
  destruct Hle as [Hlt|[-> Hx]]; [by left|].
  destruct (decide (x a = x b)) as [Heq|Hne]; [|right; split; [done|lia]].
  exfalso. apply (Hdisjoint' i j a b (x a) yb); [lia|done|done|].
  unfold covers. rewrite Hya, Hyb. lia.
Qed.

(** ** transformItems after interpretItems *)

Lemma itemById_snoc (src : list Item) (item : Item) :
  itemById (src ++ [item]) = <[id item := item]> (itemById src).
Proof. unfold itemById. by rewrite foldl_app. Qed.

Lemma itemById_Some (src : list Item) (k : string) (s : Item) :
  itemById src !! k = Some s → s ∈ src ∧ id s = k.
Proof.
  induction src as [|item src IH] using rev_ind; [done|].
  rewrite itemById_snoc. destruct (decide (id item = k)) as [<-|Hne].
  - rewrite lookup_insert_eq. intros [= <-]. split; [|done].
    apply elem_of_app. right. by left.
  - rewrite lookup_insert_ne; [|done]. intros [Hin Hid]%IH. split; [|done].
    apply elem_of_app. by left.
Qed.

Lemma itemById_is_Some (src : list Item) (s : Item) :
  s ∈ src → is_Some (itemById src !! id s).
Proof.
  induction src as [|item src IH] using rev_ind; [by intros ?%elem_of_nil|].
  rewrite itemById_snoc. intros [Hin|Hin%list_elem_of_singleton]%elem_of_app.
  - destruct (decide (id item = id s)) as [->|Hne].
    + rewrite lookup_insert_eq. by eexists.
    + rewrite lookup_insert_ne; [|done]. by apply IH.
  - subst. rewrite lookup_insert_eq. by eexists.
Qed.

Lemma findIndex_loop_total (src : list Item) (l : list GridLayoutItem) (index : nat) :
  (index + length l ≤ length src)%nat → ∃ found, findIndex_loop src l index = Ok found.
Proof.
  revert index. induction l as [|e l IH]; intros index Hlen; simpl.
  - by eexists.
  - simpl in Hlen. destruct (lookup_lt_is_Some_2 src index) as [s ->]; [lia|].
    case_bool_decide; [by eexists|]. apply IH. lia.
Qed.

Lemma writeItemSetting_id (σ : Store) (item : Item) (name : SettingName)
    (layout : number) (value : Z) :
  id (writeItemSetting σ item name layout value).2 = id item
  ∧ definition (writeItemSetting σ item name layout value).2 = definition item.
Proof.
  unfold writeItemSetting. destruct (getSetting name item); [done|].
  by destruct name.
Qed.

Lemma transformItem_id (src : list Item) (g : GridLayout) (changeFrom : Z)
    (σ σ' : Store) (index : nat) (e : GridLayoutItem) (item : Item) :
  transformItem src g changeFrom σ index e = Ok (σ', item) → id item = item_id e.
Proof.
  unfold transformItem, getItem.
  destruct (itemById src !! item_id e) as [s|] eqn:Hs; [|done]. simpl.
  apply itemById_Some in Hs as [_ <-].
  set (s0 := if bool_decide _ then _ else s).
  assert (id s0 = id s) as <-. { unfold s0. by case_bool_decide. }
  destruct (writeItemSetting σ s0 _ _ _) as [σ1 i1] eqn:H1.
  destruct (writeItemSetting σ1 i1 _ _ _) as [σ2 i2] eqn:H2.
  destruct (writeItemSetting σ2 i2 _ _ _) as [σ3 i3] eqn:H3.
  intros [= <- <-].
  pose proof (writeItemSetting_id σ s0 ColumnOffsetName (Num (columns g)) (x e)) as [E1 _].
  pose proof (writeItemSetting_id σ1 i1 ColumnSpanName (Num (columns g)) (width e)) as [E2 _].
  pose proof (writeItemSetting_id σ2 i2 RowSpanName (rows g) (height e)) as [E3 _].
  rewrite H1 in E1. rewrite H2 in E2. rewrite H3 in E3. simpl in *. congruence.
Qed.

Lemma transformItem_total (src : list Item) (g : GridLayout) (changeFrom : Z)
    (σ : Store) (index : nat) (e : GridLayoutItem) :
  is_Some (itemById src !! item_id e) →
  ∃ σ' item, transformItem src g changeFrom σ index e = Ok (σ', item).
Proof.
  intros [s Hs]. unfold transformItem, getItem. rewrite Hs. simpl.
  repeat match goal with
         | |- context [writeItemSetting ?a ?b ?c ?d ?f] =>
             destruct (writeItemSetting a b c d f)
         end.
  by eexists _, _.
Qed.

Lemma transform_loop_ids (src : list Item) (g : GridLayout) (changeFrom : Z)
    (σ σ' : Store) (index : nat) (l : list GridLayoutItem) (out : list Item) :
  transform_loop src g changeFrom σ index l = Ok (σ', out) →
  id <$> out = item_id <$> l.
Proof.
  revert σ index out. induction l as [|e l IH]; intros σ index out; simpl.
  - by intros [= <- <-].
  - destruct (transformItem src g changeFrom σ index e) as [[σ1 item]|] eqn:Hitem;
      [|done]. simpl.
    destruct (transform_loop src g changeFrom σ1 (S index) l) as [[σ2 rest]|] eqn:Hrest;
      [|done]. simpl.
    intros [= <- <-]. simpl. f_equal.
    + by eapply transformItem_id.
    + by eapply IH.
Qed.

Lemma transform_loop_total (src : list Item) (g : GridLayout) (changeFrom : Z)
    (σ : Store) (index : nat) (l : list GridLayoutItem) :
  Forall (λ e, is_Some (itemById src !! item_id e)) l →
  ∃ σ' out, transform_loop src g changeFrom σ index l = Ok (σ', out).
Proof.
  intros Hall. revert σ index.
  induction Hall as [|e l He _ IH]; intros σ index; simpl.
  - by eexists _, _.
  - destruct (transformItem_total src g changeFrom σ index e He) as (σ1 & item & ->).
    simpl. destruct (IH σ1 (S index)) as (σ2 & rest & ->). simpl.
    by eexists _, _.
Qed.

Lemma packItems_ids `{Constants} (σ : Store) (ncols : Z) (its : list Item) :
  item_id <$> layoutItems (packItems σ ncols its) = id <$> its.
Proof.
  induction its as [|item its IH] using rev_ind; [done|].
  rewrite packItems_snoc. unfold placeItem; simpl.
  by rewrite !fmap_app, IH.
Qed.

(** C3, as the code has it: for hint-free items whose minimum column span
    fits the board, and a column count of at least 1 and at most 2^32 - 1,
    the grid interpretItems builds is in strict reading order, and
    transformItems applied to the items and that grid returns the items in
    the order of the grid. *)
Theorem transformItems_interpretItems_order `{Constants} (σ : Store)
    (its : list Item) (N : Z) :
  0 < MIN_COL_SPAN → 0 < MIN_ROW_SPAN →
  1 ≤ N → N < 4294967296 →
  Forall hintFree its →
  Forall (λ item, getItemMinColumnSpan item N ≤ N) its →
  ∃ g σ' out,
    interpretItems σ its N = Ok g
    ∧ StronglySorted rowMajorBefore (items g)
    ∧ transformItems σ its g = Ok (σ', out)
    ∧ id <$> out = item_id <$> items g.
Proof.
  intros Hcol Hrow HN Hmax Hfree Hmin.
  destruct (packItems_invariant Hcol Hrow σ N its Hfree Hmin)
    as [_ _ Hwithin _ Hdisjoint _].
  unfold interpretItems. rewrite bool_decide_eq_false_2; [|lia].
  set (placed := layoutItems (packItems σ N its)) in *.
  set (g := {| items := sort itemComparator placed; columns := N;
               rows := getRowOffset (columnHeights (packItems σ N its)) 0 N |}).
  destruct (sort_grid_readingOrder N placed Hwithin Hdisjoint) as [_ Hstrict].
  assert (id <$> its ≡ₚ item_id <$> sort itemComparator placed) as Hids.
  { rewrite sort_perm. unfold placed. by rewrite packItems_ids. }
  assert (sort itemComparator (items g) = sort itemComparator placed) as Hsorted.
  { by apply sort_readingOrder. }
  destruct (findIndex_loop_total its (sort itemComparator placed) 0)
    as [found Hfound].
  { simpl. apply Permutation_length in Hids. rewrite !length_fmap in Hids. lia. }
  destruct (transform_loop_total its g
              (match found with
               | Some i => Z.of_nat i
               | None => Z.of_nat (length (sort itemComparator placed)) - 1
               end) σ 0 (sort itemComparator placed))
    as (σ' & out & Hloop).
  { apply Forall_forall. intros e He.
    assert (item_id e ∈ id <$> its) as (s & -> & Hs)%list_elem_of_fmap.
    { rewrite Hids. apply list_elem_of_fmap. by exists e. }
    by apply itemById_is_Some. }
  exists g, σ', out. split_and!; [done|done| |].
  - unfold transformItems, changeFromIndex. by rewrite Hsorted, Hfound.
  - by eapply transform_loop_ids.
Qed.

Lemma transformItems_interpretItems_order_witness :
  ∃ g σ' out,
    interpretItems (H := exampleConstants) ∅ tallWideSmall 3 = Ok g
    ∧ StronglySorted rowMajorBefore (items g)
    ∧ transformItems ∅ tallWideSmall g = Ok (σ', out)
    ∧ id <$> out = item_id <$> items g.
Proof.
  apply (transformItems_interpretItems_order (H := exampleConstants) ∅ tallWideSmall 3).
  - reflexivity.
  - reflexivity.
  - lia.
  - lia.
  - repeat constructor.
  - repeat constructor; vm_compute; discriminate.
Defined.

(** C3 as stated fails. A hint-free item whose definition asks for at least
    five columns gets no row on a 3-column board: its row is not a number.
    The comparator then ranks that entry and the entry of the other item each
    ahead of the other, so no arrangement of the grid is in row-major order,
    and what a sort makes of the pair, in interpretItems and again in
    transformItems, is left to the engine. *)
Lemma wide_item_has_no_reading_order :
  Forall hintFree [plainItem "a" 1 2; wideItem]
  ∧ (∃ g, interpretItems (H := exampleConstants) ∅ [plainItem "a" 1 2; wideItem] 3 = Ok g
          ∧ items g ≡ₚ [cell "a" 0 0 1 2; wideCell]
          ∧ ∀ l, l ≡ₚ items g → ¬ StronglySorted rowMajorBefore l)
  ∧ itemComparator (cell "a" 0 0 1 2) wideCell = -1
  ∧ itemComparator wideCell (cell "a" 0 0 1 2) = -1.
Proof.
  split_and!; [repeat constructor| |reflexivity|reflexivity].
  eexists. split; [vm_compute; reflexivity|]. simpl. split; [done|].
  intros l Hl Hsorted.
  assert (wideCell ∈ l) as Hw. { rewrite Hl. set_solver. }
  pose proof (Permutation_length Hl) as Hlen.
  destruct l as [|e1 [|e2 [|e3 l]]]; try done.
  apply StronglySorted_cons in Hsorted as [Hall _].
  apply Forall_cons in Hall as [Hbefore _]. unfold rowMajorBefore in Hbefore.
  apply elem_of_cons in Hw as [<-|Hw]; [done|].
  apply list_elem_of_singleton in Hw as <-. simpl in Hbefore. by destruct (y e1).
Qed.

(** ** The store across transformItems *)

Lemma elem_of_hintLocs (item : Item) (l : loc) :
  l ∈ hintLocs item
  ↔ columnOffset item = Some l ∨ columnSpan item = Some l ∨ rowSpan item = Some l.
Proof.
  unfold hintLocs. rewrite !elem_of_app.
  destruct (columnOffset item), (columnSpan item), (rowSpan item); simpl;
    rewrite ?list_elem_of_singleton, ?elem_of_nil;
    split; intros; intuition congruence.
Qed.

Lemma writeItemSetting_spec (τ τ' : Store) (item item' : Item) (name : SettingName)
    (layout : number) (value : Z) :
  writeItemSetting τ item name layout value = (τ', item') →
  (∀ l, getSetting name item = Some l → l ∈ dom τ) →
  ∃ l, getSetting name item' = Some l
       ∧ (∀ n, n ≠ name → getSetting n item' = getSetting n item)
       ∧ match getSetting name item with
         | Some l0 => l = l0
         | None => l ∉ dom τ
         end
       ∧ τ' = <[l := <[layout := value]> (default ∅ (τ !! l))]> τ.
Proof.
  unfold writeItemSetting. intros Hwrite Halloc.
  destruct (getSetting name item) as [l|] eqn:Hget.
  - injection Hwrite as <- <-. exists l. split_and!; [done|done|done|].
    destruct (proj1 (elem_of_dom _ _) (Halloc l eq_refl)) as [m Hm]. rewrite Hm. simpl.
    apply map_eq. intros l'. destruct (decide (l = l')) as [<-|Hne].
    + by rewrite lookup_alter_eq, lookup_insert_eq, Hm.
    + by rewrite lookup_alter_ne, lookup_insert_ne.
  - unfold allocSetting in Hwrite. injection Hwrite as <- <-.
    set (l := fresh (dom τ)).
    assert (l ∉ dom τ) as Hfresh by apply is_fresh.
    exists l. split_and!.
    + by destruct name.
    + intros n Hn. by destruct name, n.
    + done.
    + rewrite (not_elem_of_dom_1 _ _ Hfresh). simpl.
      by rewrite alter_insert_eq.
Qed.

Lemma transformItem_spec (src : list Item) (g : GridLayout) (changeFrom : Z)
    (τ τ' : Store) (index : nat) (e : GridLayoutItem) (o : Item) :
  allocated τ src →
  transformItem src g changeFrom τ index e = Ok (τ', o) →
  ∃ s lo ls lr,
    itemById src !! item_id e = Some s
    ∧ columnOffset o = Some lo ∧ columnSpan o = Some ls ∧ rowSpan o = Some lr
    ∧ origin τ (if bool_decide (changeFrom ≤ Z.of_nat index) then None
                else columnOffset s) lo
    ∧ let τ1 := <[lo := <[Num (columns g) := x e]> (default ∅ (τ !! lo))]> τ in
      origin τ1 (columnSpan s) ls
      ∧ let τ2 := <[ls := <[Num (columns g) := width e]> (default ∅ (τ1 !! ls))]> τ1 in
        origin τ2 (rowSpan s) lr
        ∧ τ' = <[lr := <[rows g := height e]> (default ∅ (τ2 !! lr))]> τ2.
Proof.
  intros Halloc. unfold transformItem, getItem.
  destruct (itemById src !! item_id e) as [s|] eqn:Hs; [|done]. simpl.
  pose proof (itemById_Some _ _ _ Hs) as [Hin _].
  assert (∀ l, l ∈ hintLocs s → l ∈ dom τ) as Hlocs by (intros l; by apply Halloc).
  setoid_rewrite elem_of_hintLocs in Hlocs.
  set (s0 := if bool_decide _ then _ else s).
  assert (columnSpan s0 = columnSpan s ∧ rowSpan s0 = rowSpan s
          ∧ columnOffset s0 = if bool_decide (changeFrom ≤ Z.of_nat index)
                              then None else columnOffset s) as (Hs0s & Hs0r & Hs0o).
  { unfold s0. by case_bool_decide. }
  destruct (writeItemSetting τ s0 _ _ _) as [τ1 i1] eqn:H1.
  destruct (writeItemSetting τ1 i1 _ _ _) as [τ2 i2] eqn:H2.
  destruct (writeItemSetting τ2 i2 _ _ _) as [τ3 i3] eqn:H3.
  intros [= <- <-].
  apply writeItemSetting_spec in H1 as (lo & Hlo & Hkeep1 & Horig1 & ->).
  2:{ simpl. rewrite Hs0o. case_bool_decide; [done|]. intros l Hl. apply Hlocs. auto. }
  pose proof (Hkeep1 ColumnSpanName ltac:(done)) as Hcs1.
  pose proof (Hkeep1 RowSpanName ltac:(done)) as Hrs1. simpl in Hlo, Hcs1, Hrs1.
  apply writeItemSetting_spec in H2 as (ls & Hls & Hkeep2 & Horig2 & ->).
  2:{ simpl. rewrite Hcs1, Hs0s. intros l Hl. rewrite dom_insert_L.
      apply elem_of_union. right. apply Hlocs. auto. }
  pose proof (Hkeep2 ColumnOffsetName ltac:(done)) as Hco2.
  pose proof (Hkeep2 RowSpanName ltac:(done)) as Hrs2. simpl in Hls, Hco2, Hrs2.
  apply writeItemSetting_spec in H3 as (lr & Hlr & Hkeep3 & Horig3 & ->).
  2:{ simpl. rewrite Hrs2, Hrs1, Hs0r. intros l Hl. rewrite !dom_insert_L.
      apply elem_of_union. right. apply elem_of_union. right. apply Hlocs. auto. }
  pose proof (Hkeep3 ColumnOffsetName ltac:(done)) as Hco3.
  pose proof (Hkeep3 ColumnSpanName ltac:(done)) as Hcs3. simpl in Hlr, Hco3, Hcs3.
  simpl in Horig1, Horig2, Horig3.
  rewrite Hs0o in Horig1. rewrite Hcs1, Hs0s in Horig2.
  rewrite Hrs2, Hrs1, Hs0r in Horig3.
  exists s, lo, ls, lr. split_and!; try done; congruence.
Qed.

(** What one iteration of the main loop does to the store. *)
Lemma transformItem_effect (src : list Item) (g : GridLayout) (changeFrom : Z)
    (τ τ' : Store) (index : nat) (e : GridLayoutItem) (o : Item) :
  allocated τ src →
  transformItem src g changeFrom τ index e = Ok (τ', o) →
  ∃ s lo ls lr,
    itemById src !! item_id e = Some s
    ∧ columnOffset o = Some lo ∧ columnSpan o = Some ls ∧ rowSpan o = Some lr
    ∧ origin τ (if bool_decide (changeFrom ≤ Z.of_nat index) then None
                else columnOffset s) lo
    ∧ origin τ (columnSpan s) ls
    ∧ origin τ (rowSpan s) lr
    ∧ (lo ∉ dom τ → lo ≠ ls ∧ lo ≠ lr)
    ∧ (ls ∉ dom τ → ls ≠ lr)
    ∧ dom τ ⊆ dom τ'
    ∧ (∀ l, l ≠ lo → l ≠ ls → l ≠ lr → τ' !! l = τ !! l)
    ∧ (∀ l k, k ≠ Num (columns g) → k ≠ rows g →
         default ∅ (τ' !! l) !! k = default ∅ (τ !! l) !! k)
    ∧ (lo ≠ ls → lo ≠ lr →
         τ' !! lo = Some (<[Num (columns g) := x e]> (default ∅ (τ !! lo))))
    ∧ (ls ≠ lo → ls ≠ lr →
         τ' !! ls = Some (<[Num (columns g) := width e]> (default ∅ (τ !! ls)))).
Proof.
  intros Halloc Hitem.
  destruct (transformItem_spec _ _ _ _ _ _ _ _ Halloc Hitem)
    as (s & lo & ls & lr & Hs & Ho & Hsp & Hr & Horig1 & Horig2 & Horig3 & ->).
  pose proof (itemById_Some _ _ _ Hs) as [Hin _].
  assert (∀ l, l ∈ hintLocs s → l ∈ dom τ) as Hlocs by (intros l; by apply Halloc).
  setoid_rewrite elem_of_hintLocs in Hlocs.
  set (τ1 := <[lo := _]> τ) in *. set (τ2 := <[ls := _]> τ1) in *.
  assert (dom τ1 = {[lo]} ∪ dom τ) as Hdom1 by apply dom_insert_L.
  assert (dom τ2 = {[ls]} ∪ dom τ1) as Hdom2 by apply dom_insert_L.
  assert (origin τ (columnSpan s) ls ∧ (columnSpan s = None → ls ≠ lo))
    as [Horig2' Hls_lo].
  { unfold origin in *. destruct (columnSpan s); [done|].
    rewrite Hdom1 in Horig2.
    apply not_elem_of_union in Horig2 as [Hne%not_elem_of_singleton Hnot].
    done. }
  assert (origin τ (rowSpan s) lr ∧ (rowSpan s = None → lr ≠ lo ∧ lr ≠ ls))
    as [Horig3' Hlr_fresh].
  { unfold origin in *. destruct (rowSpan s); [done|].
    rewrite Hdom2, Hdom1 in Horig3.
    apply not_elem_of_union in Horig3 as [Hne1%not_elem_of_singleton Hnot].
    apply not_elem_of_union in Hnot as [Hne2%not_elem_of_singleton Hnot].
    done. }
  exists s, lo, ls, lr. split_and!; try done.
  - intros Hfresh. split.
    + unfold origin in Horig2'. destruct (columnSpan s) as [l|] eqn:E.
      * subst l. intros Heq. apply Hfresh. rewrite Heq. apply Hlocs. auto.
      * intros Heq. by apply Hls_lo.
    + unfold origin in Horig3'. destruct (rowSpan s) as [l|] eqn:E.
      * subst l. intros Heq. apply Hfresh. rewrite Heq. apply Hlocs. auto.
      * intros Heq. destruct Hlr_fresh as [Hne _]; [done|]. by apply Hne.
  - intros Hfresh.
    unfold origin in Horig3'. destruct (rowSpan s) as [l|] eqn:E.
    + subst l. intros Heq. apply Hfresh. rewrite Heq. apply Hlocs. auto.
    + intros Heq. destruct Hlr_fresh as [_ Hne]; [done|]. by apply Hne.
  - rewrite dom_insert_L, Hdom2, Hdom1.
    intros l Hl. rewrite !elem_of_union. auto.
  - intros l Hlo Hls Hlr. unfold τ2, τ1. by rewrite !lookup_insert_ne.
  - intros l k Hk1 Hk2.
    assert (∀ (υ : Store) l0 key v,
              key ≠ k →
              default ∅ (<[l0 := <[key := v]> (default ∅ (υ !! l0))]> υ !! l) !! k
              = default ∅ (υ !! l) !! k) as Hstep.
    { intros υ l0 key v Hkey. destruct (decide (l0 = l)) as [->|Hne].
      - rewrite lookup_insert_eq. simpl. by rewrite lookup_insert_ne.
      - by rewrite lookup_insert_ne. }
    rewrite Hstep; [|done]. unfold τ2. rewrite Hstep; [|done].
    unfold τ1. by rewrite Hstep.
  - intros Hne1 Hne2. rewrite lookup_insert_ne; [|done]. unfold τ2.
    rewrite lookup_insert_ne; [|done]. unfold τ1. by rewrite lookup_insert_eq.
  - intros Hne1 Hne2. rewrite lookup_insert_ne; [|done]. unfold τ2.
    rewrite lookup_insert_eq. unfold τ1. by rewrite lookup_insert_ne.
Qed.

Lemma allocated_mono (τ τ' : Store) (src : list Item) :
  dom τ ⊆ dom τ' → allocated τ src → allocated τ' src.
Proof. intros Hsub Halloc item l Hitem Hl. apply Hsub. by eapply Halloc. Qed.

Lemma origin_not_fresh (τ : Store) (s : Item) (old : option loc) (l l' : loc) :
  origin τ old l → (∀ l0, old = Some l0 → l0 ∈ hintLocs s) →
  l' ∈ dom τ → l' ∉ hintLocs s → l' ≠ l.
Proof.
  unfold origin. intros Horig Hold Hdom Hnot ->. destruct old as [l0|].
  - subst l0. apply Hnot. by apply Hold.
  - done.
Qed.

(** What the main loop does to the store. *)
Lemma transform_loop_effect (src : list Item) (g : GridLayout) (changeFrom : Z)
    (τ τ' : Store) (index : nat) (l : list GridLayoutItem) (out : list Item) :
  allocated τ src →
  transform_loop src g changeFrom τ index l = Ok (τ', out) →
  dom τ ⊆ dom τ'
  ∧ (∀ a, a ∈ dom τ →
       (∀ e s, e ∈ l → itemById src !! item_id e = Some s → a ∉ hintLocs s) →
       τ' !! a = τ !! a)
  ∧ (∀ a k, k ≠ Num (columns g) → k ≠ rows g →
       default ∅ (τ' !! a) !! k = default ∅ (τ !! a) !! k).
Proof.
  revert τ index out. induction l as [|e l IH]; intros τ index out Halloc; simpl.
  - intros [= <- <-]. done.
  - destruct (transformItem src g changeFrom τ index e) as [[τ1 item]|] eqn:Hitem;
      [|done]. simpl.
    destruct (transform_loop src g changeFrom τ1 (S index) l) as [[τ2 rest]|] eqn:Hrest;
      [|done]. simpl.
    intros [= <- <-].
    destruct (transformItem_effect _ _ _ _ _ _ _ _ Halloc Hitem)
      as (s & lo & ls & lr & Hs & _ & _ & _ & Ho & Hsp & Hr & _ & _
          & Hdom & Hframe & Hkeys & _).
    destruct (IH τ1 (S index) rest (allocated_mono _ _ _ Hdom Halloc) Hrest)
      as (Hdom' & Hframe' & Hkeys').
    split_and!.
    + by etrans.
    + intros a Ha Hnot. rewrite Hframe'.
      * assert (a ∉ hintLocs s) as Has by (eapply Hnot; [by left|done]).
        apply Hframe.
        -- eapply origin_not_fresh; [exact Ho| |done|done].
           case_bool_decide; [done|]. intros l0 Hl0.
           apply elem_of_hintLocs. auto.
        -- eapply origin_not_fresh; [exact Hsp| |done|done].
           intros l0 Hl0. apply elem_of_hintLocs. auto.
        -- eapply origin_not_fresh; [exact Hr| |done|done].
           intros l0 Hl0. apply elem_of_hintLocs. auto.
      * by apply Hdom.
      * intros e' s' He'. apply Hnot. by right.
    + intros a k Hk1 Hk2. by rewrite Hkeys', Hkeys.
Qed.

Lemma transform_loop_lookup (src : list Item) (g : GridLayout) (changeFrom : Z)
    (τ τ' : Store) (index : nat) (l : list GridLayoutItem) (out : list Item)
    (i : nat) (e : GridLayoutItem) (o : Item) :
  transform_loop src g changeFrom τ index l = Ok (τ', out) →
  l !! i = Some e → out !! i = Some o →
  ∃ τa τb,
    transform_loop src g changeFrom τ index (take i l) = Ok (τa, take i out)
    ∧ transformItem src g changeFrom τa (index + i) e = Ok (τb, o)
    ∧ transform_loop src g changeFrom τb (S (index + i)) (drop (S i) l)
      = Ok (τ', drop (S i) out).
Proof.
  revert τ index out i. induction l as [|e0 l IH]; intros τ index out i; [done|].
  simpl.
  destruct (transformItem src g changeFrom τ index e0) as [[τ1 item]|] eqn:Hitem;
    [|done]. simpl.
  destruct (transform_loop src g changeFrom τ1 (S index) l) as [[τ2 rest]|] eqn:Hrest;
    [|done]. simpl.
  intros [= <- <-]. destruct i as [|i]; simpl.
  - intros [= <-] [= <-]. exists τ, τ1. rewrite Nat.add_0_r, drop_0. done.
  - intros He Ho. destruct (IH _ _ _ _ Hrest He Ho) as (τa & τb & Hpre & Hstep & Hpost).
    exists τa, τb. rewrite Hitem. simpl. rewrite Hpre. simpl.
    replace (index + S i)%nat with (S index + i)%nat by lia. done.
Qed.

(** ** The change index *)

Lemma findIndex_loop_spec (src : list Item) (l : list GridLayoutItem)
    (index : nat) (found : option nat) :
  findIndex_loop src l index = Ok found →
  match found with
  | Some i =>
      (index ≤ i)%nat
      ∧ ∃ s e, src !! i = Some s ∧ l !! (i - index)%nat = Some e ∧ id s ≠ item_id e
               ∧ ∀ j s' e', (index ≤ j < i)%nat → src !! j = Some s' →
                   l !! (j - index)%nat = Some e' → id s' = item_id e'
  | None =>
      ∀ j s' e', (index ≤ j)%nat → src !! j = Some s' →
        l !! (j - index)%nat = Some e' → id s' = item_id e'
  end.
Proof.
  revert index. induction l as [|e l IH]; intros index; simpl.
  - intros [= <-]. intros j s' e' _ _ He'. by rewrite lookup_nil in He'.
  - destruct (src !! index) as [s|] eqn:Hs; [|done].
    case_bool_decide as Hid.
    + intros [= <-]. split; [done|]. exists s, e.
      rewrite Nat.sub_diag. split_and!; [done|done|done|]. intros; lia.
    + intros Hrest. apply IH in Hrest.
      assert (id s = item_id e) as Hsame.
      { destruct (decide (id s = item_id e)); [done|]. by destruct Hid. }
      destruct found as [i|].
      * destruct Hrest as (Hle & s1 & e1 & Hs1 & He1 & Hne & Hbefore).
        split; [lia|]. exists s1, e1.
        replace (i - index)%nat with (S (i - S index)) by lia.
        split_and!; [done|done|done|].
        intros j s' e' Hj Hs' He'. destruct (decide (j = index)) as [->|].
        -- rewrite Nat.sub_diag in He'. simpl in He'. congruence.
        -- apply (Hbefore j); [lia|done|].
           replace (j - index)%nat with (S (j - S index)) in He' by lia. done.
      * intros j s' e' Hj Hs' He'. destruct (decide (j = index)) as [->|].
        -- rewrite Nat.sub_diag in He'. simpl in He'. congruence.
        -- apply (Hrest j); [lia|done|].
           replace (j - index)%nat with (S (j - S index)) in He' by lia. done.
Qed.

Lemma changeFromIndex_spec (src : list Item) (sorted : list GridLayoutItem) (cf : Z) :
  changeFromIndex src sorted = Ok cf → isChangeIndex src sorted cf.
Proof.
  unfold changeFromIndex.
  destruct (findIndex_loop src sorted 0) as [found|] eqn:Hfound; [|done].
  simpl. intros [= <-]. apply findIndex_loop_spec in Hfound.
  destruct found as [i|].
  - left. destruct Hfound as (_ & s & e & Hs & He & Hne & Hbefore).
    rewrite Nat.sub_0_r in He. exists i, s, e. split_and!; try done.
    intros j s' e' Hj Hs' He'. apply (Hbefore j); [lia|done|].
    by rewrite Nat.sub_0_r.
  - right. split; [|done]. intros j s' e' Hs' He'.
    apply (Hfound j); [lia|done|]. by rewrite Nat.sub_0_r.
Qed.

(** ** Offsets across transformItems *)

(** C4, as the code has it, for a grid that has a strict reading order
    [sorted], that is, whose entries start on pairwise different cells of
    numbered rows: transformItems determines the first index at which that
    order departs from the order of the source items, or the last index when
    it never does. Every item at or after that index ends with an offset
    object that holds the current column count's offset and nothing else.
    Every item before it keeps its own offset object, and the entries of that
    object under other keys are as they were; the key of the grid's row count
    is set aside, since that is where the rowSpan of an item sharing the
    object would be written. *)
Theorem transformItems_offsets (σ σ' : Store) (src : list Item) (g : GridLayout)
    (sorted : list GridLayoutItem) (out : list Item) :
  allocated σ src →
  readingOrder (items g) sorted →
  transformItems σ src g = Ok (σ', out) →
  ∃ cf,
    changeFromIndex src sorted = Ok cf
    ∧ isChangeIndex src sorted cf
    ∧ ∀ (i : nat) e o, sorted !! i = Some e → out !! i = Some o →
        ∃ s, itemById src !! item_id e = Some s
             ∧ (cf ≤ Z.of_nat i →
                  settingOf σ' (columnOffset o) = {[ Num (columns g) := x e ]})
             ∧ (Z.of_nat i < cf →
                  (∀ l, columnOffset s = Some l → columnOffset o = Some l)
                  ∧ ∀ k, k ≠ Num (columns g) → k ≠ rows g →
                      settingOf σ' (columnOffset o) !! k
                      = settingOf σ (columnOffset s) !! k).
Proof.
  intros Halloc Horder Htransform. apply sort_readingOrder in Horder as <-.
  set (sorted := sort itemComparator (items g)).
  unfold transformItems in Htransform. fold sorted in Htransform.
  destruct (changeFromIndex src sorted) as [cf|] eqn:Hcf; [|done].
  simpl in Htransform. exists cf. split_and!; [done|by apply changeFromIndex_spec|].
  intros i e o He Ho.
  destruct (transform_loop_lookup _ _ _ _ _ _ _ _ _ _ _ Htransform He Ho)
    as (τa & τb & Hpre & Hstep & Hpost).
  destruct (transform_loop_effect _ _ _ _ _ _ _ _ Halloc Hpre) as (Hdoma & _ & Hkeysa).
  pose proof (allocated_mono _ _ _ Hdoma Halloc) as Halloca.
  destruct (transformItem_effect _ _ _ _ _ _ _ _ Halloca Hstep)
    as (s & lo & ls & lr & Hs & Hlo & _ & _ & Horig & _ & _ & Hfresh & _
        & Hdomb & _ & Hkeysb & Hwritten & _).
  pose proof (allocated_mono _ _ _ Hdomb Halloca) as Hallocb.
  destruct (transform_loop_effect _ _ _ _ _ _ _ _ Hallocb Hpost)
    as (_ & Hframe & Hkeys).
  simpl in Horig.
  assert (lo ∉ dom τa → settingOf σ' (columnOffset o) = {[ Num (columns g) := x e ]})
    as Hcleared.
  { intros Hnew. destruct (Hfresh Hnew) as [Hne1 Hne2].
    rewrite Hlo. unfold settingOf. simpl. rewrite Hframe.
    - rewrite (Hwritten Hne1 Hne2). simpl.
      by rewrite (not_elem_of_dom_1 _ _ Hnew).
    - apply elem_of_dom. rewrite (Hwritten Hne1 Hne2). by eexists.
    - intros e' s' _ Hs' Hin. apply Hnew.
      apply (Halloca s'); [|done]. by apply itemById_Some in Hs' as [? _]. }
  exists s. split_and!; [done| |].
  - intros Hafter. rewrite bool_decide_eq_true_2 in Horig; [|lia].
    by apply Hcleared.
  - intros Hbefore. rewrite bool_decide_eq_false_2 in Horig; [|lia].
    unfold origin in Horig. destruct (columnOffset s) as [l|] eqn:Hold.
    + subst l. split; [by intros l [= <-]|]. intros k Hk1 Hk2.
      rewrite Hlo. unfold settingOf. simpl.
      by rewrite Hkeys, Hkeysb, Hkeysa.
    + split; [done|]. intros k Hk1 Hk2. rewrite (Hcleared Horig).
      unfold settingOf. simpl. by rewrite lookup_singleton_ne, lookup_empty.
Qed.

Lemma allocated_Forall (σ : Store) (src : list Item) :
  Forall (λ item, Forall (λ l, l ∈ dom σ) (hintLocs item)) src → allocated σ src.
Proof.
  intros Hall item l Hitem Hl.
  apply (proj1 (Forall_forall _ _) Hall) in Hitem.
  by apply (proj1 (Forall_forall _ _) Hitem).
Qed.

Lemma transformItems_offsets_witness :
  ∃ σ' out,
    transformItems sampleStore twoPinned twoAcross = Ok (σ', out)
    ∧ ∃ cf,
        changeFromIndex twoPinned (items twoAcross) = Ok cf
        ∧ isChangeIndex twoPinned (items twoAcross) cf
        ∧ ∀ (i : nat) e o,
            items twoAcross !! i = Some e → out !! i = Some o →
            ∃ s, itemById twoPinned !! item_id e = Some s
                 ∧ (cf ≤ Z.of_nat i →
                      settingOf σ' (columnOffset o) = {[ Num (columns twoAcross) := x e ]})
                 ∧ (Z.of_nat i < cf →
                      (∀ l, columnOffset s = Some l → columnOffset o = Some l)
                      ∧ ∀ k, k ≠ Num (columns twoAcross) → k ≠ rows twoAcross →
                          settingOf σ' (columnOffset o) !! k
                          = settingOf sampleStore (columnOffset s) !! k).
Proof.
  eexists _, _. split; [vm_compute; reflexivity|].
  apply (transformItems_offsets sampleStore _ twoPinned twoAcross (items twoAcross)).
  - apply allocated_Forall. repeat constructor; compute_done.
  - split; [done|]. compute_done.
  - vm_compute. reflexivity.
Defined.

(** C4 as stated fails in its last clause. The grid [twoAcross] shows the
    items of [twoPinned] in their own order, so the order departs at no
    index; still the last item, [b], loses the offset 9 it had stored for the
    2-column board, because the change index then is the last index. The
    second input shows why the row-count key is set aside: an offset object
    that is also the item's rowSpan object receives the height under that
    key. *)
Lemma last_item_offsets_cleared :
  findIndex_loop twoPinned (sort itemComparator (items twoAcross)) 0 = Ok None
  ∧ settingOf sampleStore (Some 3%positive) = {[ Num 2 := 9 ]}
  ∧ hintsAfter ColumnOffsetName sampleStore twoPinned twoAcross
    = Some [ {[ Num 2 := 7; Num 3 := 0 ]}; {[ Num 3 := 1 ]} ]
  ∧ hintsAfter ColumnOffsetName sampleStore sharedOffsetObject twoAcross
    = Some [ {[ Num 2 := 2; Num 3 := 0 ]}; {[ Num 3 := 1 ]} ].
Proof. vm_compute. split_and!; reflexivity. Qed.

(** ** Hints of the current column count *)

Lemma unshared_disjoint (src : list Item) (s1 s2 : Item) (l : loc) :
  unshared src → s1 ∈ src → s2 ∈ src → s1 ≠ s2 →
  l ∈ hintLocs s1 → l ∉ hintLocs s2.
Proof.
  unfold unshared. induction src as [|a src IH]; [by intros _ ?%elem_of_nil|].
  rewrite bind_cons. intros (_ & Hcross & Hrest)%NoDup_app.
  intros [->|H1]%elem_of_cons [->|H2]%elem_of_cons Hne Hl1 Hl2.
  - done.
  - apply (Hcross l Hl1). apply list_elem_of_bind. by exists s2.
  - apply (Hcross l Hl2). apply list_elem_of_bind. by exists s1.
  - by apply (IH Hrest H1 H2 Hne Hl1).
Qed.

Lemma unshared_NoDup (src : list Item) (s : Item) :
  unshared src → s ∈ src → NoDup (hintLocs s).
Proof.
  unfold unshared. induction src as [|a src IH]; [by intros _ ?%elem_of_nil|].
  rewrite bind_cons. intros (Hhere & _ & Hrest)%NoDup_app.
  intros [->|Hin]%elem_of_cons; [done|by apply IH].
Qed.

Lemma other_entry_other_id (l : list GridLayoutItem) (i : nat) (e e' : GridLayoutItem) :
  NoDup (item_id <$> l) → l !! i = Some e →
  e' ∈ take i l ∨ e' ∈ drop (S i) l → item_id e' ≠ item_id e.
Proof.
  intros Hnd He Hin Heq.
  assert (∃ j, j ≠ i ∧ l !! j = Some e') as (j & Hj & He').
  { destruct Hin as [(j & Hj)%list_elem_of_lookup|(j & Hj)%list_elem_of_lookup].
    - apply lookup_take_Some in Hj as [Hj Hlt]. exists j. split; [lia|done].
    - rewrite lookup_drop in Hj. exists (S i + j)%nat. split; [lia|done]. }
  apply Hj. eapply (NoDup_lookup _ _ _ _ Hnd).
  - by rewrite list_lookup_fmap, He'.
  - by rewrite list_lookup_fmap, He, Heq.
Qed.

(** C5, as the code has it for columnOffset and columnSpan: when the grid
    has a strict reading order [sorted] (its entries start on pairwise
    different cells of numbered rows), its ids are distinct and no hint
    object is shared, each returned item has, under the key of the grid's
    column count, its [x] as columnOffset and its [width] as columnSpan; the
    columnSpan entries under all other keys are those of the source item,
    and so are the columnOffset entries of an item before the change index,
    while an item at or after the change index keeps no other columnOffset
    entry. *)
Theorem transformItems_current_key (σ σ' : Store) (src : list Item) (g : GridLayout)
    (sorted : list GridLayoutItem) (out : list Item) :
  allocated σ src → unshared src → NoDup (item_id <$> items g) →
  readingOrder (items g) sorted →
  transformItems σ src g = Ok (σ', out) →
  ∃ cf,
    changeFromIndex src sorted = Ok cf
    ∧ ∀ (i : nat) e o, sorted !! i = Some e → out !! i = Some o →
        ∃ s, itemById src !! item_id e = Some s
             ∧ settingOf σ' (columnSpan o)
               = <[Num (columns g) := width e]> (settingOf σ (columnSpan s))
             ∧ settingOf σ' (columnOffset o)
               = <[Num (columns g) := x e]>
                   (if bool_decide (cf ≤ Z.of_nat i) then ∅
                    else settingOf σ (columnOffset s)).
Proof.
  intros Halloc Hunshared Hids Horder Htransform.
  apply sort_readingOrder in Horder as <-.
  set (sorted := sort itemComparator (items g)).
  unfold transformItems in Htransform. fold sorted in Htransform.
  assert (NoDup (item_id <$> sorted)) as Hids'.
  { unfold sorted. by rewrite sort_perm. }
  destruct (changeFromIndex src sorted) as [cf|] eqn:Hcf; [|done].
  simpl in Htransform. exists cf. split; [done|].
  intros i e o He Ho.
  destruct (transform_loop_lookup _ _ _ _ _ _ _ _ _ _ _ Htransform He Ho)
    as (τa & τb & Hpre & Hstep & Hpost).
  destruct (transform_loop_effect _ _ _ _ _ _ _ _ Halloc Hpre) as (Hdoma & Hframea & _).
  pose proof (allocated_mono _ _ _ Hdoma Halloc) as Halloca.
  destruct (transformItem_effect _ _ _ _ _ _ _ _ Halloca Hstep)
    as (s & lo & ls & lr & Hs & Hlo & Hls & Hlr & Horigo & Horigs & Horigr
        & Hfresho & Hfreshs & Hdomb & _ & _ & Hwo & Hws).
  pose proof (allocated_mono _ _ _ Hdomb Halloca) as Hallocb.
  destruct (transform_loop_effect _ _ _ _ _ _ _ _ Hallocb Hpost)
    as (_ & Hframeb & _).
  pose proof (itemById_Some _ _ _ Hs) as [Hsin Hsid].
  pose proof (unshared_NoDup _ _ Hunshared Hsin) as Hown.
  simpl in Horigo.
  (* the objects of the other entries are not those of this one *)
  assert (∀ e' s' a, e' ∈ take i sorted ∨ e' ∈ drop (S i) sorted →
            itemById src !! item_id e' = Some s' →
            a ∈ hintLocs s → a ∉ hintLocs s') as Hothers.
  { intros e' s' a He' Hs' Ha. apply itemById_Some in Hs' as [Hs'in Hs'id].
    eapply (unshared_disjoint src s s'); try done.
    intros ->. eapply other_entry_other_id; [done|done|done|]. congruence. }
  (* what the caller reads from an object of this entry after the call *)
  assert (∀ old a v,
            origin τa old a → (∀ a0, old = Some a0 → a0 ∈ hintLocs s) →
            τb !! a = Some (<[Num (columns g) := v]> (default ∅ (τa !! a))) →
            settingOf σ' (Some a) = <[Num (columns g) := v]> (settingOf σ old))
    as Hread.
  { intros old a v Horig Hold Hwritten. unfold settingOf. simpl.
    assert (σ' !! a = τb !! a) as ->.
    { apply Hframeb; [apply elem_of_dom; rewrite Hwritten; by eexists|].
      intros e' s' He' Hs'. unfold origin in Horig. destruct old as [a0|].
      - subst a0. eapply Hothers; [by right|done|by apply Hold].
      - intros Hin. apply Horig. apply (Halloca s'); [|done].
        by apply itemById_Some in Hs' as [? _]. }
    rewrite Hwritten. simpl. f_equal.
    unfold origin in Horig. destruct old as [a0|]; simpl.
    - subst a0. f_equal. apply Hframea.
      + apply (Halloc s); [done|by apply Hold].
      + intros e' s' He' Hs'. eapply Hothers; [by left|done|by apply Hold].
    - by rewrite (not_elem_of_dom_1 _ _ Horig). }
  (* the three objects of this entry are pairwise different *)
  assert (∀ old1 old2 a1 a2,
            origin τa old1 a1 → origin τa old2 a2 →
            (∀ a0, old1 = Some a0 → a0 ∈ dom τa) →
            (∀ a0, old2 = Some a0 → a0 ∈ dom τa) →
            (∀ b1 b2, old1 = Some b1 → old2 = Some b2 → b1 ≠ b2) →
            (a1 ∉ dom τa → a2 ∉ dom τa → a1 ≠ a2) → a1 ≠ a2) as Hdiff.
  { intros old1 old2 a1 a2 H1 H2 Hd1 Hd2 Hsrc Hnew. unfold origin in H1, H2.
    destruct old1 as [b1|], old2 as [b2|].
    - subst. by apply Hsrc.
    - subst. intros ->. apply H2. by apply Hd1.
    - subst. intros ->. apply H1. by apply Hd2.
    - by apply Hnew. }
  assert (∀ a0, a0 ∈ hintLocs s → a0 ∈ dom τa) as Hsdom
    by (intros a0; by apply Halloca).
  setoid_rewrite elem_of_hintLocs in Hsdom.
  unfold hintLocs in Hown. apply NoDup_app in Hown as (_ & Hown1 & Hown2).
  apply NoDup_app in Hown2 as (_ & Hown2 & _).
  assert (lo ≠ ls) as Hols.
  { eapply Hdiff; [exact Horigo|exact Horigs| | | |].
    - case_bool_decide; [done|]. intros a0 Ha0. apply Hsdom. auto.
    - intros a0 Ha0. apply Hsdom. auto.
    - case_bool_decide; [done|]. intros b1 b2 Hb1 Hb2 ->.
      apply (Hown1 b2); [by rewrite Hb1; left|].
      apply elem_of_app. left. rewrite Hb2. by left.
    - intros Hnew _. by apply Hfresho. }
  assert (lo ≠ lr) as Holr.
  { eapply Hdiff; [exact Horigo|exact Horigr| | | |].
    - case_bool_decide; [done|]. intros a0 Ha0. apply Hsdom. auto.
    - intros a0 Ha0. apply Hsdom. auto.
    - case_bool_decide; [done|]. intros b1 b2 Hb1 Hb2 ->.
      apply (Hown1 b2); [by rewrite Hb1; left|].
      apply elem_of_app. right. rewrite Hb2. by left.
    - intros Hnew _. by apply Hfresho. }
  assert (ls ≠ lr) as Hslr.
  { eapply Hdiff; [exact Horigs|exact Horigr| | | |].
    - intros a0 Ha0. apply Hsdom. auto.
    - intros a0 Ha0. apply Hsdom. auto.
    - intros b1 b2 Hb1 Hb2 ->.
      apply (Hown2 b2); [by rewrite Hb1; left|]. rewrite Hb2. by left.
    - intros Hnew _. by apply Hfreshs. }
  exists s. split_and!; [done| |].
  - rewrite Hls. apply (Hread (columnSpan s)); [done| |by apply Hws].
    intros a0 Ha0. apply elem_of_hintLocs. auto.
  - rewrite Hlo.
    rewrite (Hread _ lo (x e) Horigo); [by case_bool_decide| |by apply Hwo].
    case_bool_decide; [done|]. intros a0 Ha0. apply elem_of_hintLocs. auto.
Qed.

Lemma transformItems_current_key_witness :
  ∃ σ' out,
    transformItems sampleStore twoPinned twoAcross = Ok (σ', out)
    ∧ ∃ cf,
        changeFromIndex twoPinned (items twoAcross) = Ok cf
        ∧ ∀ (i : nat) e o,
            items twoAcross !! i = Some e → out !! i = Some o →
            ∃ s, itemById twoPinned !! item_id e = Some s
                 ∧ settingOf σ' (columnSpan o)
                   = <[Num (columns twoAcross) := width e]>
                       (settingOf sampleStore (columnSpan s))
                 ∧ settingOf σ' (columnOffset o)
                   = <[Num (columns twoAcross) := x e]>
                       (if bool_decide (cf ≤ Z.of_nat i) then ∅
                        else settingOf sampleStore (columnOffset s)).
Proof.
  eexists _, _. split; [vm_compute; reflexivity|].
  apply (transformItems_current_key sampleStore _ twoPinned twoAcross (items twoAcross)).
  - apply allocated_Forall. repeat constructor; compute_done.
  - unfold unshared. compute_done.
  - compute_done.
  - split; [done|]. compute_done.
  - vm_compute. reflexivity.
Defined.

(** C5 as stated fails. For the single item of [onePinned] on the 3-column,
    2-row grid [oneCell], the offset 7 stored for the 2-column board is
    dropped, and the height is written as rowSpan under the key 2, the row
    count, over the rowSpan 1 stored for the 2-column board; no rowSpan is
    recorded for 3 columns. With a columnSpan object shared by two items,
    both end up with the width of the second. *)
Lemma hints_of_other_column_counts_change :
  settingOf sampleStore (Some 2%positive) = {[ Num 2 := 7 ]}
  ∧ hintsAfter ColumnOffsetName sampleStore onePinned oneCell
    = Some [ {[ Num 3 := 0 ]} ]
  ∧ settingOf sampleStore (Some 4%positive) = {[ Num 2 := 1 ]}
  ∧ hintsAfter RowSpanName sampleStore onePinned oneCell
    = Some [ {[ Num 2 := 2 ]} ]
  ∧ hintsAfter ColumnSpanName sampleStore sharedSpanObject twoWidths
    = Some [ {[ Num 3 := 2 ]}; {[ Num 3 := 2 ]} ].
Proof. vm_compute. split_and!; reflexivity. Qed.


(** * Further properties of the layout utilities *)

(** ** Settings keyed by column count *)

Lemma scanKeysDown_unfold (m : BoardItemLayoutSetting) (i : nat) :
  scanKeysDown m i
  = match m !! Num (Z.of_nat i) with
    | Some v => Some v
    | None => match i with O => None | S i' => scanKeysDown m i' end
    end.
Proof. by destruct i. Qed.

Lemma scanKeysDown_Some (m : BoardItemLayoutSetting) (i : nat) (v : Z) :
  scanKeysDown m i = Some v
  ↔ ∃ k, (k ≤ i)%nat ∧ m !! Num (Z.of_nat k) = Some v
         ∧ ∀ k', (k < k' ≤ i)%nat → m !! Num (Z.of_nat k') = None.
Proof.
  induction i as [|i IH]; rewrite scanKeysDown_unfold;
    destruct (m !! Num (Z.of_nat _)) as [v0|] eqn:Htop.
  - split.
    + intros [= <-]. exists 0%nat. split_and!; [lia|done|]. intros; lia.
    + intros (k & Hk & Hv & _). assert (k = 0%nat) as -> by lia. congruence.
  - split; [done|].
    intros (k & Hk & Hv & _). assert (k = 0%nat) as -> by lia. congruence.
  - split.
    + intros [= <-]. exists (S i). split_and!; [lia|done|]. intros; lia.
    + intros (k & Hk & Hv & Habove). destruct (decide (k = S i)) as [->|Hne].
      * congruence.
      * rewrite (Habove (S i)) in Htop; [done|lia].
  - rewrite IH. split.
    + intros (k & Hk & Hv & Habove). exists k. split_and!; [lia|done|].
      intros k' Hk'. destruct (decide (k' = S i)) as [->|Hne]; [done|].
      apply Habove. lia.
    + intros (k & Hk & Hv & Habove). destruct (decide (k = S i)) as [->|Hne].
      * congruence.
      * exists k. split_and!; [lia|done|]. intros k' Hk'. apply Habove. lia.
Qed.

Lemma scanKeysDown_None (m : BoardItemLayoutSetting) (i : nat) :
  scanKeysDown m i = None ↔ ∀ k, (k ≤ i)%nat → m !! Num (Z.of_nat k) = None.
Proof.
  induction i as [|i IH]; rewrite scanKeysDown_unfold;
    destruct (m !! Num (Z.of_nat _)) as [v0|] eqn:Htop.
  - split; [done|]. intros Hall. rewrite (Hall 0%nat) in Htop; [done|lia].
  - split; [|done]. intros _ k Hk. assert (k = 0%nat) as -> by lia. done.
  - split; [done|]. intros Hall. rewrite (Hall (S i)) in Htop; [done|lia].
  - rewrite IH. split.
    + intros Hall k Hk. destruct (decide (k = S i)) as [->|Hne]; [done|].
      apply Hall. lia.
    + intros Hall k Hk. apply Hall. lia.
Qed.

(** X1: a setting keyed by column count resolves to the entry of the nearest
    key at or below the column count, counting down to key 0; entries above
    the column count are ignored, and without any entry in that range, or
    without a setting object, the result is [MIN_COL_SPAN]. *)
Theorem getColumnSpanForColumns_nearest_key `{Constants}
    (m : BoardItemLayoutSetting) (ncols : Z) :
  (∀ k v, 0 ≤ k ≤ ncols → m !! Num k = Some v →
     (∀ k', k < k' ≤ ncols → m !! Num k' = None) →
     getColumnSpanForColumns (Some m) ncols = v)
  ∧ ((∀ k, 0 ≤ k ≤ ncols → m !! Num k = None) →
     getColumnSpanForColumns (Some m) ncols = MIN_COL_SPAN)
  ∧ getColumnSpanForColumns None ncols = MIN_COL_SPAN.
Proof.
  split_and!; [| |done].
  - intros k v Hk Hv Habove. unfold getColumnSpanForColumns.
    rewrite bool_decide_eq_false_2; [|lia].
    assert (scanKeysDown m (Z.to_nat ncols) = Some v) as ->; [|done].
    apply scanKeysDown_Some. exists (Z.to_nat k). split_and!.
    + lia.
    + by rewrite Z2Nat.id by lia.
    + intros k' Hk'. apply Habove. lia.
  - intros Hnone. unfold getColumnSpanForColumns. case_bool_decide; [done|].
    assert (scanKeysDown m (Z.to_nat ncols) = None) as ->; [|done].
    apply scanKeysDown_None. intros k Hk. apply Hnone. lia.
Qed.

Lemma getColumnSpanForColumns_nearest_key_witness :
  getColumnSpanForColumns (H := exampleConstants)
    (Some {[ Num 1 := 1; Num 2 := 2; Num 6 := 4 ]}) 4 = 2
  ∧ getColumnSpanForColumns (H := exampleConstants) (Some {[ Num 6 := 4 ]}) 4 = 1.
Proof.
  pose proof (getColumnSpanForColumns_nearest_key (H := exampleConstants)
                {[ Num 1 := 1; Num 2 := 2; Num 6 := 4 ]} 4) as (Hnear & _ & _).
  pose proof (getColumnSpanForColumns_nearest_key (H := exampleConstants)
                {[ Num 6 := 4 ]} 4) as (_ & Hnone & _).
  split.
  - apply (Hnear 2); [lia|reflexivity|].
    intros k' Hk'. assert (k' = 3 ∨ k' = 4) as [-> | ->] by lia; reflexivity.
  - apply Hnone. intros k Hk.
    assert (k = 0 ∨ k = 1 ∨ k = 2 ∨ k = 3 ∨ k = 4) as [->|[->|[->|[->| ->]]]] by lia;
      reflexivity.
Defined.

(** ** What interpretItems returns for any input *)

Lemma packItems_sizes `{Constants} (σ : Store) (ncols : Z) (its : list Item) :
  (λ it, (item_id it, width it, height it)) <$> layoutItems (packItems σ ncols its)
  = (λ item, (id item, getColumnSpan σ ncols item, getRowSpan σ ncols item)) <$> its.
Proof.
  induction its as [|item its IH] using rev_ind; [done|].
  rewrite packItems_snoc. unfold placeItem; simpl.
  by rewrite !fmap_app, IH.
Qed.

(** X2: interpretItems throws a RangeError for a negative column count and
    for one above 2^32 - 1, the largest length of an array, and for no other
    input. Otherwise the grid has one entry per item, with the item's id, its
    column span as width and its row span as height, whatever the placement;
    no entry is narrower than [MIN_COL_SPAN] or lower than [MIN_ROW_SPAN],
    whatever the hints say. *)
Theorem interpretItems_sizes `{Constants} (σ : Store) (its : list Item) (N : Z) :
  (N < 0 ∨ 4294967296 ≤ N → interpretItems σ its N = Throw RangeError)
  ∧ (0 ≤ N < 4294967296 →
     ∃ g, interpretItems σ its N = Ok g
          ∧ columns g = N
          ∧ (λ it, (item_id it, width it, height it)) <$> items g
            ≡ₚ (λ item, (id item, getColumnSpan σ N item, getRowSpan σ N item)) <$> its
          ∧ Forall (λ it, MIN_COL_SPAN ≤ width it ∧ MIN_ROW_SPAN ≤ height it) (items g)).
Proof.
  unfold interpretItems. split.
  - intros HN. by rewrite bool_decide_eq_true_2.
  - intros HN. rewrite bool_decide_eq_false_2; [|lia].
    eexists. split; [reflexivity|]. simpl.
    assert ((λ it, (item_id it, width it, height it))
              <$> sort itemComparator (layoutItems (packItems σ N its))
            ≡ₚ (λ item, (id item, getColumnSpan σ N item, getRowSpan σ N item)) <$> its)
      as Hperm.
    { by rewrite sort_perm, packItems_sizes. }
    split_and!; [done|done|].
    apply Forall_forall. intros it Hit.
    assert ((item_id it, width it, height it)
            ∈ (λ item, (id item, getColumnSpan σ N item, getRowSpan σ N item)) <$> its)
      as (item & Heq & _)%list_elem_of_fmap.
    { rewrite <- Hperm. apply list_elem_of_fmap. by exists it. }
    injection Heq as _ -> ->.
    unfold getColumnSpan, getRowSpan, getItemMinColumnSpan, getItemMinRowSpan. lia.
Qed.

Lemma interpretItems_sizes_witness :
  interpretItems (H := exampleConstants) ∅ tallWideSmall (-1) = Throw RangeError
  ∧ interpretItems (H := exampleConstants) ∅ tallWideSmall 4294967296 = Throw RangeError
  ∧ ∃ g, interpretItems (H := exampleConstants) ∅ tallWideSmall 3 = Ok g
         ∧ columns g = 3
         ∧ (λ it, (item_id it, width it, height it)) <$> items g
           ≡ₚ (λ item, (id item, getColumnSpan (H := exampleConstants) ∅ 3 item,
                         getRowSpan (H := exampleConstants) ∅ 3 item)) <$> tallWideSmall
         ∧ Forall (λ it, 1 ≤ width it ∧ 2 ≤ height it) (items g).
Proof.
  pose proof (interpretItems_sizes (H := exampleConstants) ∅ tallWideSmall (-1))
    as [Hneg _].
  pose proof (interpretItems_sizes (H := exampleConstants) ∅ tallWideSmall 4294967296)
    as [Hbig _].
  pose proof (interpretItems_sizes (H := exampleConstants) ∅ tallWideSmall 3)
    as [_ Hpos].
  split_and!; [apply Hneg; lia|apply Hbig; lia|apply Hpos; lia].
Defined.

Lemma getRowOffset_zero (ncols off span : Z) :
  0 ≤ off → off + span ≤ ncols →
  getRowOffset (fill_loop ∅ 0 (Z.to_nat ncols) (Num 0)) off span = Num 0.
Proof.
  intros Hoff Hfit.
  assert (heightsOk ncols (fill_loop ∅ 0 (Z.to_nat ncols) (Num 0))) as Hok.
  { intros c Hc. exists 0. rewrite fill_loop_lookup.
    rewrite bool_decide_eq_true_2; [done|lia]. }
  destruct (getRowOffset_spec ncols _ off span Hok Hoff Hfit)
    as (m & -> & _ & _ & [->|(c & Hc & Hm)]); [done|].
  rewrite fill_loop_lookup in Hm. case_bool_decide; [congruence|].
  by rewrite lookup_empty in Hm.
Qed.

(** X3: without items, and for a column count from 0 to 2^32 - 1,
    interpretItems returns the empty grid of the given column count, with 0
    rows. *)
Theorem interpretItems_empty `{Constants} (σ : Store) (N : Z) :
  0 ≤ N < 4294967296 →
  interpretItems σ [] N = Ok {| items := []; columns := N; rows := Num 0 |}.
Proof.
  intros HN. unfold interpretItems. rewrite bool_decide_eq_false_2; [|lia].
  simpl. by rewrite getRowOffset_zero by lia.
Qed.

Lemma interpretItems_empty_witness :
  interpretItems (H := exampleConstants) ∅ [] 4
  = Ok {| items := []; columns := 4; rows := Num 0 |}.
Proof. apply (interpretItems_empty (H := exampleConstants) ∅ 4). lia. Defined.

(** ** Grid invariants with hints *)

Lemma place_invariant (ncols : Z) (st : PackState) (name : string) (off cs rs : Z) :
  packInvariant ncols st → 0 ≤ off → off + cs ≤ ncols → 0 < cs → 0 < rs →
  packInvariant ncols
    {| layoutItems :=
         layoutItems st ++
           [{| item_id := name; width := cs; height := rs; x := off;
               y := getRowOffset (columnHeights st) off cs |}];
       columnHeights :=
         fill_loop (columnHeights st) off (Z.to_nat cs)
                   (number_add (getRowOffset (columnHeights st) off cs) rs);
       cursor := off + cs |}.
Proof.
  intros [Hheights Hcursor Hwithin Hbelow Hdisjoint Hreached] Hoff0 Hofffit Hcs Hrs.
  destruct (getRowOffset_spec ncols (columnHeights st) off cs Hheights Hoff0 Hofffit)
    as (m & Hrow & Hm0 & Hmall & _).
  rewrite Hrow. simpl.
  set (placed := {| item_id := name; x := off; y := Num m; width := cs; height := rs |}).
  assert (∀ c, fill_loop (columnHeights st) off (Z.to_nat cs) (Num (m + rs)) !! c
               = if bool_decide (off ≤ c < off + cs) then Some (Num (m + rs))
                 else columnHeights st !! c) as Hfill.
  { intros c. rewrite fill_loop_lookup.
    repeat case_bool_decide; try done; lia. }
  split; simpl.
  - intros c Hc. rewrite Hfill. case_bool_decide.
    + exists (m + rs). split; [done|lia].
    + by apply Hheights.
  - lia.
  - apply Forall_app. split; [done|]. apply Forall_singleton.
    exists m. simpl. split_and!; try done; lia.
  - apply Forall_app. split.
    + eapply Forall_impl; [exact Hbelow|]. intros it Hit c Hc.
      destruct (Hit c Hc) as (top & h & Htop & Hh & Hle).
      rewrite Hfill. case_bool_decide.
      * exists top, (m + rs). split_and!; [done|done|].
        pose proof (Hmall c h ltac:(lia) Hh). lia.
      * exists top, h. done.
    + apply Forall_singleton. intros c Hc. simpl in Hc.
      exists m, (m + rs). rewrite Hfill.
      rewrite bool_decide_eq_true_2; [|lia]. split_and!; [done|done|simpl; lia].
  - assert (∀ a col row, a ∈ layoutItems st →
              ¬ (covers col row a ∧ covers col row placed)) as Hnew.
    { intros a col row Ha [Hca Hcp].
      apply (proj1 (Forall_forall _ _) Hbelow) in Ha as Hbel.
      unfold covers in Hca, Hcp. simpl in Hcp.
      destruct (y a) as [top|] eqn:Hya; [|done].
      destruct (Hbel col) as (top' & h & Htop & Hh & Hle); [lia|].
      rewrite Hya in Htop. injection Htop as <-.
      pose proof (Hmall col h ltac:(lia) Hh). lia. }
    intros i j a b col row Hij Hi Hj.
    apply lookup_app_Some in Hi as [Hi|[Hilen Hi]];
      apply lookup_app_Some in Hj as [Hj|[Hjlen Hj]].
    + by eapply Hdisjoint.
    + apply list_lookup_singleton_Some in Hj as [_ <-].
      apply Hnew. by eapply list_elem_of_lookup_2.
    + apply list_lookup_singleton_Some in Hi as [_ <-].
      intros [? ?]. eapply Hnew; [by eapply list_elem_of_lookup_2|done].
    + apply list_lookup_singleton_Some in Hi as [Hi0 _].
      apply list_lookup_singleton_Some in Hj as [Hj0 _]. lia.
  - intros c h Hc. rewrite Hfill. case_bool_decide.
    + intros [= <-]. right. exists placed. split; [|done].
      apply elem_of_app. right. by apply list_elem_of_singleton.
    + intros Hh. destruct (Hreached c h Hc Hh) as [->|(it & Hit & Hbot)];
        [by left|]. right. exists it. split; [|done].
      apply elem_of_app. by left.
Qed.

Lemma packItems_invariant_within `{Constants} (σ : Store) (ncols : Z) (its : list Item) :
  0 < MIN_COL_SPAN → 0 < MIN_ROW_SPAN →
  Forall (hintsWithin σ ncols) its →
  packInvariant ncols (packItems σ ncols its).
Proof.
  intros Hcol Hrow. induction its as [|item its IH] using rev_ind; intros Hall.
  - by apply initialState_invariant.
  - rewrite packItems_snoc.
    apply Forall_app in Hall as [Hall Hitem]. rewrite Forall_singleton in Hitem.
    destruct Hitem as [Hspan Hhint]. specialize (IH Hall).
    assert (0 < getColumnSpan σ ncols item) as Hcs.
    { unfold getColumnSpan, getItemMinColumnSpan. lia. }
    pose proof (getRowSpan_positive Hrow σ ncols item) as Hrs.
    assert (0 ≤ getColumnOffset σ ncols (columnHeights (packItems σ ncols its)) item
                  (cursor (packItems σ ncols its))
            ∧ getColumnOffset σ ncols (columnHeights (packItems σ ncols its)) item
                (cursor (packItems σ ncols its)) + getColumnSpan σ ncols item ≤ ncols)
      as [Hoff0 Hofffit].
    { unfold getColumnOffset.
      destruct (readSetting σ (columnOffset item) (Num ncols)) as [h|] eqn:Hh; simpl.
      - by apply Hhint.
      - apply findOptimalColumnOffset_range; [by destruct IH|done]. }
    unfold placeItem. by apply place_invariant.
Qed.

(** X4: the grid invariants also hold with hints, as long as the hints keep
    every item inside the board: for a column count from 0 to 2^32 - 1, when
    each item's column span is at most N and each explicit column offset
    leaves room for the span, no two rectangles of the grid share a cell,
    every rectangle lies within columns [0, N) with positive width and
    height, and [rows] is the largest [y + height]. *)
Theorem interpretItems_hinted_grid_invariants `{Constants} (σ : Store)
    (its : list Item) (N : Z) :
  0 < MIN_COL_SPAN → 0 < MIN_ROW_SPAN → 0 ≤ N < 4294967296 →
  Forall (hintsWithin σ N) its →
  ∃ g, interpretItems σ its N = Ok g
       ∧ noSharedCell (items g)
       ∧ Forall (withinColumns N) (items g)
       ∧ rows g = maxBottom (items g).
Proof.
  intros Hcol Hrow HN Hall.
  destruct (packItems_invariant_within σ N its Hcol Hrow Hall)
    as [Hheights _ Hwithin Hbelow Hdisjoint Hreached].
  unfold interpretItems. rewrite bool_decide_eq_false_2; [|lia].
  eexists. split; [reflexivity|]. simpl.
  set (st := packItems σ N its) in *.
  pose proof (sort_perm itemComparator (layoutItems st)) as Hperm.
  assert (Forall (withinColumns N) (sort itemComparator (layoutItems st))) as Hsorted.
  { by rewrite Hperm. }
  split_and!; [by eapply noSharedCell_perm|done|].
  destruct (getRowOffset_spec N (columnHeights st) 0 N Hheights)
    as (m & -> & Hm0 & Hmall & Hmmax); [lia|lia|].
  destruct (maxBottom_spec N _ Hsorted) as (m' & -> & Hm'0 & Hall' & Hmax').
  f_equal. apply Z.le_antisymm.
  - destruct Hmmax as [->|(c & Hc & Hhc)]; [done|].
    destruct (Hreached c m) as [->|(it & Hit & Hbot)]; [lia|done|done|].
    rewrite <- Hperm in Hit. destruct (Hall' it Hit) as (top & Hy & Hle).
    unfold bottom in Hbot. rewrite Hy in Hbot. injection Hbot as <-. done.
  - destruct Hmax' as [->|(it & Hit & Hbot)]; [done|].
    rewrite Hperm in Hit.
    apply (proj1 (Forall_forall _ _) Hwithin) in Hit as Hwit.
    apply (proj1 (Forall_forall _ _) Hbelow) in Hit as Hbel.
    destruct Hwit as (top & Hy & ? & ? & ? & ? & ?).
    destruct (Hbel (x it)) as (top' & h & Hy' & Hh & Hle); [lia|].
    rewrite Hy in Hy'. injection Hy' as <-.
    unfold bottom in Hbot. rewrite Hy in Hbot. injection Hbot as <-.
    pose proof (Hmall (x it) h ltac:(lia) Hh). lia.
Qed.

Lemma interpretItems_hinted_grid_invariants_witness :
  ∃ g, interpretItems (H := exampleConstants) pinStore tallAndPinned 3 = Ok g
       ∧ noSharedCell (items g)
       ∧ Forall (withinColumns 3) (items g)
       ∧ rows g = maxBottom (items g).
Proof.
  apply (interpretItems_hinted_grid_invariants (H := exampleConstants)
           pinStore tallAndPinned 3).
  - reflexivity.
  - reflexivity.
  - lia.
  - constructor; [split|constructor; [split|constructor]].
    + vm_compute. discriminate.
    + intros h Hh. vm_compute in Hh. discriminate.
    + vm_compute. discriminate.
    + intros h Hh. vm_compute in Hh. injection Hh as <-. split; [lia|].
      vm_compute. discriminate.
Defined.

(** ** Reading order of the grid *)

(** X5: when the hints keep every item inside the board, and for a column
    count from 0 to 2^32 - 1, the grid lists its items in strict reading
    order: of two entries the earlier one starts on a higher row, or on the
    same row further left. In particular no two entries start at the same
    cell. *)
Theorem interpretItems_reading_order `{Constants} (σ : Store)
    (its : list Item) (N : Z) :
  0 < MIN_COL_SPAN → 0 < MIN_ROW_SPAN → 0 ≤ N < 4294967296 →
  Forall (hintsWithin σ N) its →
  ∃ g, interpretItems σ its N = Ok g
       ∧ ∀ i j a b, (i < j)%nat → items g !! i = Some a → items g !! j = Some b →
           rowMajorBefore a b.
Proof.
  intros Hcol Hrow HN Hall.
  destruct (packItems_invariant_within σ N its Hcol Hrow Hall)
    as [_ _ Hwithin _ Hdisjoint _].
  unfold interpretItems. rewrite bool_decide_eq_false_2; [|lia].
  eexists. split; [reflexivity|]. simpl.
  destruct (sort_grid_readingOrder N _ Hwithin Hdisjoint) as [_ Hstrict].
  intros i j a b Hij Hi Hj.
  by eapply (StronglySorted_lookup _ _ _ _ _ _ Hstrict Hij).
Qed.

Lemma interpretItems_reading_order_witness :
  ∃ g, interpretItems (H := exampleConstants) pinStore tallAndPinned 3 = Ok g
       ∧ ∀ i j a b, (i < j)%nat → items g !! i = Some a → items g !! j = Some b →
           rowMajorBefore a b.
Proof.
  apply (interpretItems_reading_order (H := exampleConstants) pinStore tallAndPinned 3).
  - reflexivity.
  - reflexivity.
  - lia.
  - constructor; [split|constructor; [split|constructor]].
    + vm_compute. discriminate.
    + intros h Hh. vm_compute in Hh. discriminate.
    + vm_compute. discriminate.
    + intros h Hh. vm_compute in Hh. injection Hh as <-. split; [lia|].
      vm_compute. discriminate.
Defined.

(** ** When transformItems returns and when it throws *)

Lemma itemById_None (src : list Item) (k : string) :
  (∀ s, s ∈ src → id s ≠ k) → itemById src !! k = None.
Proof.
  intros Hnone. destruct (itemById src !! k) as [s|] eqn:Hs; [|done].
  apply itemById_Some in Hs as [Hin Hid]. by destruct (Hnone s Hin).
Qed.

Lemma transformItem_throws (src : list Item) (g : GridLayout) (changeFrom : Z)
    (τ : Store) (index : nat) (e : GridLayoutItem) (err : Error) :
  transformItem src g changeFrom τ index e = Throw err →
  err = InvariantViolation ∧ itemById src !! item_id e = None.
Proof.
  unfold transformItem, getItem.
  destruct (itemById src !! item_id e) as [s|]; simpl.
  - repeat match goal with
           | |- context [writeItemSetting ?a ?b ?c ?d ?f] =>
               destruct (writeItemSetting a b c d f)
           end.
    done.
  - by intros [= <-].
Qed.

Lemma transform_loop_missing (src : list Item) (g : GridLayout) (changeFrom : Z)
    (τ : Store) (index : nat) (l : list GridLayoutItem) (e : GridLayoutItem) :
  e ∈ l → itemById src !! item_id e = None →
  transform_loop src g changeFrom τ index l = Throw InvariantViolation.
Proof.
  intros Hin Hnone. revert τ index.
  induction l as [|e0 l IH]; intros τ index; [by apply elem_of_nil in Hin|].
  simpl.
  destruct (transformItem src g changeFrom τ index e0) as [[τ1 item]|err] eqn:Hitem.
  - simpl. apply elem_of_cons in Hin as [->|Hin].
    + unfold transformItem, getItem in Hitem. by rewrite Hnone in Hitem.
    + by rewrite (IH Hin).
  - apply transformItem_throws in Hitem as [-> _]. done.
Qed.

Lemma findIndex_loop_TypeError (src : list Item) (l : list GridLayoutItem) (index : nat) :
  (index ≤ length src < index + length l)%nat →
  (∀ j s e, src !! (index + j)%nat = Some s → l !! j = Some e → id s = item_id e) →
  findIndex_loop src l index = Throw TypeError.
Proof.
  revert index. induction l as [|e l IH]; intros index Hlen Hagree; simpl.
  - simpl in Hlen. lia.
  - destruct (src !! index) as [s|] eqn:Hs; [|done].
    rewrite bool_decide_eq_false_2.
    + apply IH.
      * apply lookup_lt_Some in Hs. simpl in Hlen. lia.
      * intros j s' e' Hs' He'. apply (Hagree (S j)); [|done].
        by replace (index + S j)%nat with (S index + j)%nat by lia.
    + intros Hne. apply Hne. apply (Hagree 0%nat); [|done].
      by rewrite Nat.add_0_r.
Qed.

(** X6: transformItems returns, with one item per entry of the grid, whenever
    the grid has at most as many entries as there are source items and every
    id of the grid is the id of a source item. *)
Theorem transformItems_succeeds (σ : Store) (src : list Item) (g : GridLayout) :
  (length (items g) ≤ length src)%nat →
  (∀ e, e ∈ items g → ∃ s, s ∈ src ∧ id s = item_id e) →
  ∃ σ' out, transformItems σ src g = Ok (σ', out)
            ∧ length out = length (items g).
Proof.
  intros Hlen Hids. unfold transformItems.
  set (sorted := sort itemComparator (items g)).
  assert (sorted ≡ₚ items g) as Hperm by apply sort_perm.
  destruct (findIndex_loop_total src sorted 0) as [found Hfound].
  { rewrite Hperm. simpl. lia. }
  unfold changeFromIndex. rewrite Hfound. simpl.
  match goal with
  | |- context [transform_loop src g ?cf σ 0 sorted] =>
      destruct (transform_loop_total src g cf σ 0 sorted) as (σ' & out & Hloop)
  end.
  { apply Forall_forall. intros e He. rewrite Hperm in He.
    destruct (Hids e He) as (s & Hs & <-). by apply itemById_is_Some. }
  exists σ', out. split; [done|].
  apply transform_loop_ids in Hloop.
  apply (f_equal length) in Hloop. rewrite !length_fmap in Hloop.
  by rewrite Hloop, Hperm.
Qed.

Lemma transformItems_succeeds_witness :
  ∃ σ' out, transformItems sampleStore twoPinned twoAcross = Ok (σ', out)
            ∧ length out = length (items twoAcross).
Proof.
  apply (transformItems_succeeds sampleStore twoPinned twoAcross).
  - simpl. lia.
  - intros e He. simpl in He.
    apply elem_of_cons in He as [->|He];
      [|apply elem_of_cons in He as [->|He]; [|by apply elem_of_nil in He]].
    + exists (hintedItem "a" (Some 2%positive) None None). split; [by left|done].
    + exists (hintedItem "b" (Some 3%positive) None None).
      split; [right; by left|done].
Defined.

(** X7: transformItems throws the invariant violation when the grid has at
    most as many entries as there are source items and one of its ids is not
    the id of any source item. *)
Theorem transformItems_unknown_id (σ : Store) (src : list Item) (g : GridLayout)
    (e : GridLayoutItem) :
  (length (items g) ≤ length src)%nat →
  e ∈ items g → (∀ s, s ∈ src → id s ≠ item_id e) →
  transformItems σ src g = Throw InvariantViolation.
Proof.
  intros Hlen He Hnone. unfold transformItems.
  set (sorted := sort itemComparator (items g)).
  assert (sorted ≡ₚ items g) as Hperm by apply sort_perm.
  destruct (findIndex_loop_total src sorted 0) as [found Hfound].
  { rewrite Hperm. simpl. lia. }
  unfold changeFromIndex. rewrite Hfound. simpl.
  apply (transform_loop_missing _ _ _ _ _ _ e).
  - by rewrite Hperm.
  - by apply itemById_None.
Qed.

Lemma transformItems_unknown_id_witness :
  transformItems sampleStore
    [hintedItem "b" None None None; hintedItem "c" None None None] oneCell
  = Throw InvariantViolation.
Proof.
  apply (transformItems_unknown_id sampleStore _ oneCell (cell "a" 0 0 1 2)).
  - simpl. lia.
  - by left.
  - intros s Hs.
    apply elem_of_cons in Hs as [->|Hs];
      [|apply elem_of_cons in Hs as [->|Hs]; [|by apply elem_of_nil in Hs]];
      discriminate.
Defined.

(** X8: transformItems throws a TypeError when the grid has more entries than
    there are source items and, in its strict reading order [sorted], starts
    with the ids of the source items in their order: looking for the first
    difference then reads past the end of the source items. *)
Theorem transformItems_longer_grid (σ : Store) (src : list Item) (g : GridLayout)
    (sorted : list GridLayoutItem) :
  (length src < length (items g))%nat →
  readingOrder (items g) sorted →
  (∀ i s e, src !! i = Some s → sorted !! i = Some e → id s = item_id e) →
  transformItems σ src g = Throw TypeError.
Proof.
  intros Hlen Horder Hagree. apply sort_readingOrder in Horder as <-.
  unfold transformItems, changeFromIndex.
  rewrite findIndex_loop_TypeError; [done| |done].
  rewrite (Permutation_length (sort_perm itemComparator (items g))). lia.
Qed.

Lemma transformItems_longer_grid_witness :
  transformItems sampleStore onePinned twoAcross = Throw TypeError.
Proof.
  apply (transformItems_longer_grid sampleStore onePinned twoAcross (items twoAcross)).
  - simpl. lia.
  - split; [done|]. compute_done.
  - intros i s e Hs He. destruct i as [|i]; [|done].
    vm_compute in He. injection Hs as <-. injection He as <-. reflexivity.
Defined.

(** ** What transformItems returns *)

Lemma writeItemSetting_settings (τ : Store) (item : Item) (name : SettingName)
    (layout : number) (value : Z) :
  is_Some (getSetting name (writeItemSetting τ item name layout value).2)
  ∧ ∀ n, is_Some (getSetting n item) →
      is_Some (getSetting n (writeItemSetting τ item name layout value).2).
Proof.
  unfold writeItemSetting. destruct (getSetting name item) as [l|] eqn:Hget; simpl.
  - split; [by rewrite Hget|done].
  - split; [by destruct name|]. intros n Hn. by destruct name, n.
Qed.

Lemma transformItem_copy (src : list Item) (g : GridLayout) (changeFrom : Z)
    (τ τ' : Store) (index : nat) (e : GridLayoutItem) (o : Item) :
  transformItem src g changeFrom τ index e = Ok (τ', o) →
  ∃ s, itemById src !! item_id e = Some s
       ∧ id o = item_id e ∧ definition o = definition s
       ∧ is_Some (columnOffset o) ∧ is_Some (columnSpan o) ∧ is_Some (rowSpan o).
Proof.
  intros Hitem. pose proof (transformItem_id _ _ _ _ _ _ _ _ Hitem) as Hid.
  revert Hitem. unfold transformItem, getItem.
  destruct (itemById src !! item_id e) as [s|] eqn:Hs; [|done]. simpl.
  set (s0 := if bool_decide _ then _ else s).
  assert (definition s0 = definition s) as Hdef0. { unfold s0. by case_bool_decide. }
  pose proof (writeItemSetting_id τ s0 ColumnOffsetName (Num (columns g)) (x e)) as [_ D1].
  pose proof (writeItemSetting_settings τ s0 ColumnOffsetName (Num (columns g)) (x e))
    as [S1 _].
  destruct (writeItemSetting τ s0 _ _ _) as [τ1 i1]. simpl in D1, S1.
  pose proof (writeItemSetting_id τ1 i1 ColumnSpanName (Num (columns g)) (width e)) as [_ D2].
  pose proof (writeItemSetting_settings τ1 i1 ColumnSpanName (Num (columns g)) (width e))
    as [S2 K2].
  destruct (writeItemSetting τ1 i1 _ _ _) as [τ2 i2]. simpl in D2, S2, K2.
  pose proof (writeItemSetting_id τ2 i2 RowSpanName (rows g) (height e)) as [_ D3].
  pose proof (writeItemSetting_settings τ2 i2 RowSpanName (rows g) (height e))
    as [S3 K3].
  destruct (writeItemSetting τ2 i2 _ _ _) as [τ3 i3]. simpl in D3, S3, K3.
  intros [= <- <-]. exists s. split_and!; [done|done|by rewrite D3, D2, D1| | |done].
  - apply (K3 ColumnOffsetName), (K2 ColumnOffsetName), S1.
  - apply (K3 ColumnSpanName), S2.
Qed.

Lemma transform_loop_copies (src : list Item) (g : GridLayout) (changeFrom : Z)
    (τ τ' : Store) (index : nat) (l : list GridLayoutItem) (out : list Item) :
  transform_loop src g changeFrom τ index l = Ok (τ', out) →
  Forall2 (λ e o, ∃ s, itemById src !! item_id e = Some s
                       ∧ id o = item_id e ∧ definition o = definition s
                       ∧ is_Some (columnOffset o) ∧ is_Some (columnSpan o)
                       ∧ is_Some (rowSpan o)) l out.
Proof.
  revert τ index out. induction l as [|e l IH]; intros τ index out; simpl.
  - intros [= <- <-]. constructor.
  - destruct (transformItem src g changeFrom τ index e) as [[τ1 item]|] eqn:Hitem;
      [|done]. simpl.
    destruct (transform_loop src g changeFrom τ1 (S index) l) as [[τ2 rest]|] eqn:Hrest;
      [|done]. simpl.
    intros [= <- <-]. constructor; [by eapply transformItem_copy|by eapply IH].
Qed.

Lemma transformItems_length (σ σ' : Store) (src : list Item) (g : GridLayout)
    (out : list Item) :
  transformItems σ src g = Ok (σ', out) →
  length out = length (sort itemComparator (items g)).
Proof.
  unfold transformItems.
  destruct (changeFromIndex src _) as [cf|]; [|done]. simpl.
  intros Hloop. symmetry. eapply Forall2_length, transform_loop_copies, Hloop.
Qed.

(** X9: for a grid that has a strict reading order [sorted] (its entries
    start on pairwise different cells of numbered rows), the items
    transformItems returns follow that order, entry by entry: each has the id
    of its entry and the definition of the source item with that id (the last
    one, should several source items have it), and each has a columnOffset, a
    columnSpan and a rowSpan hint object. *)
Theorem transformItems_copies (σ σ' : Store) (src : list Item) (g : GridLayout)
    (sorted : list GridLayoutItem) (out : list Item) :
  readingOrder (items g) sorted →
  transformItems σ src g = Ok (σ', out) →
  Forall2 (λ e o, ∃ s, itemById src !! item_id e = Some s
                       ∧ id o = item_id e ∧ definition o = definition s
                       ∧ is_Some (columnOffset o) ∧ is_Some (columnSpan o)
                       ∧ is_Some (rowSpan o))
          sorted out.
Proof.
  intros Horder. apply sort_readingOrder in Horder as <-.
  unfold transformItems.
  destruct (changeFromIndex src _) as [cf|]; [|done]. simpl.
  apply transform_loop_copies.
Qed.

Lemma transformItems_copies_witness :
  ∃ σ' out,
    transformItems sampleStore twoPinned twoAcross = Ok (σ', out)
    ∧ Forall2 (λ e o, ∃ s, itemById twoPinned !! item_id e = Some s
                           ∧ id o = item_id e ∧ definition o = definition s
                           ∧ is_Some (columnOffset o) ∧ is_Some (columnSpan o)
                           ∧ is_Some (rowSpan o))
              (items twoAcross) out.
Proof.
  eexists _, _. split; [vm_compute; reflexivity|].
  eapply (transformItems_copies sampleStore _ twoPinned twoAcross (items twoAcross)).
  - split; [done|]. compute_done.
  - vm_compute. reflexivity.
Defined.

(** X10: what transformItems leaves alone in the store. No hint object is
    removed; in every object the entries under keys other than the grid's
    column count and row count are exactly what they were; and an object
    that belongs to no source item named by the grid is not written at all. *)
Theorem transformItems_frame (σ σ' : Store) (src : list Item) (g : GridLayout)
    (out : list Item) :
  allocated σ src →
  transformItems σ src g = Ok (σ', out) →
  dom σ ⊆ dom σ'
  ∧ (∀ l k, k ≠ Num (columns g) → k ≠ rows g →
       default ∅ (σ' !! l) !! k = default ∅ (σ !! l) !! k)
  ∧ (∀ l, l ∈ dom σ →
       (∀ e s, e ∈ items g → itemById src !! item_id e = Some s → l ∉ hintLocs s) →
       σ' !! l = σ !! l).
Proof.
  intros Halloc. unfold transformItems.
  destruct (changeFromIndex src _) as [cf|]; [|done]. simpl. intros Hloop.
  destruct (transform_loop_effect _ _ _ _ _ _ _ _ Halloc Hloop)
    as (Hdom & Hframe & Hkeys).
  split_and!; [done|done|].
  intros l Hl Hnot. apply Hframe; [done|].
  intros e s He. apply Hnot. by rewrite <- (sort_perm itemComparator (items g)).
Qed.

Lemma transformItems_frame_witness :
  ∃ σ' out,
    transformItems sampleStore twoPinned twoAcross = Ok (σ', out)
    ∧ dom sampleStore ⊆ dom σ'
    ∧ (∀ l k, k ≠ Num (columns twoAcross) → k ≠ rows twoAcross →
         default ∅ (σ' !! l) !! k = default ∅ (sampleStore !! l) !! k)
    ∧ (∀ l, l ∈ dom sampleStore →
         (∀ e s, e ∈ items twoAcross → itemById twoPinned !! item_id e = Some s →
            l ∉ hintLocs s) →
         σ' !! l = sampleStore !! l).
Proof.
  eexists _, _. split; [vm_compute; reflexivity|].
  eapply (transformItems_frame sampleStore _ twoPinned twoAcross).
  - apply allocated_Forall. repeat constructor; compute_done.
  - vm_compute. reflexivity.
Defined.

(** ** The three hints of a returned item *)

Lemma transformItem_rowSpan_written (src : list Item) (g : GridLayout) (changeFrom : Z)
    (τ τ' : Store) (index : nat) (e : GridLayoutItem) (o : Item) (lo ls lr : loc) :
  allocated τ src →
  transformItem src g changeFrom τ index e = Ok (τ', o) →
  columnOffset o = Some lo → columnSpan o = Some ls → rowSpan o = Some lr →
  lr ≠ lo → lr ≠ ls →
  τ' !! lr = Some (<[rows g := height e]> (default ∅ (τ !! lr))).
Proof.
  intros Halloc Hitem Hlo Hls Hlr Hne1 Hne2.
  destruct (transformItem_spec _ _ _ _ _ _ _ _ Halloc Hitem)
    as (s & lo' & ls' & lr' & _ & Hlo' & Hls' & Hlr' & _ & _ & _ & ->).
  assert (lo' = lo) as -> by congruence.
  assert (ls' = ls) as -> by congruence.
  assert (lr' = lr) as -> by congruence.
  rewrite lookup_insert_eq. do 2 f_equal.
  by rewrite !lookup_insert_ne.
Qed.

Lemma transformItems_objects (σ σ' : Store) (src : list Item) (g : GridLayout)
    (out : list Item) :
  allocated σ src → unshared src → NoDup (item_id <$> items g) →
  transformItems σ src g = Ok (σ', out) →
  ∃ cf,
    changeFromIndex src (sort itemComparator (items g)) = Ok cf
    ∧ ∀ (i : nat) e o,
        sort itemComparator (items g) !! i = Some e → out !! i = Some o →
        ∃ s, itemById src !! item_id e = Some s
             ∧ id o = item_id e ∧ definition o = definition s
             ∧ settingOf σ' (columnSpan o)
               = <[Num (columns g) := width e]> (settingOf σ (columnSpan s))
             ∧ settingOf σ' (columnOffset o)
               = <[Num (columns g) := x e]>
                   (if bool_decide (cf ≤ Z.of_nat i) then ∅
                    else settingOf σ (columnOffset s))
             ∧ settingOf σ' (rowSpan o)
               = <[rows g := height e]> (settingOf σ (rowSpan s)).
Proof.
  intros Halloc Hunshared Hids Htransform. unfold transformItems in Htransform.
  set (sorted := sort itemComparator (items g)) in *.
  assert (NoDup (item_id <$> sorted)) as Hids'.
  { unfold sorted. by rewrite sort_perm. }
  destruct (changeFromIndex src sorted) as [cf|] eqn:Hcf; [|done].
  simpl in Htransform. exists cf. split; [done|].
  intros i e o He Ho.
  destruct (transform_loop_lookup _ _ _ _ _ _ _ _ _ _ _ Htransform He Ho)
    as (τa & τb & Hpre & Hstep & Hpost).
  destruct (transform_loop_effect _ _ _ _ _ _ _ _ Halloc Hpre) as (Hdoma & Hframea & _).
  pose proof (allocated_mono _ _ _ Hdoma Halloc) as Halloca.
  destruct (transformItem_effect _ _ _ _ _ _ _ _ Halloca Hstep)
    as (s & lo & ls & lr & Hs & Hlo & Hls & Hlr & Horigo & Horigs & Horigr
        & Hfresho & Hfreshs & Hdomb & _ & _ & Hwo & Hws).
  destruct (transformItem_copy _ _ _ _ _ _ _ _ Hstep)
    as (s' & Hs' & Hido & Hdefo & _).
  assert (s' = s) as -> by congruence.
  pose proof (allocated_mono _ _ _ Hdomb Halloca) as Hallocb.
  destruct (transform_loop_effect _ _ _ _ _ _ _ _ Hallocb Hpost)
    as (_ & Hframeb & _).
  pose proof (itemById_Some _ _ _ Hs) as [Hsin Hsid].
  pose proof (unshared_NoDup _ _ Hunshared Hsin) as Hown.
  simpl in Horigo.
  assert (∀ e' s' a, e' ∈ take i sorted ∨ e' ∈ drop (S i) sorted →
            itemById src !! item_id e' = Some s' →
            a ∈ hintLocs s → a ∉ hintLocs s') as Hothers.
  { intros e' s' a He' Hs'' Ha. apply itemById_Some in Hs'' as [Hs'in Hs'id].
    eapply (unshared_disjoint src s s'); try done.
    intros ->. eapply other_entry_other_id; [done|done|done|]. congruence. }
  assert (∀ old a key v,
            origin τa old a → (∀ a0, old = Some a0 → a0 ∈ hintLocs s) →
            τb !! a = Some (<[key := v]> (default ∅ (τa !! a))) →
            settingOf σ' (Some a) = <[key := v]> (settingOf σ old))
    as Hread.
  { intros old a key v Horig Hold Hwritten. unfold settingOf. simpl.
    assert (σ' !! a = τb !! a) as ->.
    { apply Hframeb; [apply elem_of_dom; rewrite Hwritten; by eexists|].
      intros e' s' He' Hs''. unfold origin in Horig. destruct old as [a0|].
      - subst a0. eapply Hothers; [by right|done|by apply Hold].
      - intros Hin. apply Horig. apply (Halloca s'); [|done].
        by apply itemById_Some in Hs'' as [? _]. }
    rewrite Hwritten. simpl. f_equal.
    unfold origin in Horig. destruct old as [a0|]; simpl.
    - subst a0. f_equal. apply Hframea.
      + apply (Halloc s); [done|by apply Hold].
      + intros e' s' He' Hs''. eapply Hothers; [by left|done|by apply Hold].
    - by rewrite (not_elem_of_dom_1 _ _ Horig). }
  assert (∀ old1 old2 a1 a2,
            origin τa old1 a1 → origin τa old2 a2 →
            (∀ a0, old1 = Some a0 → a0 ∈ dom τa) →
            (∀ a0, old2 = Some a0 → a0 ∈ dom τa) →
            (∀ b1 b2, old1 = Some b1 → old2 = Some b2 → b1 ≠ b2) →
            (a1 ∉ dom τa → a2 ∉ dom τa → a1 ≠ a2) → a1 ≠ a2) as Hdiff.
  { intros old1 old2 a1 a2 H1 H2 Hd1 Hd2 Hsrc Hnew. unfold origin in H1, H2.
    destruct old1 as [b1|], old2 as [b2|].
    - subst. by apply Hsrc.
    - subst. intros ->. apply H2. by apply Hd1.
    - subst. intros ->. apply H1. by apply Hd2.
    - by apply Hnew. }
  assert (∀ a0, a0 ∈ hintLocs s → a0 ∈ dom τa) as Hsdom
    by (intros a0; by apply Halloca).
  setoid_rewrite elem_of_hintLocs in Hsdom.
  unfold hintLocs in Hown. apply NoDup_app in Hown as (_ & Hown1 & Hown2).
  apply NoDup_app in Hown2 as (_ & Hown2 & _).
  assert (lo ≠ ls) as Hols.
  { eapply Hdiff; [exact Horigo|exact Horigs| | | |].
    - case_bool_decide; [done|]. intros a0 Ha0. apply Hsdom. auto.
    - intros a0 Ha0. apply Hsdom. auto.
    - case_bool_decide; [done|]. intros b1 b2 Hb1 Hb2 ->.
      apply (Hown1 b2); [by rewrite Hb1; left|].
      apply elem_of_app. left. rewrite Hb2. by left.
    - intros Hnew _. by apply Hfresho. }
  assert (lo ≠ lr) as Holr.
  { eapply Hdiff; [exact Horigo|exact Horigr| | | |].
    - case_bool_decide; [done|]. intros a0 Ha0. apply Hsdom. auto.
    - intros a0 Ha0. apply Hsdom. auto.
    - case_bool_decide; [done|]. intros b1 b2 Hb1 Hb2 ->.
      apply (Hown1 b2); [by rewrite Hb1; left|].
      apply elem_of_app. right. rewrite Hb2. by left.
    - intros Hnew _. by apply Hfresho. }
  assert (ls ≠ lr) as Hslr.
  { eapply Hdiff; [exact Horigs|exact Horigr| | | |].
    - intros a0 Ha0. apply Hsdom. auto.
    - intros a0 Ha0. apply Hsdom. auto.
    - intros b1 b2 Hb1 Hb2 ->.
      apply (Hown2 b2); [by rewrite Hb1; left|]. rewrite Hb2. by left.
    - intros Hnew _. by apply Hfreshs. }
  exists s. split_and!; [done|done|done| | |].
  - rewrite Hls. apply (Hread (columnSpan s) ls (Num (columns g))); [done| |by apply Hws].
    intros a0 Ha0. apply elem_of_hintLocs. auto.
  - rewrite Hlo.
    rewrite (Hread _ lo (Num (columns g)) (x e) Horigo); [by case_bool_decide| |by apply Hwo].
    case_bool_decide; [done|]. intros a0 Ha0. apply elem_of_hintLocs. auto.
  - rewrite Hlr. apply (Hread (rowSpan s) lr (rows g)); [done| |].
    + intros a0 Ha0. apply elem_of_hintLocs. auto.
    + by eapply transformItem_rowSpan_written.
Qed.

(** X11: the height of an entry is recorded as rowSpan under the key of the
    grid's row count. When the ids of the grid are distinct and no hint object
    is shared, every entry of the grid has a returned item with its id, and
    the rowSpan object of that item is that of its source item with the
    entry's height written under [rows]; so whenever the row count is not the
    column count, the rowSpan entry for the column count, the one
    interpretItems reads, is the source item's and not the height. *)
Theorem transformItems_rowSpan_key (σ σ' : Store) (src : list Item) (g : GridLayout)
    (out : list Item) :
  allocated σ src → unshared src → NoDup (item_id <$> items g) →
  transformItems σ src g = Ok (σ', out) →
  ∀ e, e ∈ items g →
    ∃ o s, o ∈ out ∧ id o = item_id e
         ∧ itemById src !! item_id e = Some s
         ∧ settingOf σ' (rowSpan o) = <[rows g := height e]> (settingOf σ (rowSpan s))
         ∧ (rows g ≠ Num (columns g) →
            readSetting σ' (rowSpan o) (Num (columns g))
            = readSetting σ (rowSpan s) (Num (columns g))).
Proof.
  intros Halloc Hunshared Hids Htransform e He.
  destruct (transformItems_objects _ _ _ _ _ Halloc Hunshared Hids Htransform)
    as (cf & _ & Hall).
  pose proof (transformItems_length _ _ _ _ _ Htransform) as Hlength.
  rewrite <- (sort_perm itemComparator) in He.
  apply list_elem_of_lookup in He as [i Hi].
  destruct (lookup_lt_is_Some_2 out i) as [o Ho].
  { rewrite Hlength. by eapply lookup_lt_Some. }
  destruct (Hall i e o Hi Ho) as (s & Hs & Hid & _ & _ & _ & Hrow).
  exists o, s. split_and!; [by eapply list_elem_of_lookup_2|done|done|done|].
  intros Hne.
  assert (∀ τ st k, readSetting τ st k = settingOf τ st !! k) as Hread.
  { intros τ [l|] k; unfold readSetting, settingOf; simpl; [|done].
    by destruct (τ !! l). }
  by rewrite !Hread, Hrow, lookup_insert_ne.
Qed.

Lemma transformItems_rowSpan_key_witness :
  ∃ σ' out,
    transformItems sampleStore onePinned oneCell = Ok (σ', out)
    ∧ ∀ e, e ∈ items oneCell →
        ∃ o s, o ∈ out ∧ id o = item_id e
             ∧ itemById onePinned !! item_id e = Some s
             ∧ settingOf σ' (rowSpan o)
               = <[rows oneCell := height e]> (settingOf sampleStore (rowSpan s))
             ∧ (rows oneCell ≠ Num (columns oneCell) →
                readSetting σ' (rowSpan o) (Num (columns oneCell))
                = readSetting sampleStore (rowSpan s) (Num (columns oneCell))).
Proof.
  eexists _, _. split; [vm_compute; reflexivity|].
  eapply (transformItems_rowSpan_key sampleStore _ onePinned oneCell).
  - apply allocated_Forall. repeat constructor; compute_done.
  - unfold unshared. compute_done.
  - compute_done.
  - vm_compute. reflexivity.
Defined.

(** ** interpretItems after transformItems *)

Lemma readSetting_settingOf (τ : Store) (setting : option loc) (k : number) :
  readSetting τ setting k = settingOf τ setting !! k.
Proof.
  destruct setting as [l|]; unfold readSetting, settingOf; simpl; [|done].
  by destruct (τ !! l).
Qed.

Lemma packItems_pinned `{Constants} (σ : Store) (ncols : Z) (out : list Item)
    (ts : list (string * Z * Z)) :
  Forall2 (λ o t, id o = t.1.1
                  ∧ readSetting σ (columnOffset o) (Num ncols) = Some t.1.2
                  ∧ getColumnSpan σ ncols o = t.2) out ts →
  (λ it, (item_id it, x it, width it)) <$> layoutItems (packItems σ ncols out) = ts.
Proof.
  revert ts. induction out as [|o out IH] using rev_ind; intros ts Hall.
  - by apply Forall2_nil_inv_l in Hall as ->.
  - apply Forall2_app_inv_l in Hall as (ts1 & ts2 & H1 & H2 & ->).
    apply Forall2_cons_inv_l in H2 as ([[name col] w] & ts3 & (Hid & Hoff & Hw) & H3 & ->).
    apply Forall2_nil_inv_l in H3 as ->. simpl in Hid, Hoff, Hw.
    rewrite packItems_snoc. unfold placeItem; simpl.
    rewrite fmap_app, (IH ts1 H1). simpl.
    unfold getColumnOffset. rewrite Hoff. simpl. by rewrite Hid, Hw.
Qed.

(** X12: the column placement survives the round trip. When the ids of the
    grid are distinct, no hint object is shared, the column count is from 0
    to 2^32 - 1 and every width of the grid is at least the minimum column
    span of its item, interpreting the items transformItems returns, at the
    grid's column count, puts every item in the column and at the width the
    grid gave it. *)
Theorem interpretItems_after_transformItems `{Constants} (σ σ' : Store)
    (src : list Item) (g : GridLayout) (out : list Item) :
  allocated σ src → unshared src → NoDup (item_id <$> items g) →
  0 ≤ columns g < 4294967296 →
  (∀ e s, e ∈ items g → itemById src !! item_id e = Some s →
     getItemMinColumnSpan s (columns g) ≤ width e) →
  transformItems σ src g = Ok (σ', out) →
  ∃ g', interpretItems σ' out (columns g) = Ok g'
        ∧ (λ it, (item_id it, x it, width it)) <$> items g'
          ≡ₚ (λ e, (item_id e, x e, width e)) <$> items g.
Proof.
  intros Halloc Hunshared Hids HN Hmin Htransform.
  destruct (transformItems_objects _ _ _ _ _ Halloc Hunshared Hids Htransform)
    as (cf & _ & Hall).
  pose proof (transformItems_length _ _ _ _ _ Htransform) as Hlength.
  set (sorted := sort itemComparator (items g)) in *.
  assert (sorted ≡ₚ items g) as Hperm by apply sort_perm.
  unfold interpretItems. rewrite bool_decide_eq_false_2; [|lia].
  eexists. split; [reflexivity|]. simpl.
  rewrite sort_perm, <- Hperm.
  assert ((λ it, (item_id it, x it, width it))
            <$> layoutItems (packItems σ' (columns g) out)
          = (λ e, (item_id e, x e, width e)) <$> sorted) as ->; [|done].
  apply packItems_pinned. apply Forall2_fmap_r.
  apply Forall2_same_length_lookup_2.
  { done. }
  intros i o e Ho He.
  destruct (Hall i e o He Ho) as (s & Hs & Hid & Hdef & Hspan & Hoff & _).
  simpl. split_and!; [done| |].
  - by rewrite readSetting_settingOf, Hoff, lookup_insert_eq.
  - unfold getColumnSpan.
    rewrite readSetting_settingOf, Hspan, lookup_insert_eq. simpl.
    assert (getItemMinColumnSpan o (columns g) = getItemMinColumnSpan s (columns g))
      as ->.
    { unfold getItemMinColumnSpan. by rewrite Hdef. }
    assert (e ∈ items g) as Hin.
    { rewrite <- Hperm. by eapply list_elem_of_lookup_2. }
    pose proof (Hmin e s Hin Hs). lia.
Qed.

Lemma interpretItems_after_transformItems_witness :
  ∃ σ' out,
    transformItems sampleStore onePinned moved = Ok (σ', out)
    ∧ ∃ g', interpretItems (H := exampleConstants) σ' out (columns moved) = Ok g'
            ∧ (λ it, (item_id it, x it, width it)) <$> items g'
              ≡ₚ (λ e, (item_id e, x e, width e)) <$> items moved.
Proof.
  eexists _, _. split; [vm_compute; reflexivity|].
  eapply (interpretItems_after_transformItems (H := exampleConstants)
            sampleStore _ onePinned moved).
  - apply allocated_Forall. repeat constructor; compute_done.
  - unfold unshared. compute_done.
  - compute_done.
  - simpl. lia.
  - intros e s He Hs. simpl in He. apply list_elem_of_singleton in He as ->.
    vm_compute in Hs. injection Hs as <-. vm_compute. discriminate.
  - vm_compute. reflexivity.
Defined.

(** ** The placeholders as a grid *)

Lemma StronglySorted_seqZ (m n : Z) : StronglySorted Z.lt (seqZ m n).
Proof.
  remember (Z.to_nat n) as k eqn:Hk. revert m n Hk.
  induction k as [|k IH]; intros m n Hk.
  - rewrite seqZ_nil by lia. constructor.
  - rewrite seqZ_cons by lia. constructor.
    + apply IH. lia.
    + apply Forall_forall. intros c Hc. apply elem_of_seqZ in Hc. lia.
Qed.

Lemma StronglySorted_bind {A B : Type} (R : A → A → Prop) (S : B → B → Prop)
    (f : A → list B) (l : list A) :
  (∀ a, StronglySorted S (f a)) →
  (∀ a1 a2 b1 b2, R a1 a2 → b1 ∈ f a1 → b2 ∈ f a2 → S b1 b2) →
  StronglySorted R l → StronglySorted S (l ≫= f).
Proof.
  intros Hinner Hcross. induction 1 as [|a l Hsorted IH Hall]; [constructor|].
  rewrite bind_cons. apply StronglySorted_app_2; [|done|done].
  intros b1 b2 Hb1 (a2 & Hb2 & Ha2)%list_elem_of_bind.
  eapply Hcross; [|done|done].
  by apply (proj1 (Forall_forall _ _) Hall).
Qed.

Lemma placeholders_StronglySorted (nrows ncols : Z) :
  StronglySorted rowMajorBefore (items (createPlaceholdersLayout nrows ncols)).
Proof.
  unfold createPlaceholdersLayout; simpl.
  apply (StronglySorted_bind Z.lt); [| |apply StronglySorted_seqZ].
  - intros row. apply (StronglySorted_bind Z.lt); [| |apply StronglySorted_seqZ].
    + intros col. repeat constructor.
    + intros c1 c2 b1 b2 Hlt ->%list_elem_of_singleton ->%list_elem_of_singleton.
      unfold rowMajorBefore; simpl. lia.
  - intros r1 r2 b1 b2 Hlt (c1 & ->%list_elem_of_singleton & _)%list_elem_of_bind
      (c2 & ->%list_elem_of_singleton & _)%list_elem_of_bind.
    unfold rowMajorBefore; simpl. lia.
Qed.

(** X13: the placeholders form a grid in reading order. Sorting them with
    the comparator of the layout changes nothing; no two placeholders share a
    cell; each lies within the columns; and there are none when [rows] or
    [columns] is not positive. *)
Theorem createPlaceholdersLayout_grid (nrows ncols : Z) :
  let l := items (createPlaceholdersLayout nrows ncols) in
  sort itemComparator l = l
  ∧ noSharedCell l
  ∧ Forall (withinColumns ncols) l
  ∧ (nrows ≤ 0 ∨ ncols ≤ 0 → l = []).
Proof.
  intros l. pose proof (placeholders_StronglySorted nrows ncols) as Hsorted.
  fold l in Hsorted. split_and!.
  - apply sort_Sorted_id. apply StronglySorted_Sorted.
    clear -Hsorted. induction Hsorted as [|a l' Hs IH Hall]; constructor; [done|].
    eapply Forall_impl; [exact Hall|]. apply rowMajorBefore_inOrder.
  - assert (∀ i j a b col row, (i < j)%nat → l !! i = Some a → l !! j = Some b →
              ¬ (covers col row a ∧ covers col row b)) as Hlt.
    { intros i j a b col row Hij Hi Hj [Ha Hb].
      pose proof (StronglySorted_lookup _ _ _ _ _ _ Hsorted Hij Hi Hj) as Hbefore.
      assert (∀ it, it ∈ l → width it = 1 ∧ height it = 1) as Hunit.
      { intros it Hit. unfold l, createPlaceholdersLayout in Hit; simpl in Hit.
        apply list_elem_of_bind in Hit as (r & Hit & _).
        apply list_elem_of_bind in Hit as (c & Hit & _).
        by apply list_elem_of_singleton in Hit as ->. }
      destruct (Hunit a (list_elem_of_lookup_2 _ _ _ Hi)) as [Hwa Hha].
      destruct (Hunit b (list_elem_of_lookup_2 _ _ _ Hj)) as [Hwb Hhb].
      unfold covers in Ha, Hb. unfold rowMajorBefore in Hbefore.
      destruct (y a), (y b); try done. lia. }
    intros i j a b col row Hij Hi Hj.
    destruct (decide (i < j)%nat) as [Hlt'|Hge].
    + by eapply Hlt.
    + intros [Ha Hb]. eapply (Hlt j i b a col row); [lia|done|done|done].
  - apply Forall_forall. intros it Hit.
    unfold l, createPlaceholdersLayout in Hit; simpl in Hit.
    apply list_elem_of_bind in Hit as (r & Hit & Hr%elem_of_seqZ).
    apply list_elem_of_bind in Hit as (c & Hit & Hc%elem_of_seqZ).
    apply list_elem_of_singleton in Hit as ->.
    exists r. simpl. split_and!; [done|lia|lia|lia|lia|lia].
  - intros Hempty. unfold l, createPlaceholdersLayout; simpl.
    destruct Hempty as [Hr|Hc].
    + by rewrite (seqZ_nil 0 nrows).
    + rewrite (seqZ_nil 0 ncols) by done.
      induction (seqZ 0 nrows) as [|r rs IH]; [done|]. by rewrite bind_cons, IH.
Qed.

Lemma createPlaceholdersLayout_grid_witness :
  items (createPlaceholdersLayout 2 0) = [].
Proof.
  pose proof (createPlaceholdersLayout_grid 2 0) as (_ & _ & _ & Hempty).
  apply Hempty. right. lia.
Defined.

(** ** The ids of the placeholders *)

Lemma pretty_N_char_no_dash (n : N) : pretty_N_char n ≠ "-"%char.
Proof.
  unfold pretty_N_char. destruct n as [|p]; [done|].
  repeat (destruct p as [p|p|]; try done).
Qed.

Lemma pretty_N_go_dashFree (n : N) (s : string) :
  dashFree s → dashFree (pretty_N_go n s).
Proof.
  revert s. induction (N.lt_wf_0 n) as [n _ IH]; intros s Hs.
  destruct (decide (n = 0%N)) as [->|Hne].
  - by rewrite pretty_N_go_0.
  - rewrite pretty_N_go_step by lia. apply IH.
    + apply N.div_lt; lia.
    + split; [apply pretty_N_char_no_dash|done].
Qed.

Lemma pretty_Z_dashFree (z : Z) : 0 ≤ z → dashFree (pretty z).
Proof.
  intros Hz. destruct z as [|p|p]; [by repeat split| |lia].
  unfold pretty, pretty_Z, pretty, pretty_positive, pretty, pretty_N.
  case_decide; [done|]. by apply pretty_N_go_dashFree.
Qed.

Lemma dashFree_split (d1 d2 s1 s2 : string) :
  dashFree d1 → dashFree d2 →
  d1 +:+ String "-" s1 = d2 +:+ String "-" s2 → d1 = d2 ∧ s1 = s2.
Proof.
  revert d2. induction d1 as [|a d1 IH]; intros [|b d2]; simpl.
  - by intros _ _ [= ->].
  - intros _ [Hb _] [= <- _]. done.
  - intros [Ha _] _ [= -> _]. done.
  - intros [_ H1] [_ H2] [= -> Heq]. destruct (IH d2 H1 H2 Heq) as [-> ->]. done.
Qed.

Lemma placeholderId_inj (r1 c1 r2 c2 : Z) :
  0 ≤ r1 → 0 ≤ r2 →
  placeholderId r1 c1 = placeholderId r2 c2 → r1 = r2 ∧ c1 = c2.
Proof.
  intros Hr1 Hr2. unfold placeholderId. intros Heq.
  apply (inj (String.append "awsui-placeholder-")) in Heq.
  apply dashFree_split in Heq as [Hr Hc]; [|by apply pretty_Z_dashFree..].
  split; by apply (inj pretty).
Qed.

(** X14: the ids of the placeholders are pairwise different. *)
Theorem createPlaceholdersLayout_ids (nrows ncols : Z) :
  NoDup (item_id <$> items (createPlaceholdersLayout nrows ncols)).
Proof.
  apply NoDup_fmap_2_strong.
  - intros a b Ha Hb. unfold createPlaceholdersLayout in Ha, Hb; simpl in Ha, Hb.
    apply list_elem_of_bind in Ha as (r1 & Ha & Hr1%elem_of_seqZ).
    apply list_elem_of_bind in Ha as (c1 & Ha & _).
    apply list_elem_of_singleton in Ha as ->.
    apply list_elem_of_bind in Hb as (r2 & Hb & Hr2%elem_of_seqZ).
    apply list_elem_of_bind in Hb as (c2 & Hb & _).
    apply list_elem_of_singleton in Hb as ->.
    simpl. intros [-> ->]%placeholderId_inj; [done|lia|lia].
  - apply (StronglySorted_NoDup rowMajorBefore);
      [|apply placeholders_StronglySorted].
    intros a Ha. unfold rowMajorBefore in Ha. destruct (y a); [lia|done].
Qed.

(** ** The Grid component *)

(** X15: the rows of the Grid component tile it from the top: row 0 starts at
    pixel 0, every row starts one row height and one gap below the row before
    it, and an item of [h] rows placed at row [y] ends exactly one gap above
    the start of row [y + h]. *)
Theorem GridComponent_rows_tile (y h : Z) :
  GridComponent.getRowOffset 0 = 0
  ∧ GridComponent.getRowOffset (y + 1)
    = GridComponent.getRowOffset y
      + GridComponent.ROWSPAN_HEIGHT + GridComponent.GRID_GAP
  ∧ GridComponent.getRowOffset (y + h)
    = GridComponent.getRowOffset y + GridComponent.getHeight h
      + GridComponent.GRID_GAP.
Proof.
  unfold GridComponent.getRowOffset, GridComponent.getHeight,
    GridComponent.ROWSPAN_HEIGHT, GridComponent.GRID_GAP.
  lia.
Qed.

(** ** The item container *)

Section ItemContainerProperties.
Import ItemContainer.
Variable item : Item.
Variable itemSize itemMaxSize : Size.
Variable getMinItemSize : Item → Size.

Lemma updateTransition_own (st : State) (d : DragAndDropData) :
  ownTransition item st →
  ownTransition item (updateTransition item itemSize itemMaxSize getMinItemSize st d).
Proof.
  intros Hst. unfold updateTransition.
  case_bool_decide as Hid; [|done].
  destruct (dnd_operation d) eqn:Hop, (dropTarget d) as [scale|]; try done;
    intros t [= <-]; simpl;
    (split_and!; [done|by eexists|split; done]).
Qed.

Lemma step_own (st : State) (ev : Event) :
  ownTransition item st →
  ownTransition item (step item itemSize itemMaxSize getMinItemSize st ev).
Proof.
  intros Hst. destruct ev; simpl; try done.
  - by apply updateTransition_own.
  - by apply updateTransition_own.
Qed.

Lemma foldl_step_own (evs : list Event) (st : State) :
  ownTransition item st →
  ownTransition item (foldl (step item itemSize itemMaxSize getMinItemSize) st evs).
Proof.
  revert st. induction evs as [|ev evs IH]; intros st Hst; simpl; [done|].
  by apply IH, step_own.
Qed.

Lemma run_own (evs : list Event) :
  ownTransition item (run item itemSize itemMaxSize getMinItemSize evs).
Proof. apply foldl_step_own. by intros t. Qed.

End ItemContainerProperties.

(** X16: whatever events an item container has received, the transition it
    holds is about its own item, and it renders at most one transition class:
    a resized item gets an inline width and height and never an inline left
    or top, a dragged item gets all four, and a borrowed item or one with no
    class gets no inline style at all. *)
Theorem ItemContainer_render (item : Item) (itemSize itemMaxSize : ItemContainer.Size)
    (getMinItemSize : Item → ItemContainer.Size) (evs : list ItemContainer.Event) :
  let st := ItemContainer.run item itemSize itemMaxSize getMinItemSize evs in
  let classes := (ItemContainer.render st).1 in
  let style := (ItemContainer.render st).2 in
  (∀ t, ItemContainer.transition st = Some t → ItemContainer.itemId t = id item)
  ∧ (length classes ≤ 1)%nat
  ∧ (ItemContainer.ResizedClass ∈ classes →
     ItemContainer.style_left style = None
     ∧ ItemContainer.style_top style = None
     ∧ is_Some (ItemContainer.style_width style)
     ∧ is_Some (ItemContainer.style_height style))
  ∧ (ItemContainer.DraggedClass ∈ classes →
     is_Some (ItemContainer.style_left style)
     ∧ is_Some (ItemContainer.style_top style)
     ∧ is_Some (ItemContainer.style_width style)
     ∧ is_Some (ItemContainer.style_height style))
  ∧ (ItemContainer.ResizedClass ∉ classes → ItemContainer.DraggedClass ∉ classes →
     style = ItemContainer.noStyle).
Proof.
  intros st classes style.
  pose proof (run_own item itemSize itemMaxSize getMinItemSize evs) as Hown.
  fold st in Hown. unfold classes, style, ItemContainer.render.
  clearbody st. clear classes style. unfold ownTransition in Hown.
  split; [intros t Ht; by destruct (Hown t Ht)|].
  destruct (ItemContainer.transition st) as [t|].
  - destruct (Hown t eq_refl) as (_ & [sz Hsz] & Hpos).
    destruct (ItemContainer.interactionType t).
    + destruct (ItemContainer.operation t) eqn:Hop; simpl; rewrite Hsz; simpl.
      * destruct (ItemContainer.positionTransform t) as [c|] eqn:Hc;
          [|pose proof (proj2 Hpos eq_refl); congruence].
        simpl. split_and!; [lia| |by eauto|].
        -- intros Hin. apply list_elem_of_singleton in Hin. done.
        -- intros _ Hnot. destruct Hnot. by apply list_elem_of_singleton.
      * rewrite (proj1 Hpos eq_refl). simpl. split_and!; [lia|by eauto| |].
        -- intros Hin. apply list_elem_of_singleton in Hin. done.
        -- intros Hnot. destruct Hnot. by apply list_elem_of_singleton.
      * destruct (ItemContainer.positionTransform t) as [c|] eqn:Hc;
          [|pose proof (proj2 Hpos eq_refl); congruence].
        simpl. split_and!; [lia| |by eauto|].
        -- intros Hin. apply list_elem_of_singleton in Hin. done.
        -- intros _ Hnot. destruct Hnot. by apply list_elem_of_singleton.
    + destruct (ItemContainer.isBorrowed st); simpl; split_and!; try done; try lia.
      all: try (intros Hin; apply list_elem_of_singleton in Hin; done).
      all: intros Hin; by apply elem_of_nil in Hin.
  - destruct (ItemContainer.isBorrowed st); simpl; split_and!; try done; try lia.
    all: try (intros Hin; apply list_elem_of_singleton in Hin; done).
    all: intros Hin; by apply elem_of_nil in Hin.
Qed.

Lemma ItemContainer_render_witness :
  let st := ItemContainer.run (plainItem "a" 1 1) unitSize twoByTwo (λ _, unitSize)
              resizeByPointer in
  let classes := (ItemContainer.render st).1 in
  let style := (ItemContainer.render st).2 in
  classes = [ItemContainer.ResizedClass]
  ∧ (∀ t, ItemContainer.transition st = Some t → ItemContainer.itemId t = "a")
  ∧ (ItemContainer.ResizedClass ∈ classes →
     ItemContainer.style_left style = None
     ∧ ItemContainer.style_top style = None
     ∧ is_Some (ItemContainer.style_width style)
     ∧ is_Some (ItemContainer.style_height style)).
Proof.
  intros st classes style. split; [reflexivity|].
  destruct (ItemContainer_render (plainItem "a" 1 1) unitSize twoByTwo (λ _, unitSize)
              resizeByPointer) as (Hown & _ & Hresized & _).
  split; [exact Hown|exact Hresized].
Defined.

(** X17: a resize event about the container's own item over a drop target
    gives a transition with no position and a size that is at least the
    scaled minimum size of the item in both directions; its width is at most
    the scaled maximum width unless the scaled minimum exceeds that maximum,
    in which case the width is the minimum. *)
Theorem ItemContainer_resize_bounds (item : Item)
    (itemSize itemMaxSize : ItemContainer.Size)
    (getMinItemSize : Item → ItemContainer.Size)
    (st : ItemContainer.State) (d : ItemContainer.DragAndDropData)
    (scale : ItemContainer.Size → ItemContainer.Size) :
  id item = id (ItemContainer.draggableItem d) →
  ItemContainer.dnd_operation d = ItemContainer.Resize →
  ItemContainer.dropTarget d = Some scale →
  let min := scale (getMinItemSize (ItemContainer.draggableItem d)) in
  let max := scale itemMaxSize in
  ∃ t sz,
    ItemContainer.transition
      (ItemContainer.updateTransition item itemSize itemMaxSize getMinItemSize st d)
    = Some t
    ∧ ItemContainer.positionTransform t = None
    ∧ ItemContainer.sizeTransform t = Some sz
    ∧ ItemContainer.size_width min ≤ ItemContainer.size_width sz
    ∧ ItemContainer.size_height min ≤ ItemContainer.size_height sz
    ∧ (ItemContainer.size_width min ≤ ItemContainer.size_width max →
       ItemContainer.size_width sz ≤ ItemContainer.size_width max)
    ∧ (ItemContainer.size_width max < ItemContainer.size_width min →
       ItemContainer.size_width sz = ItemContainer.size_width min).
Proof.
  intros Hid Hop Htarget min max. unfold ItemContainer.updateTransition.
  rewrite bool_decide_eq_true_2 by done. rewrite Hop, Htarget. simpl.
  eexists _, _. split_and!; [reflexivity|reflexivity|reflexivity|..]; simpl;
    fold min max; lia.
Qed.

Lemma ItemContainer_resize_bounds_witness :
  ∃ t sz,
    ItemContainer.transition
      (ItemContainer.updateTransition (plainItem "a" 1 1) unitSize twoByTwo
         (λ _, unitSize) ItemContainer.initial resizeOfA)
    = Some t
    ∧ ItemContainer.positionTransform t = None
    ∧ ItemContainer.sizeTransform t = Some sz
    ∧ 100 ≤ ItemContainer.size_width sz
    ∧ 50 ≤ ItemContainer.size_height sz
    ∧ (100 ≤ 200 → ItemContainer.size_width sz ≤ 200)
    ∧ (200 < 100 → ItemContainer.size_width sz = 100).
Proof.
  apply (ItemContainer_resize_bounds (plainItem "a" 1 1) unitSize twoByTwo
           (λ _, unitSize) ItemContainer.initial resizeOfA cellScale);
    reflexivity.
Defined.
